(** * Poly2Tri-C: the half-edge kernel (edge.c) and the points-file reader
      (bin/main.c)

    A shallow embedding of [p2tr_edge_*] over an explicit object store, and
    of the parsing loop of [read_points_file] over a token stream.

    Conventions.
    - A C object lives in a finite map from addresses to records; a pointer
      is an address, a nullable pointer an [option] of one ([None] is NULL).
    - [gdouble] is idealised as a real number: the development speaks about
      the geometry the code computes, not about rounding.
    - A computation is a state transformer that can complete, abort with a
      fatal programmatic exception, or be undefined (a dereference of NULL or
      of storage that was released).
    - The store keeps the history of the calls into triangle.c and mesh.c,
      each with the objects as the callee found them, so that the order of
      the effects of a function can be stated. *)

From Stdlib Require Import Reals Lra ZArith String SpecFloat.
From stdpp Require Import base option gmap.

Set Warnings "-clear-no-such-hyp".

#[local] Open Scope Z_scope.

(** ** Outcomes and the store monad *)

Inductive result (A : Type) : Type :=
  | Ret (a : A)
  | Fatal (msg : string)
  | Undefined.
Arguments Ret {A} a.
Arguments Fatal {A} msg.
Arguments Undefined {A}.

(** ** Data model *)

Abbreviation addr := positive.

(** The two structures of which edge.c reads and writes the fields [x], [y],
    [center] and [radius]. *)
Record P2trVector2 : Type := { x : R; y : R }.

Record P2trCircle : Type := { center : P2trVector2; radius : R }.

(** Modelled from the spec: point.h is missing; the fields follow the data
    model of a point (coordinates, outgoing half-edges, reference count,
    owning mesh). *)
Record P2trPoint : Type := {
  c : P2trVector2;
  outgoing_edges : gset addr;
  pt_refcount : Z;
  mesh : option addr
}.

(** The fields written by [p2tr_edge_init]. edge.h, which declares the
    integer type of [refcount], is missing: the count is kept unbounded. It
    agrees with an unsigned count as long as a count of 0 is not
    decremented. *)
Record P2trEdge : Type := {
  angle : R;
  constrained : bool;
  delaunay : bool;
  end_ : option addr;
  mirror : addr;
  refcount : Z;
  tri : option addr
}.

(** Modelled from the spec: triangle.h is missing; a triangle is paired with
    "exactly three half-edges". *)
Record P2trTriangle : Type := { tri_edges : addr * addr * addr }.

(** The objects as a callee finds them when it is entered. *)
Record Heap : Type := {
  heap_points : gmap addr P2trPoint;
  heap_edges : gmap addr P2trEdge;
  heap_triangles : gmap addr P2trTriangle
}.

(** The calls edge.c makes into triangle.c and mesh.c. *)
Inductive call : Type :=
  | call_triangle_remove (t : addr)
  | call_on_edge_removed (m e : addr).

(** The store. [removed_log] is the stream of notifications the meshes have
    received through [p2tr_mesh_on_edge_removed], oldest first. [history]
    is the sequence of calls into triangle.c and mesh.c, oldest first, each
    with the objects as they were when the callee was entered. *)
Record Store : Type := {
  points : gmap addr P2trPoint;
  edges : gmap addr P2trEdge;
  triangles : gmap addr P2trTriangle;
  removed_log : list (addr * addr);
  history : list (call * Heap)
}.

Definition M (A : Type) : Type := Store → result (A * Store).

Definition ret {A : Type} (a : A) : M A := λ s, Ret (a, s).

Definition bind {A B : Type} (m : M A) (f : A → M B) : M B := λ s,
  match m s with
  | Ret (a, s') => f a s'
  | Fatal msg => Fatal msg
  | Undefined => Undefined
  end.

Declare Scope store_scope.
Delimit Scope store_scope with store.
Bind Scope store_scope with M.
Notation "x ← m ; k" := (bind m (λ x, k))
  (at level 20, m at level 100, k at level 200, only parsing) : store_scope.
Notation "m ;; k" := (bind m (λ _, k))
  (at level 100, k at level 200, right associativity, only parsing) : store_scope.
#[local] Open Scope store_scope.

Definition with_points (f : gmap addr P2trPoint → gmap addr P2trPoint)
    (s : Store) : Store :=
  {| points := f (points s); edges := edges s;
     triangles := triangles s; removed_log := removed_log s;
     history := history s |}.

Definition with_edges (f : gmap addr P2trEdge → gmap addr P2trEdge)
    (s : Store) : Store :=
  {| points := points s; edges := f (edges s);
     triangles := triangles s; removed_log := removed_log s;
     history := history s |}.

Definition with_triangles
    (f : gmap addr P2trTriangle → gmap addr P2trTriangle) (s : Store) : Store :=
  {| points := points s; edges := edges s;
     triangles := f (triangles s); removed_log := removed_log s;
     history := history s |}.

Definition with_log (f : list (addr * addr) → list (addr * addr)) (s : Store) : Store :=
  {| points := points s; edges := edges s;
     triangles := triangles s; removed_log := f (removed_log s);
     history := history s |}.

Definition heap_of (s : Store) : Heap :=
  {| heap_points := points s; heap_edges := edges s;
     heap_triangles := triangles s |}.

(** Entering a callee of another module: the call goes into the history
    with the objects as they are at that moment. *)
Definition enter (c : call) : M unit := λ s,
  Ret (tt, {| points := points s; edges := edges s;
              triangles := triangles s; removed_log := removed_log s;
              history := history s ++ [(c, heap_of s)] |}).

(** Reading through a pointer: undefined when the pointer is NULL or the
    object is not (or no longer) allocated. *)
Definition get_point (p : option addr) : M P2trPoint := λ s,
  match p ≫= (λ a, points s !! a) with
  | Some P => Ret (P, s)
  | None => Undefined
  end.

Definition get_edge (e : addr) : M P2trEdge := λ s,
  match edges s !! e with
  | Some E => Ret (E, s)
  | None => Undefined
  end.

Definition get_triangle (t : addr) : M P2trTriangle := λ s,
  match triangles s !! t with
  | Some T => Ret (T, s)
  | None => Undefined
  end.

(** Writing through a pointer that was just read. *)
Definition put_point (p : option addr) (P : P2trPoint) : M unit := λ s,
  match p with
  | Some a => Ret (tt, with_points <[a := P]> s)
  | None => Undefined
  end.

Definition put_edge (e : addr) (E : P2trEdge) : M unit := λ s,
  Ret (tt, with_edges <[e := E]> s).

Definition set_end (v : option addr) (E : P2trEdge) : P2trEdge :=
  {| angle := angle E; constrained := constrained E; delaunay := delaunay E;
     end_ := v; mirror := mirror E; refcount := refcount E; tri := tri E |}.

Definition set_refcount (v : Z) (E : P2trEdge) : P2trEdge :=
  {| angle := angle E; constrained := constrained E; delaunay := delaunay E;
     end_ := end_ E; mirror := mirror E; refcount := v; tri := tri E |}.

Definition set_tri (v : option addr) (E : P2trEdge) : P2trEdge :=
  {| angle := angle E; constrained := constrained E; delaunay := delaunay E;
     end_ := end_ E; mirror := mirror E; refcount := refcount E; tri := v |}.

Definition set_outgoing_edges (v : gset addr) (P : P2trPoint) : P2trPoint :=
  {| c := c P; outgoing_edges := v; pt_refcount := pt_refcount P; mesh := mesh P |}.

Definition set_pt_refcount (v : Z) (P : P2trPoint) : P2trPoint :=
  {| c := c P; outgoing_edges := outgoing_edges P; pt_refcount := v; mesh := mesh P |}.

(** ** The slice allocator (GLib) *)

(** What a freshly allocated edge holds before [p2tr_edge_init] runs; every
    field is overwritten there. *)
Definition uninitialised_edge : P2trEdge :=
  {| angle := 0%R; constrained := false; delaunay := false; end_ := None;
     mirror := 1%positive; refcount := 0; tri := None |}.

(** [g_slice_new (P2trEdge)]: an address that is not in use. *)
Definition g_slice_new : M addr := λ s,
  let a := fresh (dom (edges s)) in
  Ret (a, with_edges <[a := uninitialised_edge]> s).

(** [g_slice_free (P2trEdge, p)]: the storage at [p] is given back. *)
Definition g_slice_free (e : addr) : M unit := λ s,
  match edges s !! e with
  | Some _ => Ret (tt, with_edges (delete e) s)
  | None => Undefined
  end.

(** ** libm *)

(** [atan2 (dy, dx)] on real arguments: the angle of the vector (dx, dy) in
    (-PI, PI], and 0 for the null vector. *)
Definition atan2 (dy dx : R) : R :=
  if Rlt_dec 0 dx then atan (dy / dx)
  else if Rlt_dec dx 0 then
    if Rle_dec 0 dy then (atan (dy / dx) + PI)%R else (atan (dy / dx) - PI)%R
  else if Rlt_dec 0 dy then (PI / 2)%R
  else if Rlt_dec dy 0 then (- (PI / 2))%R
  else 0%R.

(** ** Vector helpers (vector2.c) *)

(** Modelled from the spec: [p2tr_vector2_center] is missing; the midpoint
    of two positions ("the circle centered at the edge's midpoint"). *)
Definition p2tr_vector2_center (a b : P2trVector2) : P2trVector2 :=
  {| x := ((x a + x b) * / 2)%R; y := ((y a + y b) * / 2)%R |}.

(** Modelled from the spec: [p2tr_vector2_sub] is missing; the componentwise
    difference. *)
Definition p2tr_vector2_sub (a b : P2trVector2) : P2trVector2 :=
  {| x := (x a - x b)%R; y := (y a - y b)%R |}.

(** Modelled from the spec: [p2tr_vector2_norm] is missing; the Euclidean
    length of a vector. *)
Definition p2tr_vector2_norm (v : P2trVector2) : R :=
  sqrt (x v * x v + y v * y v).

(** Modelled from the spec: [p2tr_math_length_sq2] is missing; the squared
    Euclidean distance between two positions ("Euclidean distance (and its
    square, avoiding a square root) between the two endpoints"). *)
Definition p2tr_math_length_sq2 (a b : P2trVector2) : R :=
  ((x a - x b) * (x a - x b) + (y a - y b) * (y a - y b))%R.

(** ** Point, Triangle and Mesh: the collaborators of the edge component *)

(** Modelled from the spec: point.c is missing; "reference counting":
    [p2tr_point_ref] takes one more reference on the point. *)
Definition p2tr_point_ref (p : option addr) : M unit :=
  P ← get_point p;
  put_point p (set_pt_refcount (pt_refcount P + 1) P).

(** Modelled from the spec: point.c is missing; a point is "destroyed when
    its reference count reaches zero": [p2tr_point_unref] gives one
    reference back and releases the point with the last one. *)
Definition p2tr_point_unref (p : option addr) : M unit :=
  P ← get_point p;
  if pt_refcount P - 1 =? 0
  then λ s, Ret (tt, with_points (λ m, from_option (λ a, delete a m) m p) s)
  else put_point p (set_pt_refcount (pt_refcount P - 1) P).

(** Modelled from the spec: point.c is missing; "insert/remove of an
    outgoing half-edge from its incident set". *)
Definition _p2tr_point_insert_edge (p : option addr) (e : addr) : M unit :=
  P ← get_point p;
  put_point p (set_outgoing_edges ({[e]} ∪ outgoing_edges P) P).

(** Modelled from the spec: point.c is missing; the removal counterpart of
    [_p2tr_point_insert_edge]. *)
Definition _p2tr_point_remove_edge (p : option addr) (e : addr) : M unit :=
  P ← get_point p;
  put_point p (set_outgoing_edges (outgoing_edges P ∖ {[e]}) P).

(** Modelled from the spec: point.c is missing; "resolution of its owning
    mesh". *)
Definition p2tr_point_get_mesh (p : option addr) : M (option addr) :=
  P ← get_point p;
  ret (mesh P).

Definition clear_tri (e : addr) : M unit :=
  E ← get_edge e;
  put_edge e (set_tri None E).

(** Modelled from the spec: triangle.c is missing; triangle removal
    "detaches the triangle from its three bounding half-edges (clearing each
    one's bound-triangle reference) and reclaims the triangle". The call is
    entered in the history. *)
Definition p2tr_triangle_remove (t : addr) : M unit :=
  enter (call_triangle_remove t);;
  T ← get_triangle t;
  let '(e0, e1, e2) := tri_edges T in
  clear_tri e0;;
  clear_tri e1;;
  clear_tri e2;;
  λ s, Ret (tt, with_triangles (delete t) s).

(** Modelled from the spec: mesh.c is missing; the "removal-notification
    hook" of a mesh: the mesh records that the half-edge was removed. The
    call is entered in the history. *)
Definition p2tr_mesh_on_edge_removed (m e : addr) : M unit :=
  enter (call_on_edge_removed m e);;
  λ s, Ret (tt, with_log (λ l, l ++ [(m, e)]) s).

(** Modelled from the spec: [p2tr_exception_programmatic] is a macro of
    utils.h, which is missing; a "fatal assertion, not a recoverable error":
    processing is aborted. *)
Definition p2tr_exception_programmatic {A : Type} (msg : string) : M A :=
  λ _, Fatal msg.

(** ** edge.c *)

(** Modelled from the spec: edge.h, which defines the macro
    [P2TR_EDGE_START], is missing; a half-edge is "an ordered pair (implicit
    start = mirror's end, explicit end)". *)
Definition P2TR_EDGE_START (e : addr) : M (option addr) :=
  E ← get_edge e;
  Mr ← get_edge (mirror E);
  ret (end_ Mr).

Definition p2tr_edge_init (self : addr) (start end' : option addr)
    (constrained' : bool) (mirror' : addr) : M unit :=
  Pe ← get_point end';
  Ps ← get_point start;
  _ ← get_edge self;
  put_edge self
    {| angle := atan2 (y (c Pe) - y (c Ps)) (x (c Pe) - x (c Ps));
       constrained := constrained';
       delaunay := false;
       end_ := end';
       mirror := mirror';
       refcount := 0;
       tri := None |}.

Definition p2tr_edge_new (start end' : option addr) (constrained' : bool) : M addr :=
  self ← g_slice_new;
  mirror' ← g_slice_new;
  p2tr_edge_init self start end' constrained' mirror';;
  p2tr_edge_init mirror' end' start constrained' self;;
  p2tr_point_ref start;;
  p2tr_point_ref end';;
  _p2tr_point_insert_edge start self;;
  _p2tr_point_insert_edge end' mirror';;
  E ← get_edge self;
  put_edge self (set_refcount (refcount E + 1) E);;
  ret self.

Definition p2tr_edge_ref (self : addr) : M addr :=
  E ← get_edge self;
  put_edge self (set_refcount (refcount E + 1) E);;
  ret self.

Definition p2tr_edge_is_removed (self : addr) : M bool :=
  E ← get_edge self;
  ret (bool_decide (end_ E = None)).

Definition p2tr_edge_get_mesh (self : addr) : M (option addr) :=
  E ← get_edge self;
  match end_ E with
  | Some _ => p2tr_point_get_mesh (end_ E)
  | None => ret None
  end.

(** [if (e->tri != NULL) p2tr_triangle_remove (e->tri);] *)
Definition remove_bound_triangle (e : addr) : M unit :=
  E ← get_edge e;
  match tri E with
  | Some t => p2tr_triangle_remove t
  | None => ret tt
  end.

(** Lines 81-84: the triangles bound to the two directions go first. The
    mirror's binding is read after the first triangle was removed. *)
Definition remove_bound_triangles (self : addr) : M unit :=
  remove_bound_triangle self;;
  E ← get_edge self;
  remove_bound_triangle (mirror E).

(** Lines 86-93: both directions leave the incident sets of their start
    points, both end references are cleared, and the two references on the
    end points are given back. *)
Definition remove_detach (self : addr) (start end' : option addr) : M unit :=
  _p2tr_point_remove_edge start self;;
  E ← get_edge self;
  _p2tr_point_remove_edge end' (mirror E);;
  E ← get_edge self;
  put_edge self (set_end None E);;
  E ← get_edge self;
  Mr ← get_edge (mirror E);
  put_edge (mirror E) (set_end None Mr);;
  p2tr_point_unref start;;
  p2tr_point_unref end'.

(** Lines 95-99: the mesh resolved on entry hears about both directions. *)
Definition remove_notify (self : addr) (mesh' : option addr) : M unit :=
  match mesh' with
  | Some m =>
      p2tr_mesh_on_edge_removed m self;;
      E ← get_edge self;
      p2tr_mesh_on_edge_removed m (mirror E)
  | None => ret tt
  end.

Definition p2tr_edge_remove (self : addr) : M unit :=
  E ← get_edge self;
  match end_ E with
  | None => ret tt
  | Some _ =>
      mesh' ← p2tr_edge_get_mesh self;
      start ← P2TR_EDGE_START self;
      let end' := end_ E in
      remove_bound_triangles self;;
      remove_detach self start end';;
      remove_notify self mesh'
  end.

(** The second [g_slice_free] takes its argument from [self], which the
    first one has just released. *)
Definition p2tr_edge_free (self : addr) : M unit :=
  p2tr_edge_remove self;;
  g_slice_free self;;
  E ← get_edge self;
  g_slice_free (mirror E).

(** The test is [--self->refcount == 0 && self->mirror->refcount == 0]: the
    mirror is looked at only when the edge's own count has reached zero. *)
Definition p2tr_edge_unref (self : addr) : M unit :=
  E ← get_edge self;
  put_edge self (set_refcount (refcount E - 1) E);;
  if refcount E - 1 =? 0 then
    Mr ← get_edge (mirror E);
    if refcount Mr =? 0 then p2tr_edge_free self else ret tt
  else ret tt.

Definition p2tr_edge_get_diametral_circle (self : addr) : M P2trCircle :=
  E ← get_edge self;
  Pe ← get_point (end_ E);
  start ← P2TR_EDGE_START self;
  Ps ← get_point start;
  let center' := p2tr_vector2_center (c Pe) (c Ps) in
  let radius' := p2tr_vector2_sub (c Pe) center' in
  ret {| center := center'; radius := p2tr_vector2_norm radius' |}.

Definition p2tr_edge_get_length (self : addr) : M R :=
  E ← get_edge self;
  Pe ← get_point (end_ E);
  start ← P2TR_EDGE_START self;
  Ps ← get_point start;
  ret (sqrt (p2tr_math_length_sq2 (c Pe) (c Ps))).

Definition p2tr_edge_get_length_squared (self : addr) : M R :=
  E ← get_edge self;
  Pe ← get_point (end_ E);
  start ← P2TR_EDGE_START self;
  Ps ← get_point start;
  ret (p2tr_math_length_sq2 (c Pe) (c Ps)).

Definition p2tr_edge_angle_between (e1 e2 : addr) : M R :=
  E1 ← get_edge e1;
  start2 ← P2TR_EDGE_START e2;
  (if decide (end_ E1 ≠ start2)
   then p2tr_exception_programmatic
          "The end-point of the first edge isn't the end-point of the second edge!"
   else ret tt);;
  E2 ← get_edge e2;
  let result := (PI - angle E1 + angle E2)%R in
  ret (if Rgt_dec result (2 * PI) then (result - 2 * PI)%R else result).

(** ** Well-formed stores *)

(** The start of a half-edge as the store records it: the end of its
    mirror. *)
Definition start_of (s : Store) (e : addr) : option addr :=
  edges s !! e ≫= λ E, edges s !! mirror E ≫= end_.

Definition triangle_sides (T : P2trTriangle) : list addr :=
  let '(e0, e1, e2) := tri_edges T in [e0; e1; e2].

(** Every half-edge has its twin, distinct from it, which points back; the
    two directions are removed together. *)
Definition mirror_ok (s : Store) (e : addr) (E : P2trEdge) : Prop :=
  mirror E ≠ e ∧
  match edges s !! mirror E with
  | Some Mr => mirror Mr = e ∧ (end_ E = None ↔ end_ Mr = None)
  | None => False
  end.

(** The end point of an installed half-edge is allocated. *)
Definition end_ok (s : Store) (e : addr) (E : P2trEdge) : Prop :=
  match end_ E with
  | Some p => is_Some (points s !! p)
  | None => True
  end.

(** A half-edge bound to a triangle is one of its sides. *)
Definition bound_ok (s : Store) (e : addr) (E : P2trEdge) : Prop :=
  match tri E with
  | Some t =>
      match triangles s !! t with
      | Some T => e ∈ triangle_sides T
      | None => False
      end
  | None => True
  end.

(** The sides of a triangle are allocated half-edges bound to it. *)
Definition sides_ok (s : Store) (t : addr) (T : P2trTriangle) : Prop :=
  Forall (λ e, tri <$> edges s !! e = Some (Some t)) (triangle_sides T).

(** The incident set of a point holds half-edges that start there. *)
Definition outgoing_ok (s : Store) (p : addr) (P : P2trPoint) : Prop :=
  set_Forall (λ e, start_of s e = Some p) (outgoing_edges P).

(** An installed half-edge is registered with its start point. *)
Definition registered_ok (s : Store) (e : addr) (E : P2trEdge) : Prop :=
  match start_of s e with
  | Some p =>
      match points s !! p with
      | Some P => e ∈ outgoing_edges P
      | None => False
      end
  | None => True
  end.

(** Every registered half-edge holds one reference on the point. *)
Definition references_ok (p : addr) (P : P2trPoint) : Prop :=
  Z.of_nat (size (outgoing_edges P)) ≤ pt_refcount P.

Definition wf (s : Store) : Prop :=
  map_Forall (mirror_ok s) (edges s) ∧
  map_Forall (end_ok s) (edges s) ∧
  map_Forall (bound_ok s) (edges s) ∧
  map_Forall (sides_ok s) (triangles s) ∧
  map_Forall (outgoing_ok s) (points s) ∧
  map_Forall (registered_ok s) (edges s) ∧
  map_Forall references_ok (points s).

#[global] Instance mirror_ok_dec s e E : Decision (mirror_ok s e E).
Proof. unfold mirror_ok. destruct (edges s !! mirror E); apply _. Defined.

#[global] Instance end_ok_dec s e E : Decision (end_ok s e E).
Proof. unfold end_ok. destruct (end_ E); apply _. Defined.

#[global] Instance bound_ok_dec s e E : Decision (bound_ok s e E).
Proof.
  unfold bound_ok. destruct (tri E) as [t|]; [|apply _].
  destruct (triangles s !! t); apply _.
Defined.

#[global] Instance sides_ok_dec s t T : Decision (sides_ok s t T).
Proof. unfold sides_ok. apply _. Defined.

#[global] Instance outgoing_ok_dec s p P : Decision (outgoing_ok s p P).
Proof. unfold outgoing_ok. apply _. Defined.

#[global] Instance registered_ok_dec s e E : Decision (registered_ok s e E).
Proof.
  unfold registered_ok. destruct (start_of s e) as [p|]; [|apply _].
  destruct (points s !! p); apply _.
Defined.

#[global] Instance references_ok_dec p P : Decision (references_ok p P).
Proof. unfold references_ok. apply _. Defined.

#[global] Instance wf_dec s : Decision (wf s).
Proof. unfold wf. apply _. Defined.

(** What [p2tr_edge_new] from [a] to [b] does to the point at [p]: one more
    reference and the forward edge [e] for the start point, one more
    reference and the mirror [m] for the end point. *)
Definition with_new_edge (a b e m p : addr) (P : P2trPoint) : P2trPoint :=
  {| c := c P;
     outgoing_edges :=
       (if decide (p = b) then {[m]} else ∅) ∪
       (if decide (p = a) then {[e]} else ∅) ∪ outgoing_edges P;
     pt_refcount :=
       pt_refcount P + (if decide (p = a) then 1 else 0)
                     + (if decide (p = b) then 1 else 0);
     mesh := mesh P |}.

(** What [p2tr_edge_remove] of the pair [e], [m] from [a] to [b] does to the
    point at [p]: the start point loses [e] and one reference, the end point
    loses [m] and one reference; a point left without a reference is
    released. *)
Definition without_edge (a b e m p : addr) (P : P2trPoint) : P2trPoint :=
  {| c := c P;
     outgoing_edges :=
       outgoing_edges P ∖ (if decide (p = a) then {[e]} else ∅)
                        ∖ (if decide (p = b) then {[m]} else ∅);
     pt_refcount :=
       pt_refcount P - (if decide (p = a) then 1 else 0)
                     - (if decide (p = b) then 1 else 0);
     mesh := mesh P |}.

Definition point_after_removal (a b e m p : addr) (P : P2trPoint)
    : option P2trPoint :=
  if decide ((p = a ∨ p = b) ∧ pt_refcount (without_edge a b e m p P) = 0)
  then None else Some (without_edge a b e m p P).

(** What a callee finds: the half-edge [e] still installed, with its end
    reference on [b]. *)
Definition installed_in (h : Heap) (e b : addr) : Prop :=
  end_ <$> heap_edges h !! e = Some (Some b).

(** An entry of the history that is a call of [p2tr_triangle_remove]. *)
Definition triangle_removal (ev : call * Heap) : Prop :=
  ∃ t, ev.1 = call_triangle_remove t.

(** Two direction angles differ by exactly PI modulo a full turn. *)
Definition opposite_angles (u v : R) : Prop :=
  ∃ k : Z, (v - u = PI + 2 * IZR k * PI)%R.

Definition normalised_angle (u : R) : Prop := (- PI < u <= PI)%R.

(** ** Concrete stores *)

Definition point_at (px py : R) (n : Z) (out : gset addr) : P2trPoint :=
  {| c := {| x := px; y := py |}; outgoing_edges := out;
     pt_refcount := n; mesh := Some 1%positive |}.

Definition half_edge (dy dx : R) (b : option addr) (m : addr) (n : Z)
    (t : option addr) : P2trEdge :=
  {| angle := atan2 dy dx; constrained := false; delaunay := false;
     end_ := b; mirror := m; refcount := n; tri := t |}.

(** Three points of a mesh, (0,0), (1,0) and (1,1), and no edge yet. *)
Definition three_points : Store :=
  {| points := {[ 1%positive := point_at 0 0 1 ∅;
                  2%positive := point_at 1 0 1 ∅;
                  3%positive := point_at 1 1 1 ∅ ]};
     edges := ∅; triangles := ∅; removed_log := [];
     history := [] |}.

(** [three_points] after [p2tr_edge_new] from (0,0) to (1,0). *)
Definition east_edge : Store :=
  {| points := {[ 1%positive := point_at 0 0 2 {[ 1%positive ]};
                  2%positive := point_at 1 0 2 {[ 2%positive ]};
                  3%positive := point_at 1 1 1 ∅ ]};
     edges := {[ 1%positive := half_edge (0 - 0) (1 - 0) (Some 2%positive) 2 1 None;
                 2%positive := half_edge (0 - 0) (0 - 1) (Some 1%positive) 1 0 None ]};
     triangles := ∅; removed_log := [];
     history := [] |}.

(** [east_edge] after [p2tr_edge_new] from (1,0) to (1,1). *)
Definition east_north : Store :=
  {| points := {[ 1%positive := point_at 0 0 2 {[ 1%positive ]};
                  2%positive := point_at 1 0 3 {[ 2%positive; 3%positive ]};
                  3%positive := point_at 1 1 2 {[ 4%positive ]} ]};
     edges := {[ 1%positive := half_edge (0 - 0) (1 - 0) (Some 2%positive) 2 1 None;
                 2%positive := half_edge (0 - 0) (0 - 1) (Some 1%positive) 1 0 None;
                 3%positive := half_edge (1 - 0) (1 - 1) (Some 3%positive) 4 1 None;
                 4%positive := half_edge (0 - 1) (1 - 1) (Some 2%positive) 3 0 None ]};
     triangles := ∅; removed_log := [];
     history := [] |}.

(** Two points with the same coordinates. *)
Definition coincident_points : Store :=
  {| points := {[ 1%positive := point_at 0 0 1 ∅;
                  2%positive := point_at 0 0 1 ∅ ]};
     edges := ∅; triangles := ∅; removed_log := [];
     history := [] |}.

(** [coincident_points] after [p2tr_edge_new] between its two points. *)
Definition coincident_edge : Store :=
  {| points := {[ 1%positive := point_at 0 0 2 {[ 1%positive ]};
                  2%positive := point_at 0 0 2 {[ 2%positive ]} ]};
     edges := {[ 1%positive := half_edge (0 - 0) (0 - 0) (Some 2%positive) 2 1 None;
                 2%positive := half_edge (0 - 0) (0 - 0) (Some 1%positive) 1 0 None ]};
     triangles := ∅; removed_log := [];
     history := [] |}.

(** An edge from (0,0) to (2,0). *)
Definition diameter_store : Store :=
  {| points := {[ 1%positive := point_at 0 0 2 {[ 1%positive ]};
                  2%positive := point_at 2 0 2 {[ 2%positive ]} ]};
     edges := {[ 1%positive := half_edge (0 - 0) (2 - 0) (Some 2%positive) 2 1 None;
                 2%positive := half_edge (0 - 0) (0 - 2) (Some 1%positive) 1 0 None ]};
     triangles := ∅; removed_log := [];
     history := [] |}.

(** The triangle (0,0), (1,0), (1,1): three edge pairs (1,2), (3,4), (5,6)
    and a triangle bound to the half-edges 1, 3 and 5. *)
Definition triangle_store : Store :=
  {| points := {[ 1%positive := point_at 0 0 3 {[ 1%positive; 6%positive ]};
                  2%positive := point_at 1 0 3 {[ 2%positive; 3%positive ]};
                  3%positive := point_at 1 1 3 {[ 4%positive; 5%positive ]} ]};
     edges := {[ 1%positive := half_edge (0 - 0) (1 - 0) (Some 2%positive) 2 1 (Some 1%positive);
                 2%positive := half_edge (0 - 0) (0 - 1) (Some 1%positive) 1 0 None;
                 3%positive := half_edge (1 - 0) (1 - 1) (Some 3%positive) 4 1 (Some 1%positive);
                 4%positive := half_edge (0 - 1) (1 - 1) (Some 2%positive) 3 0 None;
                 5%positive := half_edge (0 - 1) (0 - 1) (Some 1%positive) 6 1 (Some 1%positive);
                 6%positive := half_edge (1 - 0) (1 - 0) (Some 3%positive) 5 0 None ]};
     triangles := {[ 1%positive := {| tri_edges := (1%positive, 3%positive, 5%positive) |} ]};
     removed_log := [];
     history := [] |}.

(** [east_edge] after [p2tr_edge_remove] on its forward edge: both end
    references are cleared, and the mesh has heard of both directions, each
    time with the objects as they are now. *)
Definition removed_pair_heap : Heap :=
  {| heap_points := {[ 1%positive := point_at 0 0 1 ∅;
                       2%positive := point_at 1 0 1 ∅;
                       3%positive := point_at 1 1 1 ∅ ]};
     heap_edges := {[ 1%positive := half_edge (0 - 0) (1 - 0) None 2 1 None;
                      2%positive := half_edge (0 - 0) (0 - 1) None 1 0 None ]};
     heap_triangles := ∅ |}.

Definition removed_pair : Store :=
  {| points := heap_points removed_pair_heap;
     edges := heap_edges removed_pair_heap;
     triangles := ∅;
     removed_log := [(1%positive, 1%positive); (1%positive, 2%positive)];
     history := [(call_on_edge_removed 1%positive 1%positive, removed_pair_heap);
                 (call_on_edge_removed 1%positive 2%positive, removed_pair_heap)] |}.

(** The same with the last reference on the forward edge given back before
    the removal, and then with the forward edge released: the mirror is
    still there. *)
Definition unreferenced_pair_heap : Heap :=
  {| heap_points := points removed_pair;
     heap_edges := {[ 1%positive := half_edge (0 - 0) (1 - 0) None 2 0 None;
                      2%positive := half_edge (0 - 0) (0 - 1) None 1 0 None ]};
     heap_triangles := ∅ |}.

Definition unreferenced_pair : Store :=
  {| points := points removed_pair;
     edges := heap_edges unreferenced_pair_heap;
     triangles := ∅; removed_log := removed_log removed_pair;
     history := [(call_on_edge_removed 1%positive 1%positive, unreferenced_pair_heap);
                 (call_on_edge_removed 1%positive 2%positive, unreferenced_pair_heap)] |}.

Definition mirror_left_behind : Store :=
  {| points := points removed_pair;
     edges := {[ 2%positive := half_edge (0 - 0) (0 - 1) None 1 0 None ]};
     triangles := ∅; removed_log := removed_log removed_pair;
     history := history unreferenced_pair |}.

(** * bin/main.c: [read_points_file] *)

Module Main.

(** A [gfloat] value. The reader only stores and copies them. *)
Definition gfloat : Type := spec_float.

Definition Color3f : Type := gfloat * gfloat * gfloat.
Definition Point2f : Type := gfloat * gfloat.

(** The literal [0] of the initialisers [{ 0, 0, 0 }] and [{ 0, 0 }]. *)
Definition zero : gfloat := S754_zero false.

(** The input as [fscanf] meets it: the characters ['@'] and ['#'], numbers
    that [%f] converts, and anything else. White space, which the formats
    skip, is not represented. *)
Inductive token : Type :=
  | At
  | Hash
  | Num (v : gfloat)
  | Other.

(** An open stream: what is left to read, and the end-of-file indicator
    that [feof] tests. *)
Record FILE : Type := { rest : list token; at_eof : bool }.

Definition EOF : Z := -1.

Definition is_at (t : token) : bool :=
  match t with At => true | _ => false end.

Definition is_hash (t : token) : bool :=
  match t with Hash => true | _ => false end.

(** At most [n] conversions [%f] in a row. *)
Fixpoint scan_floats (n : nat) (ts : list token) : list gfloat * list token :=
  match n, ts with
  | S n', Num v :: ts' =>
      let '(vs, r) := scan_floats n' ts' in (v :: vs, r)
  | _, _ => ([], ts)
  end.

(** [fscanf (f, "<mark> %f ... %f ", ...)] with [n] conversions (libc). The
    result is the number of values converted, or [EOF] when the input ends
    before the first conversion; the indicator is set once the end of the
    input was reached. *)
Definition fscanf (mark : token → bool) (n : nat) (f : FILE)
    : Z * list gfloat * FILE :=
  match rest f with
  | [] => (EOF, [], {| rest := []; at_eof := true |})
  | t :: ts =>
      if mark t then
        let '(vs, r) := scan_floats n ts in
        match r with
        | [] => (match vs with [] => EOF | _ => Z.of_nat (length vs) end,
                 vs, {| rest := []; at_eof := true |})
        | _ => (Z.of_nat (length vs), vs, {| rest := r; at_eof := at_eof f |})
        end
      else (0, [], f)
  end.

(** The converted values are stored through the pointer arguments in
    order; a buffer entry without a converted value keeps what it held. *)
Definition stored (vs : list gfloat) (i : nat) (old : gfloat) : gfloat :=
  nth i vs old.

(** The variables of [read_points_file] that live across iterations. The
    arrays are [None] when the caller passed NULL. *)
Record reader : Type := {
  f : FILE;
  points : option (list (gfloat * gfloat));
  colors : option (list Color3f);
  countPts : Z;
  countCls : Z
}.

Inductive iteration : Type :=
  | Continue (r : reader)
  | Break (r : reader)
  | Abort (msg : string).

(** [g_array_append_val (a, v)] copies one element of the array's element
    size from the address of [v]. The array holds [Color3f] elements, three
    floats; for the two-float buffer [ptc] the copy takes [ptc[0]],
    [ptc[1]] and the float-sized word [beyond] that follows [ptc] in the
    frame, which the source does not determine. *)
Definition g_array_append_val_Point2f (a : list Color3f) (v : Point2f)
    (beyond : gfloat) : list Color3f :=
  a ++ [(fst v, snd v, beyond)].

(** The body of the [while] loop, lines 104-152. *)
Definition read_points_iteration (beyond : gfloat) (r : reader) : iteration :=
  let col : Color3f := (zero, zero, zero) in
  let ptc : Point2f := (zero, zero) in
  let '(readSize, vs, f1) := fscanf is_at 2 (f r) in
  let ptc : Point2f := (stored vs 0 (fst ptc), stored vs 1 (snd ptc)) in
  if (0 <? readSize) && negb (readSize =? 2) then
    Abort "Error! %d is an unexpected number of floats after point '@' declaration!"
  else
    let foundPt := 0 <? readSize in
    let points' :=
      if foundPt then (λ a, a ++ [(fst ptc, snd ptc)]) <$> points r
      else points r in
    let countPts' :=
      if foundPt && bool_decide (is_Some (points r)) then countPts r + 1
      else countPts r in
    let '(readSize, vs, f2) := fscanf is_hash 3 f1 in
    let col : Color3f :=
      (stored vs 0 (fst (fst col)), stored vs 1 (snd (fst col)),
       stored vs 2 (snd col)) in
    if (0 <? readSize) && negb (readSize =? 1) && negb (readSize =? 3) then
      Abort "Error! %d is an unexpected number of floats after color '#' declaration!"
    else
      let foundCol := 0 <? readSize in
      let col : Color3f :=
        if foundCol && (readSize =? 1)
        then (fst (fst col), fst (fst col), fst (fst col)) else col in
      let colors' :=
        if foundCol
        then (λ a, g_array_append_val_Point2f a ptc beyond) <$> colors r
        else colors r in
      let countCls' :=
        if foundCol && bool_decide (is_Some (colors r)) then countCls r + 1
        else countCls r in
      let r' := {| f := f2; points := points'; colors := colors';
                   countPts := countPts'; countCls := countCls' |} in
      if negb foundCol && negb foundPt then Break r' else Continue r'.

(** [while (! feof (f)) { ... }]. The [i]-th iteration finds [frame i]
    behind its buffer [ptc]. [None]: the fuel did not suffice. *)
Fixpoint read_points_loop (fuel : nat) (frame : nat → gfloat) (i : nat)
    (r : reader) : option (string + reader) :=
  match fuel with
  | O => None
  | S fuel' =>
      if at_eof (f r) then Some (inr r)
      else
        match read_points_iteration (frame i) r with
        | Continue r' => read_points_loop fuel' frame (S i) r'
        | Break r' => Some (inr r')
        | Abort msg => Some (inl msg)
        end
  end.

(** [read_points_file] on a file that [fopen] could open, with contents
    [input]; [want_points] and [want_colors] tell whether the caller passed
    the output arguments. *)
Definition read_points_file (input : list token) (want_points want_colors : bool)
    (frame : nat → gfloat) : option (string + reader) :=
  read_points_loop (S (length input)) frame 0
    {| f := {| rest := input; at_eof := false |};
       points := if want_points then Some [] else None;
       colors := if want_colors then Some [] else None;
       countPts := 0; countCls := 0 |}.

(** Sample values and a sample file: a point line followed by an RGB colour
    line, then a colour line on its own. *)
Definition f1_5 : gfloat := S754_finite false 3 (-1).
Definition f2_0 : gfloat := S754_finite false 1 1.
Definition f0_25 : gfloat := S754_finite false 1 (-2).
Definition f0_5 : gfloat := S754_finite false 1 (-1).
Definition f0_75 : gfloat := S754_finite false 3 (-2).

Definition sample_input : list token :=
  [At; Num f1_5; Num f2_0; Hash; Num f0_25; Num f0_5; Num f0_75;
   Hash; Num f0_5].


(** [test_point_to_color], lines 183-191. The point's address is taken as
    a [gulong] (64 bits); a [guchar] keeps the low eight bits of what is
    assigned to it; the three bytes, combined with [^] as [int], are
    converted to [float] and divided by [255.0f] in single precision. *)
Definition float_of_int (n : Z) : gfloat := binary_normalize 24 128 n 0 false.

Definition float_div : gfloat → gfloat → gfloat := SFdiv 24 128.

Definition guchar_of (n : Z) : Z := n mod 256.

Definition test_point_to_color (point : Z) : gfloat * gfloat * gfloat :=
  let value := point mod 2 ^ 64 in
  let b1 := guchar_of (Z.land value 0xff) in
  let b2 := guchar_of (Z.shiftr (Z.land value 0xff00) 2) in
  let b3 := guchar_of (Z.shiftr (Z.land value 0xff0000) 4) in
  (float_div (float_of_int b1) (float_of_int 255),
   float_div (float_of_int (Z.lxor b1 b2)) (float_of_int 255),
   float_div (float_of_int (Z.lxor (Z.lxor b1 b2) b3)) (float_of_int 255)).

(** The files the reader is written for: a point line ['@' x y], optionally
    followed by a colour line with one number (gray) or three (RGB). *)
Inductive colour : Type :=
  | Gray (g : gfloat)
  | RGB (r g b : gfloat).

Definition entry : Type := gfloat * gfloat * option colour.

Definition tokens_of_colour (co : colour) : list token :=
  match co with
  | Gray g => [Hash; Num g]
  | RGB r g b => [Hash; Num r; Num g; Num b]
  end.

Definition tokens_of_entry (en : entry) : list token :=
  let '(px, py, co) := en in
  At :: Num px :: Num py :: from_option tokens_of_colour [] co.

(** The colours array the reader builds for a list of entries read from
    iteration [i] on: one element per coloured entry, holding the entry's
    point and the word behind the buffer in that iteration. *)
Fixpoint colours_read (frame : nat → gfloat) (i : nat) (es : list entry)
    : list Color3f :=
  match es with
  | [] => []
  | (px, py, co) :: es' =>
      match co with
      | Some _ => (px, py, frame i) :: colours_read frame (S i) es'
      | None => colours_read frame (S i) es'
      end
  end.

Definition sample_entries : list entry :=
  [(f1_5, f2_0, Some (RGB f0_25 f0_5 f0_75)); (f0_5, f0_25, None);
   (f2_0, f1_5, Some (Gray f0_5))].

Definition coordinates (es : list entry) : list Point2f :=
  map (λ en : entry, (fst (fst en), snd (fst en))) es.

(** What may follow an entry: the end of the input, the next point line, or
    something that is neither a mark nor a number. *)
Definition starts_line (ts : list token) : bool :=
  match ts with
  | [] | At :: _ | Other :: _ => true
  | _ => false
  end.

(** The variables of the reader after the entries [es] have been read from
    iteration [i] on, with [tail] left in the stream. *)
Definition after_entries (frame : nat → gfloat) (i : nat) (es : list entry)
    (tail : list token) (r : reader) : reader :=
  {| f := {| rest := tail;
             at_eof := match es, tail with
                       | _ :: _, [] => true
                       | _, _ => at_eof (f r)
                       end |};
     points := (λ a, a ++ coordinates es) <$> points r;
     colors := (λ a, a ++ colours_read frame i es) <$> colors r;
     countPts := match points r with
                 | Some _ => countPts r + Z.of_nat (length es)
                 | None => countPts r
                 end;
     countCls := match colors r with
                 | Some _ => countCls r + Z.of_nat (length (colours_read frame i es))
                 | None => countCls r
                 end |}.

(** The two counters agree with the arrays: the number of elements of an
    array that is kept, and 0 for one that is not. *)
Definition counted (r : reader) : Prop :=
  countPts r = from_option (λ a, Z.of_nat (length a)) 0 (points r) ∧
  countCls r = from_option (λ a, Z.of_nat (length a)) 0 (colors r).

(** A colour channel between 0 and 1, ends included. *)
Definition unit_interval (v : gfloat) : bool :=
  SFleb zero v && SFleb v (float_of_int 1).

End Main.
(** ** More concrete stores *)

Definition unowned_point_at (px py : R) (n : Z) (out : gset addr) : P2trPoint :=
  {| c := {| x := px; y := py |}; outgoing_edges := out;
     pt_refcount := n; mesh := None |}.

(** An edge from (0,0) to (1,0) between two points that belong to no mesh. *)
Definition unowned_edge : Store :=
  {| points := {[ 1%positive := unowned_point_at 0 0 2 {[ 1%positive ]};
                  2%positive := unowned_point_at 1 0 2 {[ 2%positive ]} ]};
     edges := {[ 1%positive := half_edge (0 - 0) (1 - 0) (Some 2%positive) 2 1 None;
                 2%positive := half_edge (0 - 0) (0 - 1) (Some 1%positive) 1 0 None ]};
     triangles := ∅; removed_log := [];
     history := [] |}.


(** [east_edge] with a second reference held on the forward edge. *)
Definition shared_edge : Store :=
  {| points := points east_edge;
     edges := {[ 1%positive := half_edge (0 - 0) (1 - 0) (Some 2%positive) 2 2 None;
                 2%positive := half_edge (0 - 0) (0 - 1) (Some 1%positive) 1 0 None ]};
     triangles := ∅; removed_log := [];
     history := [] |}.
(** * Properties *)

(** ** Running the store monad *)

Lemma bind_run {A B : Type} (m : M A) (f : A → M B) s a s' :
  m s = Ret (a, s') → bind m f s = f a s'.
Proof. intros Hm. unfold bind. by rewrite Hm. Qed.

Lemma bind_undefined {A B : Type} (m : M A) (f : A → M B) s :
  m s = Undefined → bind m f s = Undefined.
Proof. intros Hm. unfold bind. by rewrite Hm. Qed.

(** One statement of a [bind] chain: run it with the given proof of its
    outcome and go on with the rest. *)
Tactic Notation "step" "with" tactic3(t) := (erewrite bind_run; [|t]).

Lemma get_edge_run s e E : edges s !! e = Some E → get_edge e s = Ret (E, s).
Proof. intros He. unfold get_edge. by rewrite He. Qed.

Lemma get_point_run s p P :
  points s !! p = Some P → get_point (Some p) s = Ret (P, s).
Proof. intros Hp. unfold get_point. simpl. by rewrite Hp. Qed.

Lemma get_triangle_run s t T :
  triangles s !! t = Some T → get_triangle t s = Ret (T, s).
Proof. intros Ht. unfold get_triangle. by rewrite Ht. Qed.

Lemma P2TR_EDGE_START_run s e E Mr :
  edges s !! e = Some E → edges s !! mirror E = Some Mr →
  P2TR_EDGE_START e s = Ret (end_ Mr, s).
Proof.
  intros He Hm. unfold P2TR_EDGE_START.
  rewrite (bind_run _ _ _ _ _ (get_edge_run _ _ _ He)).
  by rewrite (bind_run _ _ _ _ _ (get_edge_run _ _ _ Hm)).
Qed.

(** ** The direction angle *)

Lemma atan2_range dy dx : (- PI < atan2 dy dx <= PI)%R.
Proof.
  pose proof PI_RGT_0 as Hpi.
  pose proof (atan_bound (dy / dx)) as [Hlo Hhi].
  unfold atan2.
  destruct (Rlt_dec 0 dx) as [Hx|Hx]; [lra|].
  destruct (Rlt_dec dx 0) as [Hx'|Hx'].
  - destruct (Rle_dec 0 dy) as [Hy|Hy].
    + assert (atan (dy / dx) <= 0)%R; [|lra].
      destruct Hy as [Hy|<-].
      * left. rewrite <- atan_0. apply atan_increasing.
        apply Rmult_pos_neg; [done|]. by apply Rinv_lt_0_compat.
      * right. unfold Rdiv. by rewrite Rmult_0_l, atan_0.
    + assert (0 < atan (dy / dx))%R; [|lra].
      rewrite <- atan_0. apply atan_increasing.
      apply Rmult_neg_neg; [lra|]. by apply Rinv_lt_0_compat.
  - destruct (Rlt_dec 0 dy); [lra|]. destruct (Rlt_dec dy 0); lra.
Qed.

Lemma atan2_opposite dy dx :
  dx ≠ 0%R ∨ dy ≠ 0%R →
  atan2 (- dy) (- dx) = (atan2 dy dx + PI)%R ∨
  atan2 (- dy) (- dx) = (atan2 dy dx - PI)%R.
Proof.
  intros Hnz. unfold atan2.
  assert (dx ≠ 0%R → (- dy / - dx)%R = (dy / dx)%R) as Hq
    by (intros; field; done).
  repeat match goal with
         | |- context [Rlt_dec ?a ?b] => destruct (Rlt_dec a b)
         | |- context [Rle_dec ?a ?b] => destruct (Rle_dec a b)
         end;
    try lra; try (rewrite Hq by lra; lra).
Qed.

Lemma atan2_east : atan2 (0 - 0) (1 - 0) = 0%R.
Proof.
  unfold atan2. destruct (Rlt_dec 0 (1 - 0)); [|lra].
  replace ((0 - 0) / (1 - 0))%R with 0%R by field. apply atan_0.
Qed.

Lemma atan2_north : atan2 (1 - 0) (1 - 1) = (PI / 2)%R.
Proof.
  unfold atan2.
  destruct (Rlt_dec 0 (1 - 1)); [lra|]. destruct (Rlt_dec (1 - 1) 0); [lra|].
  destruct (Rlt_dec 0 (1 - 0)); [done|lra].
Qed.

Lemma atan2_null : atan2 (0 - 0) (0 - 0) = 0%R.
Proof.
  unfold atan2.
  destruct (Rlt_dec 0 (0 - 0)); [lra|]. destruct (Rlt_dec (0 - 0) 0); [lra|].
  destruct (Rlt_dec 0 (0 - 0)); [lra|]. destruct (Rlt_dec (0 - 0) 0); [lra|done].
Qed.

(** ** [p2tr_edge_angle_between] *)

Lemma p2tr_edge_angle_between_run s e1 e2 E1 E2 M2 :
  edges s !! e1 = Some E1 → edges s !! e2 = Some E2 →
  edges s !! mirror E2 = Some M2 → end_ E1 = end_ M2 →
  p2tr_edge_angle_between e1 e2 s =
    Ret (let w := (PI - angle E1 + angle E2)%R in
         if Rgt_dec w (2 * PI) then (w - 2 * PI)%R else w, s).
Proof.
  intros H1 H2 HM Hshared. unfold p2tr_edge_angle_between.
  rewrite (bind_run _ _ _ _ _ (get_edge_run _ _ _ H1)).
  rewrite (bind_run _ _ _ _ _ (P2TR_EDGE_START_run _ _ _ _ H2 HM)).
  destruct (decide (end_ E1 ≠ end_ M2)) as [Hne|_]; [done|].
  unfold bind at 1. unfold ret at 1.
  by rewrite (bind_run _ _ _ _ _ (get_edge_run _ _ _ H2)).
Qed.

(** With both direction angles in (-PI, PI] the value lies in (-PI, 2 PI]:
    one full turn is taken off only above 2 PI. *)
Lemma p2tr_edge_angle_between_range s e1 e2 E1 E2 M2 w s' :
  edges s !! e1 = Some E1 → edges s !! e2 = Some E2 →
  edges s !! mirror E2 = Some M2 → end_ E1 = end_ M2 →
  (- PI < angle E1 <= PI)%R → (- PI < angle E2 <= PI)%R →
  p2tr_edge_angle_between e1 e2 s = Ret (w, s') →
  (- PI < w <= 2 * PI)%R.
Proof.
  intros H1 H2 HM Hshared Ha1 Ha2.
  rewrite (p2tr_edge_angle_between_run _ _ _ _ _ _ H1 H2 HM Hshared).
  intros [= <- _]. cbv zeta.
  destruct (Rgt_dec _ _) as [Hgt|Hle]; unfold Rgt in *; lra.
Qed.

(** C7. When the end point of [e1] is not the start point of [e2],
    [p2tr_edge_angle_between] raises the programmatic exception: processing
    is aborted and no angle is returned. *)
Theorem p2tr_edge_angle_between_not_consecutive s e1 e2 E1 E2 M2 :
  edges s !! e1 = Some E1 → edges s !! e2 = Some E2 →
  edges s !! mirror E2 = Some M2 → end_ E1 ≠ end_ M2 →
  p2tr_edge_angle_between e1 e2 s =
    Fatal "The end-point of the first edge isn't the end-point of the second edge!".
Proof.
  intros H1 H2 HM Hne. unfold p2tr_edge_angle_between.
  rewrite (bind_run _ _ _ _ _ (get_edge_run _ _ _ H1)).
  rewrite (bind_run _ _ _ _ _ (P2TR_EDGE_START_run _ _ _ _ H2 HM)).
  by destruct (decide (end_ E1 ≠ end_ M2)).
Qed.

Lemma p2tr_edge_angle_between_not_consecutive_witness :
  p2tr_edge_angle_between 3%positive 1%positive east_north =
    Fatal "The end-point of the first edge isn't the end-point of the second edge!".
Proof.
  apply (p2tr_edge_angle_between_not_consecutive east_north 3%positive 1%positive
           (half_edge (1 - 0) (1 - 1) (Some 3%positive) 4 1 None)
           (half_edge (0 - 0) (1 - 0) (Some 2%positive) 2 1 None)
           (half_edge (0 - 0) (0 - 1) (Some 1%positive) 1 0 None)).
  - reflexivity.
  - reflexivity.
  - reflexivity.
  - discriminate.
Defined.

Lemma three_points_east :
  p2tr_edge_new (Some 1%positive) (Some 2%positive) false three_points
  = Ret (1%positive, east_edge).
Proof. reflexivity. Qed.

Lemma east_edge_north :
  p2tr_edge_new (Some 2%positive) (Some 3%positive) false east_edge
  = Ret (3%positive, east_north).
Proof. reflexivity. Qed.

Lemma wf_triangle_store : wf triangle_store.
Proof. by apply (bool_decide_unpack _); vm_compute. Qed.

Lemma wf_east_north : wf east_north.
Proof. by apply (bool_decide_unpack _); vm_compute. Qed.

(** C1. Two consecutive edges, (0,0) to (1,0) and (1,0) to (1,1), built
    with [p2tr_edge_new]: [p2tr_edge_angle_between] returns 3 PI / 2. The
    value is above PI, so it is neither - PI / 2 nor within (-PI, PI]. *)
Theorem p2tr_edge_angle_between_right_turn :
  p2tr_edge_new (Some 1%positive) (Some 2%positive) false three_points
    = Ret (1%positive, east_edge) ∧
  p2tr_edge_new (Some 2%positive) (Some 3%positive) false east_edge
    = Ret (3%positive, east_north) ∧
  ∃ w : R,
    p2tr_edge_angle_between 1%positive 3%positive east_north = Ret (w, east_north) ∧
    w = (3 * PI / 2)%R ∧ w ≠ (- PI / 2)%R ∧ ¬ (w <= PI)%R.
Proof.
  split; [reflexivity|]. split; [reflexivity|].
  pose proof PI_RGT_0 as Hpi.
  eexists. split.
  - by apply (p2tr_edge_angle_between_run east_north 1%positive 3%positive
                (half_edge (0 - 0) (1 - 0) (Some 2%positive) 2 1 None)
                (half_edge (1 - 0) (1 - 1) (Some 3%positive) 4 1 None)
                (half_edge (0 - 1) (1 - 1) (Some 2%positive) 3 0 None)).
  - cbn [angle half_edge]. rewrite atan2_east, atan2_north. cbv zeta.
    destruct (Rgt_dec _ _) as [Hgt|_]; unfold Rgt in *; [lra|].
    repeat split; lra.
Qed.

(** ** The collaborators, step by step *)

Lemma p2tr_point_ref_run s p P :
  points s !! p = Some P →
  p2tr_point_ref (Some p) s
  = Ret (tt, with_points <[p := set_pt_refcount (pt_refcount P + 1) P]> s).
Proof.
  intros Hp. unfold p2tr_point_ref.
  by rewrite (bind_run _ _ _ _ _ (get_point_run _ _ _ Hp)).
Qed.

Lemma _p2tr_point_insert_edge_run s p e P :
  points s !! p = Some P →
  _p2tr_point_insert_edge (Some p) e s
  = Ret (tt, with_points <[p := set_outgoing_edges ({[e]} ∪ outgoing_edges P) P]> s).
Proof.
  intros Hp. unfold _p2tr_point_insert_edge.
  by rewrite (bind_run _ _ _ _ _ (get_point_run _ _ _ Hp)).
Qed.

Lemma _p2tr_point_remove_edge_run s p e P :
  points s !! p = Some P →
  _p2tr_point_remove_edge (Some p) e s
  = Ret (tt, with_points <[p := set_outgoing_edges (outgoing_edges P ∖ {[e]}) P]> s).
Proof.
  intros Hp. unfold _p2tr_point_remove_edge.
  by rewrite (bind_run _ _ _ _ _ (get_point_run _ _ _ Hp)).
Qed.

Lemma p2tr_point_unref_run s p P :
  points s !! p = Some P →
  p2tr_point_unref (Some p) s
  = Ret (tt, with_points
               (if pt_refcount P - 1 =? 0 then delete p
                else <[p := set_pt_refcount (pt_refcount P - 1) P]>) s).
Proof.
  intros Hp. unfold p2tr_point_unref.
  rewrite (bind_run _ _ _ _ _ (get_point_run _ _ _ Hp)).
  by destruct (pt_refcount P - 1 =? 0).
Qed.

Lemma p2tr_edge_init_run s self a b k m Pa Pb E0 :
  points s !! a = Some Pa → points s !! b = Some Pb →
  edges s !! self = Some E0 →
  p2tr_edge_init self (Some a) (Some b) k m s
  = Ret (tt, with_edges
               <[self := {| angle := atan2 (y (c Pb) - y (c Pa)) (x (c Pb) - x (c Pa));
                            constrained := k; delaunay := false; end_ := Some b;
                            mirror := m; refcount := 0; tri := None |}]> s).
Proof.
  intros Ha Hb He. unfold p2tr_edge_init.
  rewrite (bind_run _ _ _ _ _ (get_point_run _ _ _ Hb)).
  rewrite (bind_run _ _ _ _ _ (get_point_run _ _ _ Ha)).
  by rewrite (bind_run _ _ _ _ _ (get_edge_run _ _ _ He)).
Qed.

(** ** [p2tr_edge_new] *)

Lemma fresh_edges_distinct (m : gmap addr P2trEdge) E :
  fresh (dom m) ≠ fresh (dom (<[fresh (dom m) := E]> m)).
Proof.
  intros Heq.
  pose proof (is_fresh (dom (<[fresh (dom m) := E]> m))) as Hf.
  rewrite <- Heq in Hf. apply Hf, elem_of_dom. rewrite lookup_insert_eq. eauto.
Qed.

Lemma point_eq (P Q : P2trPoint) :
  c P = c Q → outgoing_edges P = outgoing_edges Q →
  pt_refcount P = pt_refcount Q → mesh P = mesh Q → P = Q.
Proof. destruct P, Q. simpl. by intros -> -> -> ->. Qed.

Lemma p2tr_edge_new_run s a b k Pa Pb :
  points s !! a = Some Pa → points s !! b = Some Pb →
  let e := fresh (dom (edges s)) in
  let m := fresh (dom (<[e := uninitialised_edge]> (edges s))) in
  let E := {| angle := atan2 (y (c Pb) - y (c Pa)) (x (c Pb) - x (c Pa));
              constrained := k; delaunay := false; end_ := Some b;
              mirror := m; refcount := 1; tri := None |} in
  let Mr := {| angle := atan2 (y (c Pa) - y (c Pb)) (x (c Pa) - x (c Pb));
               constrained := k; delaunay := false; end_ := Some a;
               mirror := e; refcount := 0; tri := None |} in
  ∃ s', p2tr_edge_new (Some a) (Some b) k s = Ret (e, s') ∧
    e ≠ m ∧ edges s !! e = None ∧ edges s !! m = None ∧
    edges s' = <[e := E]> (<[m := Mr]> (edges s)) ∧
    (∀ p, points s' !! p = with_new_edge a b e m p <$> points s !! p) ∧
    triangles s' = triangles s ∧ removed_log s' = removed_log s.
Proof.
  intros Ha Hb e m E Mr.
  assert (e ≠ m) as Hem by apply fresh_edges_distinct.
  assert (edges s !! e = None) as Hfe
    by (apply not_elem_of_dom, is_fresh).
  assert (edges s !! m = None) as Hfm.
  { pose proof (is_fresh (dom (<[e := uninitialised_edge]> (edges s)))) as Hf.
    fold m in Hf. rewrite dom_insert_L in Hf. apply not_elem_of_dom. set_solver. }
  assert (∀ E0 E1 E2 E3 : P2trEdge,
            <[e := E3]> (<[m := E2]> (<[e := E1]>
              (<[m := uninitialised_edge]> (<[e := E0]> (edges s)))))
            = <[e := E3]> (<[m := E2]> (edges s))) as Hedges.
  { intros. apply map_eq. intros i. rewrite !lookup_insert.
    repeat case_decide; done. }
  unfold p2tr_edge_new.
  rewrite (bind_run g_slice_new _ s e (with_edges <[e := uninitialised_edge]> s))
    by reflexivity.
  erewrite (bind_run g_slice_new) by reflexivity. fold m.
  step with (eapply p2tr_edge_init_run; [exact Ha|exact Hb|]; simpl;
             rewrite lookup_insert_ne by done; apply lookup_insert_eq).
  step with (eapply p2tr_edge_init_run; [exact Hb|exact Ha|]; simpl;
             rewrite lookup_insert_ne by done; apply lookup_insert_eq).
  step with (eapply p2tr_point_ref_run; exact Ha).
  destruct (decide (a = b)) as [->|Hab].
  - assert (Pb = Pa) as -> by congruence.
    step with (eapply p2tr_point_ref_run; simpl; apply lookup_insert_eq).
    step with (eapply _p2tr_point_insert_edge_run; simpl;
               apply lookup_insert_eq).
    step with (eapply _p2tr_point_insert_edge_run; simpl;
               apply lookup_insert_eq).
    step with (eapply get_edge_run; simpl; rewrite lookup_insert_ne by done;
               apply lookup_insert_eq).
    eexists. split; [reflexivity|]. simpl. fold m.
    split; [done|]. split; [done|]. split; [done|].
    split; [apply Hedges|]. split; [|done].
    intros p. rewrite !lookup_insert. unfold with_new_edge.
    destruct (decide (b = p)) as [<-|Hp].
    + rewrite Ha. simpl. rewrite !decide_True by done. f_equal.
      apply point_eq; simpl; [done|set_solver|lia|done].
    + rewrite !decide_False by done. destruct (points s !! p) as [P|]; [|done].
      simpl. f_equal. apply point_eq; simpl; [done|set_solver|lia|done].
  - step with (eapply p2tr_point_ref_run; simpl;
               rewrite lookup_insert_ne by done; exact Hb).
    step with (eapply _p2tr_point_insert_edge_run; simpl;
               rewrite lookup_insert_ne by done; apply lookup_insert_eq).
    step with (eapply _p2tr_point_insert_edge_run; simpl;
               rewrite lookup_insert_ne by done; apply lookup_insert_eq).
    step with (eapply get_edge_run; simpl; rewrite lookup_insert_ne by done;
               apply lookup_insert_eq).
    eexists. split; [reflexivity|]. simpl. fold m.
    split; [done|]. split; [done|]. split; [done|].
    split; [apply Hedges|]. split; [|done].
    intros p. rewrite !lookup_insert. unfold with_new_edge.
    destruct (decide (b = p)) as [<-|Hpb]; [|destruct (decide (a = p)) as [<-|Hpa]].
    + rewrite Hb. simpl. f_equal. repeat case_decide; try done.
      apply point_eq; simpl; [done|set_solver|lia|done].
    + rewrite Ha. simpl. f_equal. repeat case_decide; try done.
      apply point_eq; simpl; [done|set_solver|lia|done].
    + destruct (points s !! p) as [P|]; [|done].
      simpl. f_equal. repeat case_decide; try done.
      apply point_eq; simpl; [done|set_solver|lia|done].
Qed.

Lemma opposite_angles_null : ¬ opposite_angles 0 0.
Proof.
  intros [k Hk]. pose proof PI_RGT_0 as Hpi.
  assert (IZR (1 + 2 * k) = 0%R) as Hz.
  { rewrite plus_IZR, mult_IZR. apply (Rmult_eq_reg_l PI); lra. }
  apply eq_IZR_R0 in Hz. lia.
Qed.

Lemma atan2_opposite_angles dy dx :
  dx ≠ 0%R ∨ dy ≠ 0%R → opposite_angles (atan2 dy dx) (atan2 (- dy) (- dx)).
Proof.
  intros Hnz. destruct (atan2_opposite dy dx Hnz) as [-> | ->].
  - exists 0. lra.
  - exists (-1). lra.
Qed.

(** C2, as the code has it. [p2tr_edge_new] on two allocated points returns
    a half-edge [e] whose mirror's mirror is [e], which ends at [b] while the
    mirror ends at [a], with reference count 1 against 0 for the mirror; when
    the two points differ in a coordinate, the two stored angles are
    normalised and differ by PI modulo a full turn. *)
Theorem p2tr_edge_new_pair s a b k Pa Pb :
  points s !! a = Some Pa → points s !! b = Some Pb →
  ∃ e s' E Mr,
    p2tr_edge_new (Some a) (Some b) k s = Ret (e, s') ∧
    edges s' !! e = Some E ∧ edges s' !! mirror E = Some Mr ∧
    mirror Mr = e ∧ end_ E = Some b ∧ end_ Mr = Some a ∧
    refcount E = 1 ∧ refcount Mr = 0 ∧
    (x (c Pa) ≠ x (c Pb) ∨ y (c Pa) ≠ y (c Pb) →
     opposite_angles (angle E) (angle Mr) ∧
     normalised_angle (angle E) ∧ normalised_angle (angle Mr)).
Proof.
  intros Ha Hb.
  destruct (p2tr_edge_new_run s a b k Pa Pb Ha Hb)
    as (s' & Hrun & Hne & _ & _ & Hedges & _).
  eexists _, s', _, _. split; [exact Hrun|].
  split; [by rewrite Hedges, lookup_insert_eq|].
  split; [by rewrite Hedges, lookup_insert_ne, lookup_insert_eq|].
  cbn [mirror end_ refcount angle].
  repeat (split; [reflexivity|]).
  intros Hc. split; [|split; apply atan2_range].
  replace (y (c Pa) - y (c Pb))%R with (- (y (c Pb) - y (c Pa)))%R by lra.
  replace (x (c Pa) - x (c Pb))%R with (- (x (c Pb) - x (c Pa)))%R by lra.
  apply atan2_opposite_angles. destruct Hc; [left|right]; lra.
Qed.

Lemma p2tr_edge_new_pair_witness :
  ∃ e s' E Mr,
    p2tr_edge_new (Some 1%positive) (Some 2%positive) false three_points = Ret (e, s') ∧
    edges s' !! e = Some E ∧ edges s' !! mirror E = Some Mr ∧
    mirror Mr = e ∧ end_ E = Some 2%positive ∧ end_ Mr = Some 1%positive ∧
    refcount E = 1 ∧ refcount Mr = 0 ∧
    (x (c (point_at 0 0 1 ∅)) ≠ x (c (point_at 1 0 1 ∅)) ∨
     y (c (point_at 0 0 1 ∅)) ≠ y (c (point_at 1 0 1 ∅)) →
     opposite_angles (angle E) (angle Mr) ∧
     normalised_angle (angle E) ∧ normalised_angle (angle Mr)).
Proof.
  apply (p2tr_edge_new_pair three_points 1%positive 2%positive false
           (point_at 0 0 1 ∅) (point_at 1 0 1 ∅)); reflexivity.
Defined.

(** C2, as stated, fails for two points with the same coordinates: both
    directions get the angle [atan2 (0, 0) = 0]. *)
Lemma p2tr_edge_new_coincident :
  ∃ E Mr,
    p2tr_edge_new (Some 1%positive) (Some 2%positive) false coincident_points
      = Ret (1%positive, coincident_edge) ∧
    edges coincident_edge !! 1%positive = Some E ∧
    edges coincident_edge !! mirror E = Some Mr ∧
    ¬ opposite_angles (angle E) (angle Mr).
Proof.
  exists (half_edge (0 - 0) (0 - 0) (Some 2%positive) 2 1 None),
         (half_edge (0 - 0) (0 - 0) (Some 1%positive) 1 0 None).
  split; [reflexivity|]. split; [reflexivity|]. split; [reflexivity|].
  cbn [angle half_edge]. rewrite atan2_null. apply opposite_angles_null.
Qed.

(** ** The diametral circle *)

Lemma sqrt_quarter d : (0 <= d)%R → sqrt (d / 4) = (sqrt d / 2)%R.
Proof.
  intros Hd. rewrite sqrt_div_alt by lra.
  replace 4%R with (2 * 2)%R by lra. by rewrite sqrt_square by lra.
Qed.

Lemma half_chord_norm (a b : P2trVector2) :
  p2tr_vector2_norm (p2tr_vector2_sub b (p2tr_vector2_center b a))
  = (sqrt (p2tr_math_length_sq2 b a) / 2)%R.
Proof.
  unfold p2tr_vector2_norm, p2tr_vector2_sub, p2tr_vector2_center,
    p2tr_math_length_sq2. cbn [x y].
  rewrite <- sqrt_quarter.
  - f_equal. field.
  - pose proof (Rle_0_sqr (x b - x a)) as Hx.
    pose proof (Rle_0_sqr (y b - y a)) as Hy. unfold Rsqr in *. lra.
Qed.

(** C8. For an installed half-edge from [a] to [b] the diametral circle is
    centred at the midpoint of the two end points, and its radius is half of
    what [p2tr_edge_get_length] returns, the Euclidean distance from [a] to
    [b]. *)
Theorem p2tr_edge_get_diametral_circle_spec s e E Mr a b Pa Pb :
  edges s !! e = Some E → end_ E = Some b →
  edges s !! mirror E = Some Mr → end_ Mr = Some a →
  points s !! a = Some Pa → points s !! b = Some Pb →
  ∃ len : R,
    p2tr_edge_get_length e s = Ret (len, s) ∧
    len = sqrt ((x (c Pb) - x (c Pa)) * (x (c Pb) - x (c Pa)) +
                (y (c Pb) - y (c Pa)) * (y (c Pb) - y (c Pa))) ∧
    p2tr_edge_get_diametral_circle e s
    = Ret ({| center := {| x := (x (c Pa) + x (c Pb)) / 2;
                           y := (y (c Pa) + y (c Pb)) / 2 |};
              radius := len / 2 |}, s).
Proof.
  intros He Hend Hm Hstart Ha Hb.
  exists (sqrt (p2tr_math_length_sq2 (c Pb) (c Pa))). split; [|split].
  - unfold p2tr_edge_get_length.
    rewrite (bind_run _ _ _ _ _ (get_edge_run _ _ _ He)), Hend.
    rewrite (bind_run _ _ _ _ _ (get_point_run _ _ _ Hb)).
    rewrite (bind_run _ _ _ _ _ (P2TR_EDGE_START_run _ _ _ _ He Hm)), Hstart.
    by rewrite (bind_run _ _ _ _ _ (get_point_run _ _ _ Ha)).
  - reflexivity.
  - unfold p2tr_edge_get_diametral_circle.
    rewrite (bind_run _ _ _ _ _ (get_edge_run _ _ _ He)), Hend.
    rewrite (bind_run _ _ _ _ _ (get_point_run _ _ _ Hb)).
    rewrite (bind_run _ _ _ _ _ (P2TR_EDGE_START_run _ _ _ _ He Hm)), Hstart.
    rewrite (bind_run _ _ _ _ _ (get_point_run _ _ _ Ha)).
    unfold ret. rewrite half_chord_norm. do 3 f_equal.
    unfold p2tr_vector2_center. f_equal; lra.
Qed.

Lemma p2tr_edge_get_diametral_circle_witness :
  p2tr_edge_get_diametral_circle 1%positive diameter_store
  = Ret ({| center := {| x := 1; y := 0 |}; radius := 1 |}, diameter_store).
Proof.
  destruct (p2tr_edge_get_diametral_circle_spec diameter_store 1%positive
              (half_edge (0 - 0) (2 - 0) (Some 2%positive) 2 1 None)
              (half_edge (0 - 0) (0 - 2) (Some 1%positive) 1 0 None)
              1%positive 2%positive (point_at 0 0 2 {[ 1%positive ]})
              (point_at 2 0 2 {[ 2%positive ]}))
    as (len & _ & Hlen & Hcircle); try reflexivity.
  rewrite Hcircle, Hlen. cbn [x y c point_at].
  replace ((2 - 0) * (2 - 0) + (0 - 0) * (0 - 0))%R with (2 * 2)%R by lra.
  rewrite sqrt_square by lra. do 3 f_equal; [f_equal|]; lra.
Defined.

(** ** [p2tr_edge_remove] *)

(** C6. On a half-edge that is already removed, [p2tr_edge_remove] completes
    and leaves the whole store as it was: the edges, the points with their
    incident sets and reference counts, the triangles and the notifications
    the meshes received. *)
Theorem p2tr_edge_remove_removed s e E :
  edges s !! e = Some E → end_ E = None →
  p2tr_edge_remove e s = Ret (tt, s).
Proof.
  intros He Hend. unfold p2tr_edge_remove.
  by rewrite (bind_run _ _ _ _ _ (get_edge_run _ _ _ He)), Hend.
Qed.

Lemma p2tr_edge_remove_removed_witness :
  p2tr_edge_remove 1%positive removed_pair = Ret (tt, removed_pair).
Proof.
  apply (p2tr_edge_remove_removed removed_pair 1%positive
           (half_edge (0 - 0) (1 - 0) None 2 1 None)); reflexivity.
Defined.

Lemma set_tri_idemp E : set_tri None (set_tri None E) = set_tri None E.
Proof. reflexivity. Qed.

Lemma set_tri_unbound E : tri E = None → set_tri None E = E.
Proof. destruct E. simpl. by intros ->. Qed.

Lemma clear_tri_run s e :
  is_Some (edges s !! e) →
  clear_tri e s = Ret (tt, with_edges (alter (set_tri None) e) s).
Proof.
  intros [E He]. unfold clear_tri.
  rewrite (bind_run _ _ _ _ _ (get_edge_run _ _ _ He)).
  unfold put_edge, with_edges. do 3 f_equal.
  apply map_eq. intros e'. rewrite lookup_insert, lookup_alter.
  case_decide; [by rewrite He|done].
Qed.

(** Triangle removal: the sides lose their binding, the triangle is
    released, and nothing else changes. *)
Lemma p2tr_triangle_remove_run s t T :
  triangles s !! t = Some T →
  Forall (λ e, is_Some (edges s !! e)) (triangle_sides T) →
  ∃ s', p2tr_triangle_remove t s = Ret (tt, s') ∧
    points s' = points s ∧ removed_log s' = removed_log s ∧
    triangles s' = delete t (triangles s) ∧
    history s' = history s ++ [(call_triangle_remove t, heap_of s)] ∧
    ∀ e', edges s' !! e' =
          (λ E, if decide (e' ∈ triangle_sides T) then set_tri None E else E)
            <$> edges s !! e'.
Proof.
  intros Ht Hlive. destruct T as [[[e0 e1] e2]].
  unfold triangle_sides in *. cbn [tri_edges] in *.
  apply Forall_cons in Hlive as [H0 Hlive].
  apply Forall_cons in Hlive as [H1 Hlive].
  apply Forall_cons in Hlive as [H2 _].
  unfold p2tr_triangle_remove.
  step with (reflexivity).
  step with (by apply get_triangle_run). cbn [tri_edges].
  step with (by apply clear_tri_run).
  step with (apply clear_tri_run; simpl; by apply lookup_alter_is_Some).
  step with (apply clear_tri_run; simpl; by do 2 apply lookup_alter_is_Some).
  eexists. split; [reflexivity|]. simpl. repeat (split; [reflexivity|]).
  intros e'. rewrite !lookup_alter.
  repeat case_decide; subst; try done;
    repeat match goal with
           | H : _ ∈ _ :: _ |- _ => apply elem_of_cons in H as [?|H]; subst
           | H : _ ∈ [] |- _ => by apply elem_of_nil in H
           | H : ¬ _ ∈ _ :: _ |- _ => apply not_elem_of_cons in H as [? H]
           end;
    try done.
  all: destruct (edges s !! e'); reflexivity.
Qed.

(** ** What a well-formed store provides *)

Lemma wf_mirror s e E :
  wf s → edges s !! e = Some E →
  mirror E ≠ e ∧
  ∃ Mr, edges s !! mirror E = Some Mr ∧ mirror Mr = e ∧
        (end_ E = None ↔ end_ Mr = None).
Proof.
  intros (Hm & _) He. specialize (Hm e E He). unfold mirror_ok in Hm.
  destruct Hm as [Hne Hm]. split; [done|].
  destruct (edges s !! mirror E) as [Mr|]; [|done]. by exists Mr.
Qed.

Lemma wf_end s e E p :
  wf s → edges s !! e = Some E → end_ E = Some p → is_Some (points s !! p).
Proof.
  intros (_ & Hend & _) He Hp. specialize (Hend e E He).
  unfold end_ok in Hend. by rewrite Hp in Hend.
Qed.

Lemma wf_bound s e E t :
  wf s → edges s !! e = Some E → tri E = Some t →
  ∃ T, triangles s !! t = Some T ∧ e ∈ triangle_sides T.
Proof.
  intros (_ & _ & Hb & _) He Ht. specialize (Hb e E He).
  unfold bound_ok in Hb. rewrite Ht in Hb.
  destruct (triangles s !! t) as [T|]; [|done]. by exists T.
Qed.

Lemma wf_sides s t T e :
  wf s → triangles s !! t = Some T → e ∈ triangle_sides T →
  ∃ E, edges s !! e = Some E ∧ tri E = Some t.
Proof.
  intros (_ & _ & _ & Hs & _) Ht He. specialize (Hs t T Ht).
  unfold sides_ok in Hs. rewrite Forall_forall in Hs. specialize (Hs e He).
  destruct (edges s !! e) as [E|]; [|done]. exists E. split; [done|].
  by injection Hs.
Qed.

Lemma wf_sides_live s t T :
  wf s → triangles s !! t = Some T →
  Forall (λ e, is_Some (edges s !! e)) (triangle_sides T).
Proof.
  intros Hwf Ht. apply Forall_forall. intros e He.
  destruct (wf_sides s t T e Hwf Ht He) as (E & -> & _). eauto.
Qed.

Lemma wf_outgoing s p P e :
  wf s → points s !! p = Some P → e ∈ outgoing_edges P →
  start_of s e = Some p.
Proof. intros (_ & _ & _ & _ & Ho & _) Hp He. by apply (Ho p P Hp). Qed.

Lemma wf_registered s e E Mr p :
  wf s → edges s !! e = Some E → edges s !! mirror E = Some Mr →
  end_ Mr = Some p →
  ∃ P, points s !! p = Some P ∧ e ∈ outgoing_edges P.
Proof.
  intros (_ & _ & _ & _ & _ & Hr & _) He Hm Hp. specialize (Hr e E He).
  unfold registered_ok, start_of in Hr. rewrite He in Hr. simpl in Hr.
  rewrite Hm in Hr. simpl in Hr. rewrite Hp in Hr.
  destruct (points s !! p) as [P|]; [|done]. by exists P.
Qed.

(** [start_of] is what [P2TR_EDGE_START] evaluates to. *)
Lemma P2TR_EDGE_START_start_of s e E :
  wf s → edges s !! e = Some E →
  P2TR_EDGE_START e s = Ret (start_of s e, s).
Proof.
  intros Hwf He. destruct (wf_mirror s e E Hwf He) as (_ & Mr & Hm & _).
  rewrite (P2TR_EDGE_START_run s e E Mr He Hm).
  unfold start_of. rewrite He. simpl. by rewrite Hm.
Qed.

Lemma wf_references s p P :
  wf s → points s !! p = Some P →
  Z.of_nat (size (outgoing_edges P)) ≤ pt_refcount P.
Proof. intros (_ & _ & _ & _ & _ & _ & Hc) Hp. by apply (Hc p P Hp). Qed.

(** ** The cascade to the bound triangles *)

Lemma remove_bound_triangle_run s e E :
  edges s !! e = Some E →
  (∀ t, tri E = Some t →
        ∃ T, triangles s !! t = Some T ∧
             Forall (λ e', is_Some (edges s !! e')) (triangle_sides T)) →
  ∃ s' l, remove_bound_triangle e s = Ret (tt, s') ∧
    points s' = points s ∧ removed_log s' = removed_log s ∧
    (∀ e', edges s' !! e' =
           (λ E', if decide (e' ∈ l) then set_tri None E' else E')
             <$> edges s !! e') ∧
    match tri E with
    | Some t => triangles s' = delete t (triangles s) ∧
                ∃ T, triangles s !! t = Some T ∧ l = triangle_sides T
    | None => triangles s' = triangles s ∧ l = []
    end.
Proof.
  intros He Hbound. unfold remove_bound_triangle.
  rewrite (bind_run _ _ _ _ _ (get_edge_run _ _ _ He)).
  destruct (tri E) as [t|].
  - destruct (Hbound t eq_refl) as (T & Ht & Hlive).
    destruct (p2tr_triangle_remove_run s t T Ht Hlive)
      as (s' & Hrun & Hp & Hl & Htri & _ & Hedges).
    exists s', (triangle_sides T). eauto 10.
  - exists s, []. repeat (split; [done|]). split; [|done].
    intros e'. by destruct (edges s !! e').
Qed.

Lemma remove_bound_triangles_run s e E Mr :
  wf s → edges s !! e = Some E → edges s !! mirror E = Some Mr →
  ∃ s1, remove_bound_triangles e s = Ret (tt, s1) ∧
    points s1 = points s ∧ removed_log s1 = removed_log s ∧
    edges s1 !! e = Some (set_tri None E) ∧
    edges s1 !! mirror E = Some (set_tri None Mr) ∧
    (∀ t, tri E = Some t ∨ tri Mr = Some t → triangles s1 !! t = None).
Proof.
  intros Hwf He Hm.
  (* the triangle bound to [e] *)
  destruct (remove_bound_triangle_run s e E He)
    as (sA & lA & HrunA & HpA & HlA & HeA & HtA).
  { intros t Ht. destruct (wf_bound s e E t Hwf He Ht) as (T & HT & _).
    exists T. split; [done|]. by apply (wf_sides_live s t T). }
  assert (e ∈ lA ∨ tri E = None) as HelA.
  { destruct (tri E) as [t|] eqn:Ht; [left|by right].
    destruct HtA as (_ & T & HT & ->).
    destruct (wf_bound s e E t Hwf He Ht) as (T' & HT' & Hin). congruence. }
  assert (∀ e' E', e' ∈ lA → edges s !! e' = Some E' → tri E' = tri E) as HlA_bound.
  { intros e' E' Hin He'. destruct (tri E) as [t|] eqn:Ht.
    - destruct HtA as (_ & T & HT & ->).
      destruct (wf_sides s t T e' Hwf HT Hin) as (E'' & ? & ?). congruence.
    - destruct HtA as (_ & ->). by apply elem_of_nil in Hin. }
  pose (EA := if decide (e ∈ lA) then set_tri None E else E).
  pose (MrA := if decide (mirror E ∈ lA) then set_tri None Mr else Mr).
  assert (edges sA !! e = Some EA) as HeA_e by (by rewrite HeA, He).
  assert (edges sA !! mirror E = Some MrA) as HeA_m by (by rewrite HeA, Hm).
  assert (mirror EA = mirror E) as HmirrorA by (unfold EA; by case_decide).
  (* the triangle bound to the mirror, as read afterwards *)
  destruct (remove_bound_triangle_run sA (mirror E) MrA HeA_m)
    as (s1 & lB & HrunB & HpB & HlB & HeB & HtB).
  { intros t' Ht'. unfold MrA in Ht'. case_decide as HmlA; [done|].
    destruct (wf_bound s (mirror E) Mr t' Hwf Hm Ht') as (T' & HT' & Hin).
    exists T'. split.
    - destruct (tri E) as [t|] eqn:Ht.
      + destruct HtA as (-> & T & HT & ->).
        rewrite lookup_delete_ne; [done|]. intros ->. congruence.
      + destruct HtA as (-> & _). done.
    - eapply Forall_impl; [by apply (wf_sides_live s t' T')|].
      intros e' [E' He']. rewrite HeA, He'. simpl. eauto. }
  exists s1. split; [|split; [|split; [|split; [|split]]]].
  - unfold remove_bound_triangles.
    rewrite (bind_run _ _ _ _ _ HrunA).
    rewrite (bind_run _ _ _ _ _ (get_edge_run _ _ _ HeA_e)).
    by rewrite HmirrorA.
  - congruence.
  - congruence.
  - rewrite HeB, HeA_e. simpl. f_equal.
    assert (set_tri None EA = set_tri None E ∧ tri EA = None) as [HEA HEA'].
    { unfold EA. case_decide; [done|]. destruct HelA as [?|Hnone]; [done|].
      by rewrite set_tri_unbound. }
    case_decide; [done|]. rewrite <- HEA. symmetry. by apply set_tri_unbound.
  - rewrite HeB, HeA_m. simpl. f_equal.
    destruct (decide (mirror E ∈ lA)) as [HmlA|HmlA].
    + assert (MrA = set_tri None Mr) as HMrA by reflexivity.
      clearbody MrA. subst MrA. by case_decide.
    + assert (MrA = Mr) as HMrA by reflexivity.
      clearbody MrA. subst MrA.
      destruct (tri Mr) as [t'|] eqn:Ht'.
      * destruct HtB as (_ & T'' & HT'' & ->).
        destruct (wf_bound s (mirror E) Mr t' Hwf Hm Ht') as (T' & HT' & Hin).
        assert (T'' = T') as ->.
        { destruct (tri E) as [t|].
          - destruct HtA as (HtA & _). rewrite HtA in HT''.
            apply lookup_delete_Some in HT'' as [_ HT'']. congruence.
          - destruct HtA as (HtA & _). congruence. }
        by rewrite decide_True.
      * rewrite (set_tri_unbound Mr Ht'). by case_decide.
  - intros t Ht.
    assert (triangles sA !! t = None → triangles s1 !! t = None) as Hmono.
    { intros HA. destruct (tri MrA).
      - destruct HtB as (-> & _). apply lookup_delete_None. by right.
      - destruct HtB as (-> & _). done. }
    assert (tri E = Some t → triangles s1 !! t = None) as Hfirst.
    { intros HE. apply Hmono. rewrite HE in HtA. destruct HtA as (-> & _).
      apply lookup_delete_eq. }
    destruct Ht as [Ht|Ht]; [by apply Hfirst|].
    destruct (decide (mirror E ∈ lA)) as [HmlA|HmlA].
    + apply Hfirst. rewrite <- (HlA_bound (mirror E) Mr HmlA Hm). done.
    + assert (MrA = Mr) as HMrA by reflexivity.
      clearbody MrA. subst MrA.
      rewrite Ht in HtB. destruct HtB as (-> & _). apply lookup_delete_eq.
Qed.

(** ** Detaching and tombstoning *)

Lemma point_after_removal_other a b e m p P :
  p ≠ a → p ≠ b → point_after_removal a b e m p P = Some P.
Proof.
  intros Hpa Hpb. unfold point_after_removal.
  rewrite decide_False by (intros [[?|?] _]; done). f_equal.
  unfold without_edge. rewrite !decide_False by done.
  apply point_eq; simpl; [done|set_solver|lia|done].
Qed.

Lemma point_after_removal_start a b e m P :
  a ≠ b →
  point_after_removal a b e m a P
  = if pt_refcount P - 1 =? 0 then None
    else Some (set_pt_refcount (pt_refcount P - 1)
                 (set_outgoing_edges (outgoing_edges P ∖ {[e]}) P)).
Proof.
  intros Hab. unfold point_after_removal, without_edge. simpl.
  rewrite !(decide_True (P := a = a)) by done.
  rewrite !(decide_False (P := a = b)) by done.
  destruct (Z.eqb_spec (pt_refcount P - 1) 0) as [Hz|Hz].
  - by rewrite decide_True by (split; [by left|lia]).
  - rewrite decide_False by (intros [_ ?]; lia). f_equal.
    apply point_eq; simpl; [done|set_solver|lia|done].
Qed.

Lemma point_after_removal_end a b e m P :
  a ≠ b →
  point_after_removal a b e m b P
  = if pt_refcount P - 1 =? 0 then None
    else Some (set_pt_refcount (pt_refcount P - 1)
                 (set_outgoing_edges (outgoing_edges P ∖ {[m]}) P)).
Proof.
  intros Hab. unfold point_after_removal, without_edge. simpl.
  rewrite !(decide_True (P := b = b)) by done.
  rewrite !(decide_False (P := b = a)) by done.
  destruct (Z.eqb_spec (pt_refcount P - 1) 0) as [Hz|Hz].
  - by rewrite decide_True by (split; [by right|lia]).
  - rewrite decide_False by (intros [_ ?]; lia). f_equal.
    apply point_eq; simpl; [done|set_solver|lia|done].
Qed.

Lemma point_after_removal_loop a e m P :
  point_after_removal a a e m a P
  = if pt_refcount P - 1 - 1 =? 0 then None
    else Some (set_pt_refcount (pt_refcount P - 1 - 1)
                 (set_outgoing_edges (outgoing_edges P ∖ {[e]} ∖ {[m]}) P)).
Proof.
  unfold point_after_removal, without_edge. simpl.
  rewrite !(decide_True (P := a = a)) by done.
  destruct (Z.eqb_spec (pt_refcount P - 1 - 1) 0) as [Hz|Hz].
  - by rewrite decide_True by (split; [by left|lia]).
  - by rewrite decide_False by (intros [_ ?]; lia).
Qed.

Lemma remove_detach_run s e E Mr a b Pa Pb :
  edges s !! e = Some E → edges s !! mirror E = Some Mr → mirror E ≠ e →
  points s !! a = Some Pa → points s !! b = Some Pb →
  (a = b → pt_refcount Pa ≠ 1) →
  ∃ s', remove_detach e (Some a) (Some b) s = Ret (tt, s') ∧
    edges s' = <[mirror E := set_end None Mr]> (<[e := set_end None E]> (edges s)) ∧
    triangles s' = triangles s ∧ removed_log s' = removed_log s ∧
    ∀ p, points s' !! p
         = points s !! p ≫= point_after_removal a b e (mirror E) p.
Proof.
  intros He Hm Hne Ha Hb Hloop. unfold remove_detach.
  rewrite (bind_run _ _ _ _ _ (_p2tr_point_remove_edge_run _ _ _ _ Ha)).
  step with (by apply get_edge_run).
  destruct (decide (a = b)) as [<-|Hab].
  - assert (Pb = Pa) as -> by congruence.
    step with (apply _p2tr_point_remove_edge_run; simpl;
               apply lookup_insert_eq).
    step with (by apply get_edge_run).
    step with (reflexivity).
    step with (apply get_edge_run; simpl; apply lookup_insert_eq).
    step with (apply get_edge_run; simpl; rewrite lookup_insert_ne by done;
               exact Hm).
    step with (reflexivity).
    step with (apply p2tr_point_unref_run; simpl; apply lookup_insert_eq).
    cbn [pt_refcount set_outgoing_edges].
    rewrite (proj2 (Z.eqb_neq (pt_refcount Pa - 1) 0)) by (specialize (Hloop eq_refl); lia).
    erewrite p2tr_point_unref_run; cycle 1. { simpl. apply lookup_insert_eq. }
    eexists. split; [reflexivity|]. simpl. repeat (split; [reflexivity|]).
    intros p. destruct (decide (p = a)) as [->|Hp].
    + rewrite Ha. simpl. rewrite point_after_removal_loop.
      destruct (pt_refcount Pa - 1 - 1 =? 0).
      * by rewrite lookup_delete_eq.
      * by rewrite lookup_insert_eq.
    + transitivity (points s !! p).
      * destruct (_ =? 0).
        { rewrite lookup_delete_ne by done. by rewrite !lookup_insert_ne by done. }
        by rewrite !lookup_insert_ne by done.
      * destruct (points s !! p) as [P|]; [|done]. simpl.
        by rewrite point_after_removal_other.
  - step with (apply _p2tr_point_remove_edge_run; simpl;
               rewrite lookup_insert_ne by done; exact Hb).
    step with (by apply get_edge_run).
    step with (reflexivity).
    step with (apply get_edge_run; simpl; apply lookup_insert_eq).
    step with (apply get_edge_run; simpl; rewrite lookup_insert_ne by done;
               exact Hm).
    step with (reflexivity).
    step with (apply p2tr_point_unref_run; simpl;
               rewrite lookup_insert_ne by done; apply lookup_insert_eq).
    erewrite p2tr_point_unref_run; cycle 1.
    { simpl. instantiate (1 := set_outgoing_edges (outgoing_edges Pb ∖ {[mirror E]}) Pb).
      destruct (_ =? 0).
      - rewrite lookup_delete_ne by done. apply lookup_insert_eq.
      - rewrite lookup_insert_ne by done. apply lookup_insert_eq. }
    eexists. split; [reflexivity|]. simpl. repeat (split; [reflexivity|]).
    cbn [pt_refcount set_outgoing_edges].
    intros p.
    destruct (decide (p = b)) as [->|Hpb]; [|destruct (decide (p = a)) as [->|Hpa]].
    + rewrite Hb. simpl. rewrite point_after_removal_end by done.
      destruct (pt_refcount Pb - 1 =? 0).
      * by rewrite lookup_delete_eq.
      * by rewrite lookup_insert_eq.
    + rewrite Ha. simpl. rewrite point_after_removal_start by done.
      destruct (pt_refcount Pb - 1 =? 0), (pt_refcount Pa - 1 =? 0);
        repeat (rewrite ?lookup_delete_ne, ?lookup_insert_ne by done);
        by rewrite ?lookup_delete_eq, ?lookup_insert_eq.
    + transitivity (points s !! p).
      * destruct (pt_refcount Pb - 1 =? 0), (pt_refcount Pa - 1 =? 0);
          repeat (rewrite ?lookup_delete_ne, ?lookup_insert_ne by done); done.
      * destruct (points s !! p) as [P|]; [|done]. simpl.
        by rewrite point_after_removal_other.
Qed.

(** ** [p2tr_edge_remove] on an installed half-edge *)

Lemma p2tr_edge_get_mesh_run s e E b Pb :
  edges s !! e = Some E → end_ E = Some b → points s !! b = Some Pb →
  p2tr_edge_get_mesh e s = Ret (mesh Pb, s).
Proof.
  intros He Hend Hb. unfold p2tr_edge_get_mesh.
  rewrite (bind_run _ _ _ _ _ (get_edge_run _ _ _ He)), Hend.
  unfold p2tr_point_get_mesh.
  by rewrite (bind_run _ _ _ _ _ (get_point_run _ _ _ Hb)).
Qed.

Lemma p2tr_edge_is_removed_run s e E :
  edges s !! e = Some E →
  p2tr_edge_is_removed e s = Ret (bool_decide (end_ E = None), s).
Proof.
  intros He. unfold p2tr_edge_is_removed.
  by rewrite (bind_run _ _ _ _ _ (get_edge_run _ _ _ He)).
Qed.

(** The notification phase: the mesh hears of the edge and then of its
    mirror, and each of the two calls finds the objects as they are on
    entry to the phase. *)
Lemma remove_notify_run s e E ms :
  edges s !! e = Some E →
  remove_notify e (Some ms) s
  = Ret (tt, {| points := points s; edges := edges s;
                triangles := triangles s;
                removed_log := removed_log s ++ [(ms, e); (ms, mirror E)];
                history := history s
                             ++ [(call_on_edge_removed ms e, heap_of s);
                                 (call_on_edge_removed ms (mirror E), heap_of s)] |}).
Proof.
  intros He. unfold remove_notify, p2tr_mesh_on_edge_removed.
  unfold bind, enter, get_edge, with_log, heap_of. simpl. rewrite He. simpl.
  by rewrite <- !app_assoc.
Qed.

(** The end points of an installed half-edge in a well-formed store. *)
Lemma wf_installed s e E b :
  wf s → edges s !! e = Some E → end_ E = Some b →
  ∃ Mr a Pa Pb,
    edges s !! mirror E = Some Mr ∧ mirror E ≠ e ∧ mirror Mr = e ∧
    end_ Mr = Some a ∧ points s !! a = Some Pa ∧ points s !! b = Some Pb ∧
    e ∈ outgoing_edges Pa ∧ mirror E ∈ outgoing_edges Pb ∧
    (e ∈ outgoing_edges Pb → a = b) ∧ (mirror E ∈ outgoing_edges Pa → a = b) ∧
    (a = b → pt_refcount Pa ≠ 1).
Proof.
  intros Hwf He Hend.
  destruct (wf_mirror s e E Hwf He) as (Hne & Mr & Hm & Hback & Hiff).
  destruct (end_ Mr) as [a|] eqn:Hstart; [|destruct Hiff as [_ Hiff]; naive_solver].
  destruct (wf_end s e E b Hwf He Hend) as [Pb Hb].
  destruct (wf_end s (mirror E) Mr a Hwf Hm Hstart) as [Pa Ha].
  destruct (wf_registered s e E Mr a Hwf He Hm Hstart) as (Pa' & Ha' & Hea).
  assert (edges s !! mirror Mr = Some E) as Hm' by (by rewrite Hback).
  destruct (wf_registered s (mirror E) Mr E b Hwf Hm Hm' Hend) as (Pb' & Hb' & Hmb).
  assert (Pa' = Pa) as -> by congruence. assert (Pb' = Pb) as -> by congruence.
  assert (start_of s e = Some a) as Hse.
  { unfold start_of. rewrite He. simpl. rewrite Hm. done. }
  assert (start_of s (mirror E) = Some b) as Hsm.
  { unfold start_of. rewrite Hm. simpl. rewrite Hm'. done. }
  exists Mr, a, Pa, Pb. repeat (split; [done|]). split; [|split].
  - intros Hin. pose proof (wf_outgoing s b Pb e Hwf Hb Hin). congruence.
  - intros Hin. pose proof (wf_outgoing s a Pa (mirror E) Hwf Ha Hin). congruence.
  - intros <-. assert (Pb = Pa) as -> by congruence.
    pose proof (wf_references s a Pa Hwf Ha) as Hrefs.
    assert (size (C := gset addr) {[e; mirror E]} ≤ size (outgoing_edges Pa))%nat as Hsz
      by (apply subseteq_size; set_solver).
    rewrite size_union in Hsz by set_solver. rewrite !size_singleton in Hsz. lia.
Qed.

(** [p2tr_edge_remove] on an installed half-edge of a well-formed store, phase
    by phase: the cascade ends in [s1], detaching and tombstoning in [s2],
    and the notification phase starts from [s2]. *)
Lemma p2tr_edge_remove_run s e E b :
  wf s → edges s !! e = Some E → end_ E = Some b →
  ∃ Mr a Pa Pb s1 s2,
    edges s !! mirror E = Some Mr ∧ mirror E ≠ e ∧ end_ Mr = Some a ∧
    points s !! a = Some Pa ∧ points s !! b = Some Pb ∧
    remove_bound_triangles e s = Ret (tt, s1) ∧
    points s1 = points s ∧ removed_log s1 = removed_log s ∧
    edges s1 !! e = Some (set_tri None E) ∧
    edges s1 !! mirror E = Some (set_tri None Mr) ∧
    (∀ t, tri E = Some t ∨ tri Mr = Some t → triangles s1 !! t = None) ∧
    remove_detach e (Some a) (Some b) s1 = Ret (tt, s2) ∧
    edges s2 !! e = Some (set_end None (set_tri None E)) ∧
    edges s2 !! mirror E = Some (set_end None (set_tri None Mr)) ∧
    triangles s2 = triangles s1 ∧ removed_log s2 = removed_log s ∧
    (∀ p P, p = a ∨ p = b → points s2 !! p = Some P →
            (e ∉ outgoing_edges P) ∧ (mirror E ∉ outgoing_edges P)) ∧
    p2tr_edge_remove e s = remove_notify e (mesh Pb) s2.
Proof.
  intros Hwf He Hend.
  destruct (wf_installed s e E b Hwf He Hend)
    as (Mr & a & Pa & Pb & Hm & Hne & Hback & Hstart & Ha & Hb & _ & _ &
        Hcross_e & Hcross_m & Hloop).
  destruct (remove_bound_triangles_run s e E Mr Hwf He Hm)
    as (s1 & Hrun1 & Hp1 & Hl1 & He1 & Hm1 & Htri1).
  destruct (remove_detach_run s1 e (set_tri None E) (set_tri None Mr) a b Pa Pb)
    as (s2 & Hrun2 & He2 & Htri2 & Hl2 & Hp2); try done; try congruence.
  exists Mr, a, Pa, Pb, s1, s2. cbn [mirror set_tri] in He2.
  repeat (split; [done|]).
  split; [by rewrite He2, lookup_insert_ne, lookup_insert_eq by done|].
  split; [by rewrite He2, lookup_insert_eq|].
  split; [done|]. split; [congruence|]. split.
  - intros p P Hp HP. rewrite Hp2, Hp1 in HP. cbn [mirror set_tri] in HP.
    destruct (points s !! p) as [P0|] eqn:HP0; [|done]. simpl in HP.
    unfold point_after_removal in HP. case_decide; [done|].
    injection HP as <-. cbn [outgoing_edges without_edge].
    destruct Hp as [-> | ->].
    + assert (P0 = Pa) as -> by congruence.
      rewrite decide_True by done. destruct (decide (a = b)) as [Hab|Hab].
      * clear. set_solver.
      * assert (mirror E ∉ outgoing_edges Pa) as Hout' by tauto.
        clear -Hout'. set_solver.
    + assert (P0 = Pb) as -> by congruence.
      rewrite (decide_True _ _ (eq_refl b)). destruct (decide (b = a)) as [Hab|Hab].
      * clear. set_solver.
      * assert (e ∉ outgoing_edges Pb) as Hout'
          by (intros Hin; by apply Hab, eq_sym, Hcross_e).
        clear -Hout'. set_solver.
  - unfold p2tr_edge_remove.
    rewrite (bind_run _ _ _ _ _ (get_edge_run _ _ _ He)), Hend.
    rewrite (bind_run _ _ _ _ _ (p2tr_edge_get_mesh_run _ _ _ _ _ He Hend Hb)).
    rewrite (bind_run _ _ _ _ _ (P2TR_EDGE_START_run _ _ _ _ He Hm)), Hstart.
    rewrite (bind_run _ _ _ _ _ Hrun1).
    by rewrite (bind_run _ _ _ _ _ Hrun2).
Qed.

Lemma remove_notify_frame s e mesh' s' :
  remove_notify e mesh' s = Ret (tt, s') →
  points s' = points s ∧ edges s' = edges s ∧ triangles s' = triangles s.
Proof.
  unfold remove_notify, p2tr_mesh_on_edge_removed, bind, get_edge, ret.
  destruct mesh' as [ms|]; simpl; [|by intros [= <-]].
  destruct (edges s !! e); [|done]. by intros [= <-].
Qed.

Lemma remove_notify_total s e E mesh' :
  edges s !! e = Some E → ∃ s', remove_notify e mesh' s = Ret (tt, s').
Proof.
  intros He. destruct mesh' as [ms|]; [|by exists s].
  rewrite (remove_notify_run s e E ms He). eauto.
Qed.

(** C3. In a well-formed store, [p2tr_edge_remove] on an installed half-edge
    completes; afterwards [p2tr_edge_is_removed] answers true for the edge
    and for its mirror, and neither direction is left in the incident set of
    the start point or of the end point. *)
Theorem p2tr_edge_remove_tombstones s e E b :
  wf s → edges s !! e = Some E → end_ E = Some b →
  ∃ a s',
    start_of s e = Some a ∧
    p2tr_edge_remove e s = Ret (tt, s') ∧
    p2tr_edge_is_removed e s' = Ret (true, s') ∧
    p2tr_edge_is_removed (mirror E) s' = Ret (true, s') ∧
    ∀ p P, p = a ∨ p = b → points s' !! p = Some P →
           (e ∉ outgoing_edges P) ∧ (mirror E ∉ outgoing_edges P).
Proof.
  intros Hwf He Hend.
  destruct (p2tr_edge_remove_run s e E b Hwf He Hend)
    as (Mr & a & Pa & Pb & s1 & s2 & Hm & Hne & Hstart & Ha & Hb & _ & _ & _ &
        _ & _ & _ & _ & He2 & Hm2 & _ & _ & Hout & Hrun).
  destruct (remove_notify_total s2 e _ (mesh Pb) He2) as [s' Hnotify].
  destruct (remove_notify_frame _ _ _ _ Hnotify) as (Hp' & He' & _).
  exists a, s'. split; [|split; [|split; [|split]]].
  - unfold start_of. rewrite He. simpl. by rewrite Hm.
  - by rewrite Hrun.
  - rewrite <- He' in He2. by rewrite (p2tr_edge_is_removed_run _ _ _ He2).
  - rewrite <- He' in Hm2. by rewrite (p2tr_edge_is_removed_run _ _ _ Hm2).
  - intros p P Hp HP. rewrite Hp' in HP. by apply (Hout p P).
Qed.

Lemma p2tr_edge_remove_tombstones_witness :
  ∃ a s',
    start_of triangle_store 3%positive = Some a ∧
    p2tr_edge_remove 3%positive triangle_store = Ret (tt, s') ∧
    p2tr_edge_is_removed 3%positive s' = Ret (true, s') ∧
    p2tr_edge_is_removed 4%positive s' = Ret (true, s') ∧
    ∀ p P, p = a ∨ p = 3%positive → points s' !! p = Some P →
           (3%positive ∉ outgoing_edges P) ∧ (4%positive ∉ outgoing_edges P).
Proof.
  apply (p2tr_edge_remove_tombstones triangle_store 3%positive
           (half_edge (1 - 0) (1 - 1) (Some 3%positive) 4 1 (Some 1%positive))
           3%positive).
  - by apply (bool_decide_unpack _); vm_compute.
  - reflexivity.
  - reflexivity.
Defined.


(** ** Creation keeps a store well-formed *)

(** [p2tr_edge_new] keeps a store well-formed. *)
Lemma p2tr_edge_new_wf s a b k Pa Pb :
  wf s → points s !! a = Some Pa → points s !! b = Some Pb →
  ∃ e s', p2tr_edge_new (Some a) (Some b) k s = Ret (e, s') ∧ wf s'.
Proof.
  intros Hwf Ha Hb.
  destruct (p2tr_edge_new_run s a b k Pa Pb Ha Hb)
    as (s' & Hrun & Hem & Hfe & Hfm & Hedges & Hpoints & Htri & _).
  set (e := fresh (dom (edges s))) in *.
  set (m := fresh (dom (<[e := uninitialised_edge]> (edges s)))) in *.
  cbv zeta in Hedges.
  set (E := {| angle := atan2 (y (c Pb) - y (c Pa)) (x (c Pb) - x (c Pa));
               constrained := k; delaunay := false; end_ := Some b;
               mirror := m; refcount := 1; tri := None |}) in *.
  set (Mr := {| angle := atan2 (y (c Pa) - y (c Pb)) (x (c Pa) - x (c Pb));
                constrained := k; delaunay := false; end_ := Some a;
                mirror := e; refcount := 0; tri := None |}) in *.
  exists e, s'. split; [done|].
  assert (∀ i K, edges s !! i = Some K → edges s' !! i = Some K) as Hold.
  { intros i K Hi. rewrite Hedges.
    rewrite !lookup_insert_ne by congruence. done. }
  assert (∀ i K, edges s' !! i = Some K →
            (i = e ∧ K = E) ∨ (i = m ∧ K = Mr) ∨ edges s !! i = Some K) as Hnew.
  { intros i K. rewrite Hedges, !lookup_insert.
    repeat case_decide; naive_solver. }
  assert (edges s' !! e = Some E) as He' by (by rewrite Hedges, lookup_insert_eq).
  assert (edges s' !! m = Some Mr) as Hm'
    by (by rewrite Hedges, lookup_insert_ne, lookup_insert_eq).
  assert (start_of s' e = Some a) as Hse.
  { unfold start_of. rewrite He'. simpl. by rewrite Hm'. }
  assert (start_of s' m = Some b) as Hsm.
  { unfold start_of. rewrite Hm'. simpl. by rewrite He'. }
  assert (∀ i K, edges s !! i = Some K → start_of s' i = start_of s i) as Hstart.
  { intros i K Hi.
    destruct (wf_mirror s i K Hwf Hi) as (_ & Mi & HMi & _).
    unfold start_of. rewrite Hi, (Hold i K Hi). simpl.
    by rewrite HMi, (Hold _ _ HMi). }
  destruct Hwf as (W1 & W2 & W3 & W4 & W5 & W6 & W7).
  unfold wf. split_and!.
  - (* mirrors *)
    intros i K Hi. destruct (Hnew i K Hi) as [[-> ->]|[[-> ->]|Hi']].
    + unfold mirror_ok. simpl. rewrite Hm'. by split; [|split].
    + unfold mirror_ok. simpl. rewrite He'. by split; [|split].
    + specialize (W1 i K Hi'). unfold mirror_ok in *.
      destruct W1 as [Hne W1]. split; [done|].
      destruct (edges s !! mirror K) as [Mi|] eqn:HMi; [|done].
      by rewrite (Hold _ _ HMi).
  - (* end points *)
    intros i K Hi. unfold end_ok.
    destruct (Hnew i K Hi) as [[-> ->]|[[-> ->]|Hi']]; simpl.
    + rewrite Hpoints, Hb. eauto.
    + rewrite Hpoints, Ha. eauto.
    + specialize (W2 i K Hi'). unfold end_ok in W2.
      destruct (end_ K) as [p|]; [|done]. destruct W2 as [P HP].
      rewrite Hpoints, HP. eauto.
  - (* bound triangles *)
    intros i K Hi. unfold bound_ok.
    destruct (Hnew i K Hi) as [[-> ->]|[[-> ->]|Hi']]; simpl; [done..|].
    rewrite Htri. apply (W3 i K Hi').
  - (* sides *)
    rewrite Htri. intros t T Ht. specialize (W4 t T Ht). unfold sides_ok in *.
    eapply Forall_impl; [exact W4|]. intros i Hi. simpl in Hi.
    destruct (edges s !! i) as [K|] eqn:HK; [|done].
    by rewrite (Hold _ _ HK).
  - (* incident sets *)
    intros p P'. rewrite Hpoints. intros HP'.
    destruct (points s !! p) as [P|] eqn:HP; [|done].
    injection HP' as <-. unfold outgoing_ok, with_new_edge. simpl.
    intros i Hi. apply elem_of_union in Hi as [Hi|Hi].
    + apply elem_of_union in Hi as [Hi|Hi].
      * case_decide as Hpb; [|set_solver].
        apply elem_of_singleton in Hi. by subst.
      * case_decide as Hpa; [|set_solver].
        apply elem_of_singleton in Hi. by subst.
    + pose proof (W5 p P HP i Hi) as Hsi. simpl in Hsi.
      destruct (edges s !! i) as [K|] eqn:HK.
      * by rewrite (Hstart i K HK).
      * unfold start_of in Hsi. by rewrite HK in Hsi.
  - (* registration *)
    intros i K Hi. unfold registered_ok.
    destruct (Hnew i K Hi) as [[-> ->]|[[-> ->]|Hi']].
    + rewrite Hse, Hpoints, Ha. simpl.
      rewrite (decide_True _ _ (eq_refl a)). clear. set_solver.
    + rewrite Hsm, Hpoints, Hb. simpl.
      rewrite (decide_True _ _ (eq_refl b)). clear. set_solver.
    + rewrite (Hstart i K Hi'). specialize (W6 i K Hi').
      unfold registered_ok in W6. destruct (start_of s i) as [p|]; [|done].
      rewrite Hpoints. destruct (points s !! p) as [P|]; [|done].
      simpl. clear -W6. set_solver.
  - (* references *)
    intros p P'. rewrite Hpoints. intros HP'.
    destruct (points s !! p) as [P|] eqn:HP; [|done].
    injection HP' as <-. specialize (W7 p P HP).
    unfold references_ok, with_new_edge in *. simpl.
    assert (∀ X Y : gset addr, size (X ∪ Y) ≤ size X + size Y)%nat as Hsub.
    { intros X Y. rewrite size_union_alt.
      assert (size (Y ∖ X) ≤ size Y)%nat by (apply subseteq_size; set_solver).
      lia. }
    pose proof (Hsub ((if decide (p = b) then {[m]} else ∅) ∪
                      (if decide (p = a) then {[e]} else ∅)) (outgoing_edges P)) as H1.
    pose proof (Hsub (if decide (p = b) then {[m]} else ∅)
                     (if decide (p = a) then {[e]} else ∅)) as H2.
    repeat case_decide; rewrite ?size_singleton, ?size_empty in *; lia.
Qed.

(** ** Removal keeps a store well-formed *)

Lemma p2tr_triangle_remove_wf s t T s' :
  wf s → triangles s !! t = Some T →
  p2tr_triangle_remove t s = Ret (tt, s') → wf s'.
Proof.
  intros Hwf Ht Hrun.
  destruct (p2tr_triangle_remove_run s t T Ht (wf_sides_live s t T Hwf Ht))
    as (s'' & Hrun' & Hpoints & _ & Htri & _ & Hedges0).
  assert (s'' = s') as -> by congruence. clear Hrun Hrun'.
  pose (g := λ (k : addr) (K : P2trEdge),
               if decide (k ∈ triangle_sides T) then set_tri None K else K).
  assert (∀ k, edges s' !! k = g k <$> edges s !! k) as Hedges by exact Hedges0.
  clear Hedges0.
  assert (∀ k K, mirror (g k K) = mirror K ∧ end_ (g k K) = end_ K) as Hg.
  { intros k K. unfold g. by case_decide. }
  assert (∀ k K, tri (g k K)
                 = if decide (k ∈ triangle_sides T) then None else tri K) as Hgt.
  { intros k K. unfold g. by case_decide. }
  clearbody g.
  assert (∀ k, start_of s' k = start_of s k) as Hstart.
  { intros k. unfold start_of. rewrite Hedges.
    destruct (edges s !! k) as [K|]; [|done]. simpl.
    rewrite (proj1 (Hg k K)), Hedges.
    destruct (edges s !! mirror K) as [Mi|]; [|done]. simpl. apply Hg. }
  assert (∀ k K', edges s' !! k = Some K' →
            ∃ K, edges s !! k = Some K ∧ K' = g k K) as Hback.
  { intros k K'. rewrite Hedges. destruct (edges s !! k) as [K|]; [|done].
    intros [= <-]. eauto. }
  unfold wf. split_and!.
  - intros k K' Hk. destruct (Hback k K' Hk) as (K & HK & ->).
    destruct (wf_mirror s k K Hwf HK) as (Hne & Mi & HMi & Hmm & Hends).
    unfold mirror_ok. rewrite (proj1 (Hg k K)), Hedges, HMi. simpl.
    rewrite (proj1 (Hg _ Mi)), (proj2 (Hg k K)), (proj2 (Hg _ Mi)). done.
  - intros k K' Hk. destruct (Hback k K' Hk) as (K & HK & ->).
    unfold end_ok. rewrite (proj2 (Hg k K)), Hpoints.
    destruct Hwf as (_ & W2 & _). apply (W2 k K HK).
  - intros k K' Hk. destruct (Hback k K' Hk) as (K & HK & ->).
    unfold bound_ok. rewrite Hgt. case_decide as Hside; [done|].
    destruct (tri K) as [t1|] eqn:Ht1; [|done].
    destruct (wf_bound s k K t1 Hwf HK Ht1) as (T1 & HT1 & Hin).
    rewrite Htri, lookup_delete_ne, HT1; [done|]. intros <-. congruence.
  - intros t1 T1. rewrite Htri. intros [Hne HT1]%lookup_delete_Some.
    unfold sides_ok. apply Forall_forall. intros k Hk.
    destruct (wf_sides s t1 T1 k Hwf HT1 Hk) as (K & HK & HtK).
    rewrite Hedges, HK. simpl. rewrite Hgt.
    case_decide as Hside; [|by rewrite HtK].
    destruct (wf_sides s t T k Hwf Ht Hside) as (K' & HK' & HtK'). congruence.
  - intros p P. rewrite Hpoints. intros HP i Hi. rewrite Hstart.
    by apply (wf_outgoing s p P i).
  - intros k K' Hk. destruct (Hback k K' Hk) as (K & HK & ->).
    unfold registered_ok. rewrite Hstart, Hpoints.
    destruct Hwf as (_ & _ & _ & _ & _ & W6 & _). apply (W6 k K HK).
  - rewrite Hpoints. by destruct Hwf as (_ & _ & _ & _ & _ & _ & W7).
Qed.

Lemma remove_bound_triangle_wf s e E s' :
  wf s → edges s !! e = Some E →
  remove_bound_triangle e s = Ret (tt, s') → wf s'.
Proof.
  intros Hwf He. unfold remove_bound_triangle.
  rewrite (bind_run _ _ _ _ _ (get_edge_run _ _ _ He)).
  destruct (tri E) as [t|] eqn:Ht; [|by intros [= <-]].
  destruct (wf_bound s e E t Hwf He Ht) as (T & HT & _).
  by apply (p2tr_triangle_remove_wf s t T).
Qed.

Lemma remove_bound_triangles_wf s e E s' :
  wf s → edges s !! e = Some E →
  remove_bound_triangles e s = Ret (tt, s') → wf s'.
Proof.
  intros Hwf He. unfold remove_bound_triangles, bind.
  destruct (remove_bound_triangle e s) as [[[] sA]| |] eqn:HA; [|done..].
  pose proof (remove_bound_triangle_wf s e E sA Hwf He HA) as HwfA.
  destruct (edges sA !! e) as [EA|] eqn:HEA.
  - rewrite (get_edge_run _ _ _ HEA).
    destruct (wf_mirror sA e EA HwfA HEA) as (_ & MrA & HMrA & _).
    by apply (remove_bound_triangle_wf sA (mirror EA) MrA).
  - unfold get_edge. by rewrite HEA.
Qed.

Lemma size_at_least_one (X : gset addr) i : i ∈ X → (1 ≤ size X)%nat.
Proof.
  intros Hi. rewrite <- (size_singleton (C := gset addr) i).
  apply subseteq_size. set_solver.
Qed.

Lemma size_at_least_two (X : gset addr) i j :
  i ≠ j → i ∈ X → j ∈ X → (2 ≤ size X)%nat.
Proof.
  intros Hij Hi Hj.
  assert (size (C := gset addr) {[i; j]} ≤ size X)%nat as Hsz
    by (apply subseteq_size; set_solver).
  rewrite size_union in Hsz by set_solver. by rewrite !size_singleton in Hsz.
Qed.

Lemma size_at_least_three (X : gset addr) i j k :
  i ≠ j → i ≠ k → j ≠ k → i ∈ X → j ∈ X → k ∈ X → (3 ≤ size X)%nat.
Proof.
  intros Hij Hik Hjk Hi Hj Hk.
  assert (size (C := gset addr) ({[i]} ∪ {[j; k]}) ≤ size X)%nat as Hsz
    by (apply subseteq_size; set_solver).
  rewrite size_union in Hsz by set_solver.
  rewrite (size_union {[j]}) in Hsz by set_solver.
  by rewrite !size_singleton in Hsz.
Qed.

Lemma size_without (X : gset addr) i :
  i ∈ X → size (X ∖ {[i]}) = (size X - 1)%nat.
Proof.
  intros Hi. rewrite size_difference by set_solver. by rewrite size_singleton.
Qed.

(** The notifications are no part of well-formedness. *)
Lemma wf_same_objects s s' :
  points s' = points s → edges s' = edges s → triangles s' = triangles s →
  wf s → wf s'.
Proof.
  intros Hp He Ht (W1 & W2 & W3 & W4 & W5 & W6 & W7).
  unfold wf, mirror_ok, end_ok, bound_ok, sides_ok, outgoing_ok,
    registered_ok, start_of in *.
  rewrite Hp, He, Ht. done.
Qed.

Lemma remove_detach_wf s e E a b s' :
  wf s → edges s !! e = Some E → end_ E = Some b → start_of s e = Some a →
  tri E = None → tri <$> edges s !! mirror E = Some None →
  remove_detach e (Some a) (Some b) s = Ret (tt, s') → wf s'.
Proof.
  intros Hwf He Hend Hse HtE HtM Hrun.
  destruct (wf_installed s e E b Hwf He Hend)
    as (Mr & a' & Pa & Pb & Hm & Hne & Hback & Hstart & Ha & Hb & Hea & Hmb &
        _ & _ & Hloop).
  assert (a' = a) as ->.
  { unfold start_of in Hse. rewrite He in Hse. simpl in Hse.
    rewrite Hm in Hse. simpl in Hse. congruence. }
  rewrite Hm in HtM. injection HtM as HtM.
  destruct (remove_detach_run s e E Mr a b Pa Pb He Hm Hne Ha Hb Hloop)
    as (s'' & Hrun' & Hedges & Htri & _ & Hpoints).
  assert (s'' = s') as -> by congruence. clear Hrun Hrun'.
  remember (mirror E) as m eqn:Hmdef.
  assert (start_of s m = Some b) as Hsm.
  { unfold start_of. rewrite Hm. simpl. rewrite Hback, He. done. }
  assert (edges s' !! e = Some (set_end None E)) as He'
    by (by rewrite Hedges, lookup_insert_ne, lookup_insert_eq).
  assert (edges s' !! m = Some (set_end None Mr)) as Hm'
    by (by rewrite Hedges, lookup_insert_eq).
  assert (∀ k, k ≠ e → k ≠ m → edges s' !! k = edges s !! k) as Hother.
  { intros k Hke Hkm. by rewrite Hedges, !lookup_insert_ne. }
  assert (∀ k K, edges s !! k = Some K → k ≠ e → k ≠ m →
            mirror K ≠ e ∧ mirror K ≠ m) as Htwin.
  { intros k K HK Hke Hkm.
    destruct (wf_mirror s k K Hwf HK) as (_ & Mi & HMi & Hmi & _).
    split; intros Heq; rewrite Heq in HMi.
    - assert (Mi = E) as -> by congruence. congruence.
    - assert (Mi = Mr) as -> by congruence. congruence. }
  assert (∀ k K, edges s !! k = Some K → k ≠ e → k ≠ m →
            start_of s' k = start_of s k) as Hstart_other.
  { intros k K HK Hke Hkm. destruct (Htwin k K HK Hke Hkm) as [H1 H2].
    unfold start_of. rewrite Hother, HK by done. simpl. by rewrite Hother. }
  assert (start_of s' e = None) as Hse'.
  { unfold start_of. rewrite He'. simpl. by rewrite <- Hmdef, Hm'. }
  assert (start_of s' m = None) as Hsm'.
  { unfold start_of. rewrite Hm'. simpl. rewrite Hback. by rewrite He'. }
  assert (∀ p P k, points s !! p = Some P → k ∈ outgoing_edges P →
            k ≠ e → k ≠ m →
            ∃ P', points s' !! p = Some P' ∧ k ∈ outgoing_edges P') as Hlive.
  { intros p P k HP Hk Hke Hkm. rewrite Hpoints, HP. simpl.
    unfold point_after_removal.
    pose proof (wf_references s p P Hwf HP) as Hrefs.
    rewrite decide_False.
    - eexists. split; [done|]. simpl. repeat case_decide; set_solver.
    - intros [Hp Hzero]. simpl in Hzero. revert Hzero.
      destruct (decide (p = a)) as [Hpa|Hpa], (decide (p = b)) as [Hpb|Hpb];
        intros Hzero.
      + subst p. subst b.
        assert (P = Pa) as -> by congruence. assert (Pb = Pa) as -> by congruence.
        pose proof (size_at_least_three _ k e m Hke Hkm (not_eq_sym Hne) Hk Hea Hmb).
        lia.
      + subst p. assert (P = Pa) as -> by congruence.
        pose proof (size_at_least_two _ k e Hke Hk Hea). lia.
      + subst p. assert (P = Pb) as -> by congruence.
        pose proof (size_at_least_two _ k m Hkm Hk Hmb). lia.
      + by destruct Hp. }
  destruct Hwf as (W1 & W2 & W3 & W4 & W5 & W6 & W7).
  assert (wf s) as Hwf by done.
  unfold wf. split_and!.
  - intros k K' Hk. unfold mirror_ok.
    destruct (decide (k = e)) as [->|Hke]; [|destruct (decide (k = m)) as [->|Hkm]].
    + rewrite He' in Hk. injection Hk as <-. simpl. rewrite <- Hmdef, Hm'.
      split; [done|]. by split.
    + rewrite Hm' in Hk. injection Hk as <-. simpl. rewrite Hback, He'.
      split; [done|]. by split.
    + rewrite Hother in Hk by done.
      destruct (Htwin k K' Hk Hke Hkm) as [H1 H2]. rewrite Hother by done.
      apply (W1 k K' Hk).
  - intros k K' Hk. unfold end_ok.
    destruct (decide (k = e)) as [->|Hke]; [|destruct (decide (k = m)) as [->|Hkm]].
    + rewrite He' in Hk. by injection Hk as <-.
    + rewrite Hm' in Hk. by injection Hk as <-.
    + rewrite Hother in Hk by done.
      destruct (end_ K') as [p|] eqn:Hp; [|done].
      destruct (wf_mirror s k K' Hwf Hk) as (_ & Mi & HMi & Hmi & _).
      destruct (Htwin k K' Hk Hke Hkm) as [H1 H2].
      assert (edges s !! mirror Mi = Some K') as HK' by (by rewrite Hmi).
      destruct (wf_registered s (mirror K') Mi K' p Hwf HMi HK' Hp) as (P & HP & Hin).
      destruct (Hlive p P (mirror K') HP Hin H1 H2) as (P' & -> & _). eauto.
  - intros k K' Hk. unfold bound_ok.
    destruct (decide (k = e)) as [->|Hke]; [|destruct (decide (k = m)) as [->|Hkm]].
    + rewrite He' in Hk. injection Hk as <-. simpl. by rewrite HtE.
    + rewrite Hm' in Hk. injection Hk as <-. simpl. by rewrite HtM.
    + rewrite Hother in Hk by done. rewrite Htri. apply (W3 k K' Hk).
  - rewrite Htri. intros t1 T1 HT1. unfold sides_ok. apply Forall_forall.
    intros k Hk. destruct (wf_sides s t1 T1 k Hwf HT1 Hk) as (K & HK & HtK).
    rewrite Hother, HK;
      [simpl; by rewrite HtK|intros ->; congruence|intros ->; congruence].
  - intros p P'. rewrite Hpoints. intros HP'.
    destruct (points s !! p) as [P|] eqn:HP; [|done]. simpl in HP'.
    unfold point_after_removal in HP'. case_decide; [done|]. injection HP' as <-.
    intros i Hi. simpl in Hi.
    assert (i ∈ outgoing_edges P) as Hi0 by set_solver.
    pose proof (wf_outgoing s p P i Hwf HP Hi0) as Hsi.
    assert (i ≠ e) as Hie.
    { intros ->. assert (p = a) as -> by congruence.
      rewrite decide_True in Hi by done. set_solver. }
    assert (i ≠ m) as Him.
    { intros ->. assert (p = b) as -> by congruence.
      rewrite (decide_True (P := b = b)) in Hi by done. set_solver. }
    destruct (edges s !! i) as [K|] eqn:HK.
    + by rewrite (Hstart_other i K HK Hie Him).
    + unfold start_of in Hsi. by rewrite HK in Hsi.
  - intros k K' Hk. unfold registered_ok.
    destruct (decide (k = e)) as [->|Hke]; [|destruct (decide (k = m)) as [->|Hkm]].
    + by rewrite Hse'.
    + by rewrite Hsm'.
    + rewrite Hother in Hk by done. rewrite (Hstart_other k K' Hk Hke Hkm).
      specialize (W6 k K' Hk). unfold registered_ok in W6.
      destruct (start_of s k) as [p|]; [|done].
      destruct (points s !! p) as [P|] eqn:HP; [|done].
      by destruct (Hlive p P k HP W6 Hke Hkm) as (P' & -> & ?).
  - intros p P'. rewrite Hpoints. intros HP'.
    destruct (points s !! p) as [P|] eqn:HP; [|done]. simpl in HP'.
    unfold point_after_removal in HP'. case_decide; [done|]. injection HP' as <-.
    specialize (W7 p P HP). unfold references_ok in *. simpl.
    destruct (decide (p = a)) as [Hpa|Hpa], (decide (p = b)) as [Hpb|Hpb].
    + subst p. subst b.
      assert (P = Pa) as -> by congruence. assert (Pb = Pa) as -> by congruence.
      rewrite size_without by set_solver. rewrite size_without by done.
      pose proof (size_at_least_two _ e m (not_eq_sym Hne) Hea Hmb). lia.
    + subst p. assert (P = Pa) as -> by congruence.
      replace (outgoing_edges Pa ∖ {[e]} ∖ ∅) with (outgoing_edges Pa ∖ {[e]})
        by set_solver.
      rewrite size_without by done.
      pose proof (size_at_least_one _ e Hea). lia.
    + subst p. assert (P = Pb) as -> by congruence.
      replace (outgoing_edges Pb ∖ ∅ ∖ {[m]}) with (outgoing_edges Pb ∖ {[m]})
        by set_solver.
      rewrite size_without by done.
      pose proof (size_at_least_one _ m Hmb). lia.
    + replace (outgoing_edges P ∖ ∅ ∖ ∅) with (outgoing_edges P) by set_solver. lia.
Qed.

(** [p2tr_edge_remove] keeps a store well-formed. *)
Lemma p2tr_edge_remove_wf s e E s' :
  wf s → edges s !! e = Some E →
  p2tr_edge_remove e s = Ret (tt, s') → wf s'.
Proof.
  intros Hwf He Hrun. destruct (end_ E) as [b|] eqn:Hend.
  - destruct (p2tr_edge_remove_run s e E b Hwf He Hend)
      as (Mr & a & Pa & Pb & s1 & s2 & Hm & Hne & Hstart & Ha & Hb & Hrun1 & _ & _ &
          He1 & Hm1 & _ & Hrun2 & He2 & _ & _ & _ & _ & Hrun').
    rewrite Hrun' in Hrun.
    destruct (remove_notify_frame _ _ _ _ Hrun) as (Hp' & He' & Ht').
    apply (wf_same_objects s2 s' Hp' He' Ht').
    pose proof (remove_bound_triangles_wf s e E s1 Hwf He Hrun1) as Hwf1.
    apply (remove_detach_wf s1 e (set_tri None E) a b s2); try done.
    + unfold start_of. rewrite He1. simpl. rewrite Hm1. done.
    + simpl. by rewrite Hm1.
  - unfold p2tr_edge_remove in Hrun.
    rewrite (bind_run _ _ _ _ _ (get_edge_run _ _ _ He)), Hend in Hrun.
    by injection Hrun as <-.
Qed.

(** ** The history of calls *)

Lemma bind_inv {A B : Type} (m : M A) (f : A → M B) s b s' :
  bind m f s = Ret (b, s') → ∃ a s1, m s = Ret (a, s1) ∧ f a s1 = Ret (b, s').
Proof. unfold bind. destruct (m s) as [[a s1]| |]; [eauto|done..]. Qed.

Ltac split_binds H :=
  repeat match type of H with
         | bind _ _ _ = Ret _ =>
             let a := fresh "a" in
             let s := fresh "s" in
             let Hm := fresh "Hm" in
             apply bind_inv in H as (a & s & Hm & H)
         end.

Lemma get_edge_same e s E s' : get_edge e s = Ret (E, s') → s' = s.
Proof. unfold get_edge. destruct (edges s !! e); [|done]. by intros [= _ <-]. Qed.

Lemma get_triangle_same t s T s' : get_triangle t s = Ret (T, s') → s' = s.
Proof.
  unfold get_triangle. destruct (triangles s !! t); [|done]. by intros [= _ <-].
Qed.

Lemma put_edge_history e E s u s' :
  put_edge e E s = Ret (u, s') → history s' = history s.
Proof. unfold put_edge. by intros [= _ <-]. Qed.

Lemma clear_tri_history e s u s' :
  clear_tri e s = Ret (u, s') → history s' = history s.
Proof.
  unfold clear_tri. intros H. split_binds H.
  apply get_edge_same in Hm as ->. by apply put_edge_history in H.
Qed.

Lemma _p2tr_point_remove_edge_history p e s u s' :
  _p2tr_point_remove_edge p e s = Ret (u, s') → history s' = history s.
Proof.
  unfold _p2tr_point_remove_edge, bind, get_point, put_point.
  destruct p as [a|]; simpl; [|done].
  destruct (points s !! a); [|done]. by intros [= _ <-].
Qed.

Lemma p2tr_point_unref_history p s u s' :
  p2tr_point_unref p s = Ret (u, s') → history s' = history s.
Proof.
  unfold p2tr_point_unref, bind, get_point, put_point.
  destruct p as [a|]; simpl; [|done].
  destruct (points s !! a); [|done].
  destruct (_ =? 0); by intros [= _ <-].
Qed.

(** Detaching and tombstoning call neither triangle.c nor mesh.c. *)
Lemma remove_detach_history e a b s u s' :
  remove_detach e a b s = Ret (u, s') → history s' = history s.
Proof.
  unfold remove_detach. intros H. split_binds H.
  repeat match goal with
         | Hg : get_edge _ _ = Ret _ |- _ => apply get_edge_same in Hg; subst
         | Hg : put_edge _ _ _ = Ret _ |- _ => apply put_edge_history in Hg
         | Hg : _p2tr_point_remove_edge _ _ _ = Ret _ |- _ =>
             apply _p2tr_point_remove_edge_history in Hg
         | Hg : p2tr_point_unref _ _ = Ret _ |- _ =>
             apply p2tr_point_unref_history in Hg
         end.
  congruence.
Qed.

(** [p2tr_triangle_remove] is entered with the objects as its caller left
    them. *)
Lemma p2tr_triangle_remove_history t s u s' :
  p2tr_triangle_remove t s = Ret (u, s') →
  history s' = history s ++ [(call_triangle_remove t, heap_of s)].
Proof.
  unfold p2tr_triangle_remove. intros H. split_binds H.
  unfold enter in Hm. injection Hm as _ <-.
  apply get_triangle_same in Hm0 as ->.
  destruct (tri_edges a0) as [[e0 e1] e2]. split_binds H.
  apply clear_tri_history in Hm, Hm0, Hm1.
  injection H as _ <-. simpl in *. congruence.
Qed.

Lemma remove_bound_triangle_history s e E u s' :
  edges s !! e = Some E → remove_bound_triangle e s = Ret (u, s') →
  history s' = history s ++ match tri E with
                            | Some t => [(call_triangle_remove t, heap_of s)]
                            | None => []
                            end.
Proof.
  intros He. unfold remove_bound_triangle.
  rewrite (bind_run _ _ _ _ _ (get_edge_run _ _ _ He)).
  destruct (tri E) as [t|].
  - apply p2tr_triangle_remove_history.
  - intros [= _ <-]. by rewrite app_nil_r.
Qed.

(** The cascade: nothing but triangle removals, each entered while both
    directions are still installed; and the triangle bound to either
    direction is among them. *)
Lemma remove_bound_triangles_history s e E Mr a b s1 :
  wf s → edges s !! e = Some E → edges s !! mirror E = Some Mr →
  end_ E = Some b → end_ Mr = Some a →
  remove_bound_triangles e s = Ret (tt, s1) →
  ∃ cascade,
    history s1 = history s ++ cascade ∧
    Forall (λ ev, triangle_removal ev ∧ installed_in ev.2 e b ∧
                  installed_in ev.2 (mirror E) a) cascade ∧
    ∀ t, tri E = Some t ∨ tri Mr = Some t →
         ∃ h, (call_triangle_remove t, h) ∈ cascade ∧
              is_Some (heap_triangles h !! t).
Proof.
  intros Hwf He Hm Hend Hstart Hrun.
  destruct (remove_bound_triangle_run s e E He)
    as (sA & lA & HrunA & _ & _ & HeA & HtA).
  { intros t Ht. destruct (wf_bound s e E t Hwf He Ht) as (T & HT & _).
    exists T. split; [done|]. by apply (wf_sides_live s t T). }
  pose proof (remove_bound_triangle_history s e E tt sA He HrunA) as HhA.
  unfold remove_bound_triangles in Hrun.
  rewrite (bind_run _ _ _ _ _ HrunA) in Hrun.
  assert (∃ EA, edges sA !! e = Some EA ∧ mirror EA = mirror E) as (EA & HEA & HmEA).
  { rewrite HeA, He. simpl. eexists. split; [done|]. by case_decide. }
  rewrite (bind_run _ _ _ _ _ (get_edge_run _ _ _ HEA)), HmEA in Hrun.
  assert (∃ MA, edges sA !! mirror E = Some MA ∧
                (tri MA = tri Mr ∨ (mirror E ∈ lA ∧ tri MA = None)))
    as (MA & HMA & HtMA).
  { rewrite HeA, Hm. simpl. eexists. split; [done|].
    case_decide; [right|left]; done. }
  pose proof (remove_bound_triangle_history sA (mirror E) MA tt s1 HMA Hrun) as HhB.
  assert (installed_in (heap_of s) e b ∧ installed_in (heap_of s) (mirror E) a)
    as [Hs_e Hs_m].
  { unfold installed_in, heap_of. simpl.
    split; [by rewrite He; simpl; rewrite Hend|by rewrite Hm; simpl; rewrite Hstart]. }
  assert (installed_in (heap_of sA) e b ∧ installed_in (heap_of sA) (mirror E) a)
    as [HA_e HA_m].
  { unfold installed_in, heap_of. simpl. rewrite !HeA, He, Hm. simpl.
    split; case_decide; simpl; by rewrite ?Hend, ?Hstart. }
  eexists. split; [by rewrite HhB, HhA, <- app_assoc|]. split.
  - apply Forall_app. split.
    + destruct (tri E) as [t|]; [|done]. apply Forall_singleton.
      split; [by exists t|done].
    + destruct (tri MA) as [t|]; [|done]. apply Forall_singleton.
      split; [by exists t|done].
  - intros t Ht.
    assert (tri E = Some t ∨ (tri E ≠ Some t ∧ tri Mr = Some t)) as [HtE|[HtE HtM]].
    { destruct (decide (tri E = Some t)); [by left|right]. split; [done|].
      by destruct Ht. }
    + destruct (wf_bound s e E t Hwf He HtE) as (T & HT & _).
      exists (heap_of s). rewrite HtE. split; [|by simpl; rewrite HT].
      apply elem_of_app. left. apply list_elem_of_singleton. done.
    + destruct (wf_bound s (mirror E) Mr t Hwf Hm HtM) as (T & HT & _).
      assert (tri MA = Some t ∧ triangles sA !! t = Some T) as [HtMA' HTA].
      { destruct (tri E) as [te|] eqn:HtE'.
        - destruct HtA as (HtriA & Te & HTe & ->).
          assert (te ≠ t) as Hne by congruence.
          split; [|by rewrite HtriA, lookup_delete_ne].
          destruct HtMA as [-> | [Hin _]]; [done|].
          destruct (wf_sides s te Te (mirror E) Hwf HTe Hin) as (M' & HM' & HtM').
          congruence.
        - destruct HtA as (HtriA & ->). split; [|by rewrite HtriA].
          destruct HtMA as [-> | [Hin _]]; [done|]. by apply elem_of_nil in Hin. }
      exists (heap_of sA). rewrite HtMA'. split; [|by simpl; rewrite HTA].
      apply elem_of_app. right. apply list_elem_of_singleton. done.
Qed.

(** ** The order of the phases of [p2tr_edge_remove] *)

(** C4. In a well-formed store, when the mirror of an installed half-edge
    (or the half-edge itself) is bound to a triangle, [p2tr_edge_remove]
    starts with the cascade: in the store [s1] it leaves, the triangle is
    released and both directions are unbound, while the edge is not yet
    tombstoned; the remaining phases run from [s1], and in the final store
    the triangle is still gone and the bindings are still cleared. The
    history tells the order: every call of [p2tr_triangle_remove] the
    removal makes is made in the cascade and is entered while both
    directions are still installed, the call for the bound triangle is one
    of them and finds the triangle there, no such call comes later, and at
    the end both directions are tombstoned. *)
Theorem p2tr_edge_remove_cascades s e E Mr b t :
  wf s → edges s !! e = Some E → end_ E = Some b →
  edges s !! mirror E = Some Mr → tri Mr = Some t ∨ tri E = Some t →
  ∃ a ms s1 s' cascade notes h,
    remove_bound_triangles e s = Ret (tt, s1) ∧
    triangles s1 !! t = None ∧
    tri <$> edges s1 !! e = Some None ∧
    tri <$> edges s1 !! mirror E = Some None ∧
    p2tr_edge_is_removed e s1 = Ret (false, s1) ∧
    (remove_detach e (Some a) (Some b);; remove_notify e ms) s1 = Ret (tt, s') ∧
    p2tr_edge_remove e s = Ret (tt, s') ∧
    triangles s' !! t = None ∧
    tri <$> edges s' !! e = Some None ∧
    tri <$> edges s' !! mirror E = Some None ∧
    history s1 = history s ++ cascade ∧
    history s' = history s1 ++ notes ∧
    Forall (λ ev, triangle_removal ev ∧ installed_in ev.2 e b ∧
                  installed_in ev.2 (mirror E) a) cascade ∧
    (call_triangle_remove t, h) ∈ cascade ∧
    is_Some (heap_triangles h !! t) ∧
    Forall (λ ev, ¬ triangle_removal ev) notes ∧
    p2tr_edge_is_removed e s' = Ret (true, s') ∧
    p2tr_edge_is_removed (mirror E) s' = Ret (true, s').
Proof.
  intros Hwf He Hend Hm Ht.
  destruct (p2tr_edge_remove_run s e E b Hwf He Hend)
    as (Mr' & a & Pa & Pb & s1 & s2 & Hm' & Hne & Hstart & Ha & Hb & Hrun1 & _ & _ &
        He1 & Hm1 & Htri1 & Hrun2 & He2 & Hm2 & Htri2 & _ & _ & Hrun).
  assert (Mr' = Mr) as -> by congruence.
  destruct (remove_bound_triangles_history s e E Mr a b s1 Hwf He Hm Hend Hstart Hrun1)
    as (cascade & Hh1 & Hcascade & Hbound).
  destruct (Hbound t ltac:(tauto)) as (h & Hin & Hthere).
  pose proof (remove_detach_history _ _ _ _ _ _ Hrun2) as Hh2.
  assert (∃ s' notes, remove_notify e (mesh Pb) s2 = Ret (tt, s') ∧
            heap_of s' = heap_of s2 ∧ history s' = history s2 ++ notes ∧
            Forall (λ ev, ¬ triangle_removal ev) notes)
    as (s' & notes & Hnotify & Hheap & Hh' & Hnotes).
  { destruct (mesh Pb) as [ms|].
    - rewrite (remove_notify_run s2 e _ ms He2).
      eexists _, _. split; [done|]. split; [done|]. split; [done|].
      apply Forall_cons. split; [intros [t' Ht']; discriminate|].
      apply Forall_cons. split; [intros [t' Ht']; discriminate|].
      apply Forall_nil_2.
    - exists s2, []. split; [done|]. split; [done|].
      split; [by rewrite app_nil_r|done]. }
  assert (edges s' = edges s2 ∧ triangles s' = triangles s2) as [He' Htri'].
  { unfold heap_of in Hheap. by injection Hheap. }
  assert (triangles s1 !! t = None) as Hgone by (apply Htri1; tauto).
  exists a, (mesh Pb), s1, s', cascade, notes, h.
  split; [done|]. split; [done|].
  split; [by rewrite He1|]. split; [by rewrite Hm1|].
  split; [by rewrite (p2tr_edge_is_removed_run _ _ _ He1); cbn [end_ set_tri]; rewrite Hend|].
  split; [by rewrite (bind_run _ _ _ _ _ Hrun2)|].
  split; [by rewrite Hrun|].
  rewrite <- He' in He2, Hm2.
  split; [by rewrite Htri', Htri2|].
  split; [by rewrite He2|]. split; [by rewrite Hm2|].
  split; [done|]. split; [by rewrite Hh', Hh2|].
  split; [done|]. split; [done|]. split; [done|]. split; [done|].
  by rewrite (p2tr_edge_is_removed_run _ _ _ He2),
             (p2tr_edge_is_removed_run _ _ _ Hm2).
Qed.

Lemma p2tr_edge_remove_cascades_witness :
  ∃ a ms s1 s' cascade notes h,
    remove_bound_triangles 2%positive triangle_store = Ret (tt, s1) ∧
    triangles s1 !! 1%positive = None ∧
    tri <$> edges s1 !! 2%positive = Some None ∧
    tri <$> edges s1 !! 1%positive = Some None ∧
    p2tr_edge_is_removed 2%positive s1 = Ret (false, s1) ∧
    (remove_detach 2%positive (Some a) (Some 1%positive);;
     remove_notify 2%positive ms) s1 = Ret (tt, s') ∧
    p2tr_edge_remove 2%positive triangle_store = Ret (tt, s') ∧
    triangles s' !! 1%positive = None ∧
    tri <$> edges s' !! 2%positive = Some None ∧
    tri <$> edges s' !! 1%positive = Some None ∧
    history s1 = history triangle_store ++ cascade ∧
    history s' = history s1 ++ notes ∧
    Forall (λ ev, triangle_removal ev ∧ installed_in ev.2 2%positive 1%positive ∧
                  installed_in ev.2 1%positive a) cascade ∧
    (call_triangle_remove 1%positive, h) ∈ cascade ∧
    is_Some (heap_triangles h !! 1%positive) ∧
    Forall (λ ev, ¬ triangle_removal ev) notes ∧
    p2tr_edge_is_removed 2%positive s' = Ret (true, s') ∧
    p2tr_edge_is_removed 1%positive s' = Ret (true, s').
Proof.
  apply (p2tr_edge_remove_cascades triangle_store 2%positive
           (half_edge (0 - 0) (0 - 1) (Some 1%positive) 1 0 None)
           (half_edge (0 - 0) (1 - 0) (Some 2%positive) 2 1 (Some 1%positive))
           1%positive 1%positive).
  - by apply (bool_decide_unpack _); vm_compute.
  - reflexivity.
  - reflexivity.
  - reflexivity.
  - left. reflexivity.
Defined.

(** C9. In a well-formed store, when the mesh of an installed half-edge
    resolves to [ms] on entry, [p2tr_edge_remove] first brings the store to
    [s2] and calls, on the way, nothing but [p2tr_triangle_remove]: in [s2]
    both directions are tombstoned and detached from the incident sets of
    their end points. Only then is [p2tr_mesh_on_edge_removed] called,
    once for the edge and then once for its mirror, which is a different
    half-edge, and both calls find the objects as they are in [s2]. The
    final store is [s2] with these two notifications. *)
Theorem p2tr_edge_remove_notifies s e E b ms :
  wf s → edges s !! e = Some E → end_ E = Some b →
  p2tr_edge_get_mesh e s = Ret (Some ms, s) →
  ∃ a s2 s' cascade,
    start_of s e = Some a ∧
    (remove_bound_triangles e;; remove_detach e (Some a) (Some b)) s = Ret (tt, s2) ∧
    removed_log s2 = removed_log s ∧
    history s2 = history s ++ cascade ∧
    Forall triangle_removal cascade ∧
    p2tr_edge_is_removed e s2 = Ret (true, s2) ∧
    p2tr_edge_is_removed (mirror E) s2 = Ret (true, s2) ∧
    (∀ p P, p = a ∨ p = b → points s2 !! p = Some P →
            (e ∉ outgoing_edges P) ∧ (mirror E ∉ outgoing_edges P)) ∧
    p2tr_edge_remove e s = Ret (tt, s') ∧
    heap_of s' = heap_of s2 ∧
    removed_log s' = removed_log s ++ [(ms, e); (ms, mirror E)] ∧
    history s' = history s2
                 ++ [(call_on_edge_removed ms e, heap_of s2);
                     (call_on_edge_removed ms (mirror E), heap_of s2)] ∧
    mirror E ≠ e.
Proof.
  intros Hwf He Hend Hmesh.
  destruct (p2tr_edge_remove_run s e E b Hwf He Hend)
    as (Mr & a & Pa & Pb & s1 & s2 & Hm & Hne & Hstart & Ha & Hb & Hrun1 & _ & _ &
        _ & _ & _ & Hrun2 & He2 & Hm2 & _ & Hlog2 & Hout & Hrun).
  rewrite (p2tr_edge_get_mesh_run _ _ _ _ _ He Hend Hb) in Hmesh.
  injection Hmesh as Hmesh. rewrite Hmesh in Hrun.
  rewrite (remove_notify_run s2 e _ ms He2) in Hrun. cbn [mirror set_end set_tri] in Hrun.
  destruct (remove_bound_triangles_history s e E Mr a b s1 Hwf He Hm Hend Hstart Hrun1)
    as (cascade & Hh1 & Hcascade & _).
  pose proof (remove_detach_history _ _ _ _ _ _ Hrun2) as Hh2.
  eexists a, s2, _, cascade.
  split; [unfold start_of; rewrite He; simpl; by rewrite Hm|].
  split; [by rewrite (bind_run _ _ _ _ _ Hrun1)|].
  split; [done|]. split; [by rewrite Hh2|].
  split; [by eapply Forall_impl; [exact Hcascade|]; intros ev [? _]|].
  split; [by rewrite (p2tr_edge_is_removed_run _ _ _ He2)|].
  split; [by rewrite (p2tr_edge_is_removed_run _ _ _ Hm2)|].
  split; [done|]. split; [exact Hrun|]. split; [done|].
  split; [by simpl; rewrite Hlog2|]. split; [done|]. done.
Qed.

Lemma p2tr_edge_remove_notifies_witness :
  ∃ a s2 s' cascade,
    start_of triangle_store 1%positive = Some a ∧
    (remove_bound_triangles 1%positive;;
     remove_detach 1%positive (Some a) (Some 2%positive)) triangle_store = Ret (tt, s2) ∧
    removed_log s2 = removed_log triangle_store ∧
    history s2 = history triangle_store ++ cascade ∧
    Forall triangle_removal cascade ∧
    p2tr_edge_is_removed 1%positive s2 = Ret (true, s2) ∧
    p2tr_edge_is_removed 2%positive s2 = Ret (true, s2) ∧
    (∀ p P, p = a ∨ p = 2%positive → points s2 !! p = Some P →
            (1%positive ∉ outgoing_edges P) ∧ (2%positive ∉ outgoing_edges P)) ∧
    p2tr_edge_remove 1%positive triangle_store = Ret (tt, s') ∧
    heap_of s' = heap_of s2 ∧
    removed_log s' = removed_log triangle_store
                     ++ [(1%positive, 1%positive); (1%positive, 2%positive)] ∧
    history s' = history s2
                 ++ [(call_on_edge_removed 1%positive 1%positive, heap_of s2);
                     (call_on_edge_removed 1%positive 2%positive, heap_of s2)] ∧
    2%positive ≠ 1%positive.
Proof.
  apply (p2tr_edge_remove_notifies triangle_store 1%positive
           (half_edge (0 - 0) (1 - 0) (Some 2%positive) 2 1 (Some 1%positive))
           2%positive 1%positive).
  - by apply (bool_decide_unpack _); vm_compute.
  - reflexivity.
  - reflexivity.
  - reflexivity.
Defined.

(** ** [p2tr_edge_unref] and [p2tr_edge_free] *)

(** While the count of the edge stays above zero after the decrement, or
    the mirror is still referenced, [p2tr_edge_unref] only writes the
    decremented count: no storage is released. *)
Lemma p2tr_edge_unref_keeps s e E Mr :
  edges s !! e = Some E → mirror E ≠ e → edges s !! mirror E = Some Mr →
  refcount E - 1 ≠ 0 ∨ refcount Mr ≠ 0 →
  p2tr_edge_unref e s
  = Ret (tt, with_edges <[e := set_refcount (refcount E - 1) E]> s).
Proof.
  intros He Hne Hm Hcount. unfold p2tr_edge_unref.
  rewrite (bind_run _ _ _ _ _ (get_edge_run _ _ _ He)).
  step with (reflexivity).
  destruct (refcount E - 1 =? 0) eqn:Hzero; [|done].
  step with (apply get_edge_run; simpl; rewrite lookup_insert_ne by done;
             exact Hm).
  destruct (refcount Mr =? 0) eqn:Hzero'; [|done]. lia.
Qed.

(** With the last reference on the edge, and none on the mirror,
    [p2tr_edge_unref] hands over to [p2tr_edge_free]. *)
Lemma p2tr_edge_unref_last s e E Mr :
  edges s !! e = Some E → mirror E ≠ e → edges s !! mirror E = Some Mr →
  refcount E = 1 → refcount Mr = 0 →
  p2tr_edge_unref e s
  = p2tr_edge_free e (with_edges <[e := set_refcount 0 E]> s).
Proof.
  intros He Hne Hm Hone Hzero. unfold p2tr_edge_unref.
  rewrite (bind_run _ _ _ _ _ (get_edge_run _ _ _ He)).
  step with (reflexivity).
  rewrite Hone. simpl.
  step with (apply get_edge_run; simpl; rewrite lookup_insert_ne by done;
             exact Hm).
  by rewrite Hzero.
Qed.

(** [p2tr_edge_free] never completes: whenever the removal and the first
    [g_slice_free] go through, [self->mirror] is read from the storage that
    was just released. *)
Lemma p2tr_edge_free_never_returns s e r : p2tr_edge_free e s ≠ Ret r.
Proof.
  unfold p2tr_edge_free, bind.
  destruct (p2tr_edge_remove e s) as [[[] s1]| |]; [|done..].
  unfold g_slice_free. destruct (edges s1 !! e); [|done].
  unfold get_edge. simpl. by rewrite lookup_delete_eq.
Qed.

(** C5. The edge pair created by [p2tr_edge_new] holds one reference on the
    forward edge and none on the mirror. Giving that reference back makes
    [p2tr_edge_unref] write the count 0 and, the mirror's count being 0 as
    well, call [p2tr_edge_free]. There the removal and the release of the
    edge go through and leave the mirror allocated; the address of the
    mirror is then read from the released edge. The call is undefined: the
    pair is not released as a whole. *)
Theorem p2tr_edge_unref_last_reference :
  p2tr_edge_new (Some 1%positive) (Some 2%positive) false three_points
    = Ret (1%positive, east_edge) ∧
  p2tr_edge_unref 1%positive east_edge
    = p2tr_edge_free 1%positive
        (with_edges <[1%positive := half_edge (0 - 0) (1 - 0) (Some 2%positive) 2 0 None]>
           east_edge) ∧
  p2tr_edge_remove 1%positive
    (with_edges <[1%positive := half_edge (0 - 0) (1 - 0) (Some 2%positive) 2 0 None]>
       east_edge)
    = Ret (tt, unreferenced_pair) ∧
  g_slice_free 1%positive unreferenced_pair = Ret (tt, mirror_left_behind) ∧
  edges mirror_left_behind !! 1%positive = None ∧
  is_Some (edges mirror_left_behind !! 2%positive) ∧
  get_edge 1%positive mirror_left_behind = Undefined ∧
  p2tr_edge_unref 1%positive east_edge = Undefined.
Proof.
  split; [reflexivity|].
  split; [by apply (p2tr_edge_unref_last east_edge 1%positive
                      (half_edge (0 - 0) (1 - 0) (Some 2%positive) 2 1 None)
                      (half_edge (0 - 0) (0 - 1) (Some 1%positive) 1 0 None))|].
  repeat (split; [reflexivity|]).
  split; [vm_compute; eauto|]. split; reflexivity.
Qed.

(** ** [read_points_file] *)


Lemma scan_floats_length n ts vs r :
  Main.scan_floats n ts = (vs, r) → (length ts = length vs + length r)%nat.
Proof.
  revert ts vs r. induction n as [|n IH]; intros ts vs r.
  - simpl. by intros [= <- <-].
  - simpl. destruct ts as [|[| |v|] ts]; try by intros [= <- <-].
    destruct (Main.scan_floats n ts) as [vs' r'] eqn:Hscan.
    intros [= <- <-]. simpl. by rewrite (IH ts vs' r').
Qed.

(** A successful [fscanf] takes at least one token off the stream. *)
Lemma fscanf_consumes mark n f k vs f' :
  Main.fscanf mark n f = (k, vs, f') → 0 < k →
  (length (Main.rest f') < length (Main.rest f))%nat.
Proof.
  unfold Main.fscanf. destruct (Main.rest f) as [|t ts].
  - intros [= <- <- <-]. done.
  - destruct (mark t); [|intros [= <- <- <-]; lia].
    destruct (Main.scan_floats n ts) as [vs' r] eqn:Hscan.
    apply scan_floats_length in Hscan.
    destruct r as [|t' r]; intros [= <- <- <-] _; simpl in *; lia.
Qed.

Lemma fscanf_rest mark n f k vs f' :
  Main.fscanf mark n f = (k, vs, f') →
  (length (Main.rest f') ≤ length (Main.rest f))%nat.
Proof.
  unfold Main.fscanf. destruct (Main.rest f) as [|t ts] eqn:Hrest.
  - intros [= <- <- <-]. done.
  - destruct (mark t); [|intros [= <- <- <-]; by rewrite Hrest].
    destruct (Main.scan_floats n ts) as [vs' r] eqn:Hscan.
    apply scan_floats_length in Hscan.
    destruct r as [|t' r]; intros [= <- <- <-]; simpl in *; lia.
Qed.

(** An iteration that goes round again has read a point or a colour. *)
Lemma read_points_iteration_consumes beyond r r' :
  Main.read_points_iteration beyond r = Main.Continue r' →
  (length (Main.rest (Main.f r')) < length (Main.rest (Main.f r)))%nat.
Proof.
  unfold Main.read_points_iteration.
  destruct (Main.fscanf Main.is_at 2 (Main.f r)) as [[n1 vs1] f1] eqn:H1.
  destruct (_ && _); [done|].
  destruct (Main.fscanf Main.is_hash 3 f1) as [[n2 vs2] f2] eqn:H2.
  destruct (_ && _ && _); [done|].
  pose proof (fscanf_rest _ _ _ _ _ _ H1) as Hle1.
  pose proof (fscanf_rest _ _ _ _ _ _ H2) as Hle2.
  destruct (0 <? n2) eqn:Hn2; destruct (0 <? n1) eqn:Hn1; simpl;
    intros [= <-]; simpl.
  - apply Z.ltb_lt in Hn2. pose proof (fscanf_consumes _ _ _ _ _ _ H2 Hn2). lia.
  - apply Z.ltb_lt in Hn2. pose proof (fscanf_consumes _ _ _ _ _ _ H2 Hn2). lia.
  - apply Z.ltb_lt in Hn1. pose proof (fscanf_consumes _ _ _ _ _ _ H1 Hn1). lia.
Qed.

(** The loop ends within as many iterations as there are tokens, plus
    one. *)
Lemma read_points_loop_total fuel frame i r :
  (length (Main.rest (Main.f r)) < fuel)%nat →
  is_Some (Main.read_points_loop fuel frame i r).
Proof.
  revert i r. induction fuel as [|fuel IH]; intros i r Hfuel; [lia|].
  simpl. destruct (Main.at_eof (Main.f r)); [eauto|].
  destruct (Main.read_points_iteration (frame i) r) as [r'|r'|msg] eqn:Hit;
    [|eauto..].
  apply IH. apply read_points_iteration_consumes in Hit. lia.
Qed.

Lemma read_points_file_total input want_points want_colors frame :
  is_Some (Main.read_points_file input want_points want_colors frame).
Proof. unfold Main.read_points_file. apply read_points_loop_total. simpl. lia. Qed.

(** The sample file, read with both output arrays: the colours array ends
    up with the two point buffers, (1.5, 2) and (0, 0), each followed by the
    word found behind the buffer. *)
Lemma read_points_file_sample frame :
  Main.read_points_file Main.sample_input true true frame
  = Some (inr {| Main.f := {| Main.rest := []; Main.at_eof := true |};
                 Main.points := Some [(Main.f1_5, Main.f2_0)];
                 Main.colors := Some [(Main.f1_5, Main.f2_0, frame 0%nat);
                                      (Main.zero, Main.zero, frame 1%nat)];
                 Main.countPts := 1; Main.countCls := 2 |}).
Proof. reflexivity. Qed.




(** * Further properties of edge.c *)

(** ** Creation *)

(** X1. [p2tr_edge_new] on two allocated points takes two addresses that
    were not in use, leaves every other edge, every triangle and the
    notifications as they were, and sets up the pair unbound, not Delaunay,
    with the given flag and with both stored angles in (-PI, PI]. The start
    point gains the forward edge and the end point the mirror in their
    incident sets, each with one more reference (two for one and the same
    point). *)
Theorem p2tr_edge_new_registers s a b k Pa Pb :
  points s !! a = Some Pa → points s !! b = Some Pb →
  ∃ e m s' E Mr,
    p2tr_edge_new (Some a) (Some b) k s = Ret (e, s') ∧
    e ≠ m ∧ edges s !! e = None ∧ edges s !! m = None ∧
    edges s' !! e = Some E ∧ edges s' !! m = Some Mr ∧ mirror E = m ∧
    (∀ i, i ≠ e → i ≠ m → edges s' !! i = edges s !! i) ∧
    constrained E = k ∧ constrained Mr = k ∧
    delaunay E = false ∧ delaunay Mr = false ∧
    tri E = None ∧ tri Mr = None ∧
    normalised_angle (angle E) ∧ normalised_angle (angle Mr) ∧
    (∀ p, points s' !! p = with_new_edge a b e m p <$> points s !! p) ∧
    triangles s' = triangles s ∧ removed_log s' = removed_log s.
Proof.
  intros Ha Hb.
  destruct (p2tr_edge_new_run s a b k Pa Pb Ha Hb)
    as (s' & Hrun & Hne & Hfe & Hfm & Hedges & Hpoints & Htri & Hlog).
  eexists _, _, s', _, _. split; [exact Hrun|].
  split; [exact Hne|]. split; [exact Hfe|]. split; [exact Hfm|].
  split; [by rewrite Hedges, lookup_insert_eq|].
  split; [by rewrite Hedges, lookup_insert_ne, lookup_insert_eq|].
  split; [reflexivity|].
  split; [intros i Hie Him; by rewrite Hedges, !lookup_insert_ne|].
  cbn [constrained delaunay tri angle].
  repeat (split; [reflexivity|]).
  split; [apply atan2_range|]. split; [apply atan2_range|]. done.
Qed.

Lemma p2tr_edge_new_registers_witness :
  ∃ e m s' E Mr,
    p2tr_edge_new (Some 1%positive) (Some 2%positive) true three_points
      = Ret (e, s') ∧
    e ≠ m ∧ edges three_points !! e = None ∧ edges three_points !! m = None ∧
    edges s' !! e = Some E ∧ edges s' !! m = Some Mr ∧ mirror E = m ∧
    (∀ i, i ≠ e → i ≠ m → edges s' !! i = edges three_points !! i) ∧
    constrained E = true ∧ constrained Mr = true ∧
    delaunay E = false ∧ delaunay Mr = false ∧
    tri E = None ∧ tri Mr = None ∧
    normalised_angle (angle E) ∧ normalised_angle (angle Mr) ∧
    (∀ p, points s' !! p
          = with_new_edge 1%positive 2%positive e m p <$> points three_points !! p) ∧
    triangles s' = triangles three_points ∧
    removed_log s' = removed_log three_points.
Proof.
  apply (p2tr_edge_new_registers three_points 1%positive 2%positive true
           (point_at 0 0 1 ∅) (point_at 1 0 1 ∅)); reflexivity.
Defined.

(** X2. [p2tr_edge_new] keeps the store well-formed: mirrors paired, end
    points allocated, triangle bindings consistent, incident sets made of
    the half-edges that start at the point, and no point with fewer
    references than registered half-edges. *)
Theorem p2tr_edge_new_keeps_wf s a b k :
  wf s → is_Some (points s !! a) → is_Some (points s !! b) →
  ∃ e s', p2tr_edge_new (Some a) (Some b) k s = Ret (e, s') ∧ wf s'.
Proof.
  intros Hwf [Pa Ha] [Pb Hb]. by apply (p2tr_edge_new_wf s a b k Pa Pb).
Qed.

Lemma p2tr_edge_new_keeps_wf_witness :
  ∃ e s', p2tr_edge_new (Some 3%positive) (Some 1%positive) false east_north
          = Ret (e, s') ∧ wf s'.
Proof.
  apply (p2tr_edge_new_keeps_wf east_north 3%positive 1%positive false).
  - by apply (bool_decide_unpack _); vm_compute.
  - by apply (bool_decide_unpack _); vm_compute.
  - by apply (bool_decide_unpack _); vm_compute.
Defined.

(** ** Removal *)

Lemma p2tr_edge_remove_early s e E :
  edges s !! e = Some E → end_ E = None → p2tr_edge_remove e s = Ret (tt, s).
Proof.
  intros He Hend. unfold p2tr_edge_remove.
  by rewrite (bind_run _ _ _ _ _ (get_edge_run _ _ _ He)), Hend.
Qed.

(** In a well-formed store [p2tr_edge_remove] completes on every allocated
    half-edge, installed or not. *)
Lemma p2tr_edge_remove_completes s e E :
  wf s → edges s !! e = Some E → ∃ s', p2tr_edge_remove e s = Ret (tt, s').
Proof.
  intros Hwf He. destruct (end_ E) as [b|] eqn:Hend.
  - destruct (p2tr_edge_remove_run s e E b Hwf He Hend)
      as (Mr & a & Pa & Pb & s1 & s2 & _ & _ & _ & _ & _ & _ & _ & _ & _ & _ & _ &
          _ & He2 & _ & _ & _ & _ & Hrun).
    rewrite Hrun. by apply (remove_notify_total s2 e _ (mesh Pb) He2).
  - exists s. by apply (p2tr_edge_remove_early s e E).
Qed.

(** X3. In a well-formed store [p2tr_edge_remove] completes on every
    allocated half-edge and leaves a well-formed store; and when the
    half-edge was installed, no triangle left in the store has it or its
    mirror as a side. *)
Theorem p2tr_edge_remove_keeps_wf s e E :
  wf s → edges s !! e = Some E →
  ∃ s', p2tr_edge_remove e s = Ret (tt, s') ∧ wf s' ∧
    (is_Some (end_ E) →
     ∀ t T, triangles s' !! t = Some T →
            (e ∉ triangle_sides T) ∧ (mirror E ∉ triangle_sides T)).
Proof.
  intros Hwf He. destruct (p2tr_edge_remove_completes s e E Hwf He) as [s' Hrun].
  pose proof (p2tr_edge_remove_wf s e E s' Hwf He Hrun) as Hwf'.
  exists s'. split; [done|]. split; [done|].
  intros [b Hend] t T HT.
  destruct (p2tr_edge_remove_run s e E b Hwf He Hend)
    as (Mr & a & Pa & Pb & s1 & s2 & _ & _ & _ & _ & _ & _ & _ & _ &
        _ & _ & _ & _ & He2 & Hm2 & _ & _ & _ & Hrun').
  rewrite Hrun' in Hrun.
  destruct (remove_notify_frame _ _ _ _ Hrun) as (_ & He' & _).
  rewrite <- He' in He2, Hm2.
  split; intros Hin;
    destruct (wf_sides s' t T _ Hwf' HT Hin) as (D & HD & HtD);
    rewrite HD in *; simplify_eq; discriminate.
Qed.

Lemma p2tr_edge_remove_keeps_wf_witness :
  ∃ s', p2tr_edge_remove 5%positive triangle_store = Ret (tt, s') ∧ wf s' ∧
    (is_Some (Some 1%positive) →
     ∀ t T, triangles s' !! t = Some T →
            (5%positive ∉ triangle_sides T) ∧ (6%positive ∉ triangle_sides T)).
Proof.
  apply (p2tr_edge_remove_keeps_wf triangle_store 5%positive
           (half_edge (0 - 1) (0 - 1) (Some 1%positive) 6 1 (Some 1%positive))).
  - by apply (bool_decide_unpack _); vm_compute.
  - reflexivity.
Defined.

Lemma remove_bound_triangle_frame s e E s' :
  wf s → edges s !! e = Some E →
  remove_bound_triangle e s = Ret (tt, s') →
  ∀ k, set_tri None <$> edges s' !! k = set_tri None <$> edges s !! k.
Proof.
  intros Hwf He Hrun.
  destruct (remove_bound_triangle_run s e E He) as (s'' & l & Hrun' & _ & _ & Hedges & _).
  { intros t Ht. destruct (wf_bound s e E t Hwf He Ht) as (T & HT & _).
    exists T. split; [done|]. by apply (wf_sides_live s t T). }
  assert (s'' = s') as -> by congruence.
  intros k. rewrite Hedges. destruct (edges s !! k) as [K|]; [|done].
  simpl. by case_decide.
Qed.

Lemma remove_bound_triangles_frame s e E s' :
  wf s → edges s !! e = Some E →
  remove_bound_triangles e s = Ret (tt, s') →
  points s' = points s ∧ removed_log s' = removed_log s ∧
  ∀ k, set_tri None <$> edges s' !! k = set_tri None <$> edges s !! k.
Proof.
  intros Hwf He Hrun.
  destruct (wf_mirror s e E Hwf He) as (_ & Mr & Hm & _).
  destruct (remove_bound_triangles_run s e E Mr Hwf He Hm)
    as (s1 & Hrun1 & Hp & Hl & _).
  assert (s1 = s') as -> by congruence. split; [done|]. split; [done|].
  clear Hrun1. unfold remove_bound_triangles, bind in Hrun.
  destruct (remove_bound_triangle e s) as [[[] sA]| |] eqn:HA; [|done..].
  pose proof (remove_bound_triangle_wf s e E sA Hwf He HA) as HwfA.
  pose proof (remove_bound_triangle_frame s e E sA Hwf He HA) as HfA.
  destruct (edges sA !! e) as [EA|] eqn:HEA.
  - rewrite (get_edge_run _ _ _ HEA) in Hrun.
    destruct (wf_mirror sA e EA HwfA HEA) as (_ & MrA & HMrA & _).
    pose proof (remove_bound_triangle_frame sA (mirror EA) MrA s' HwfA HMrA Hrun)
      as HfB.
    intros k. by rewrite HfB, HfA.
  - unfold get_edge in Hrun. by rewrite HEA in Hrun.
Qed.

(** The phases of [p2tr_edge_remove] with the stores they produce written
    out: the half-edges and the points after detaching and tombstoning. *)
Lemma p2tr_edge_remove_detail s e E b :
  wf s → edges s !! e = Some E → end_ E = Some b →
  ∃ Mr a Pa Pb s1 s2,
    edges s !! mirror E = Some Mr ∧ mirror E ≠ e ∧ end_ Mr = Some a ∧
    points s !! a = Some Pa ∧ points s !! b = Some Pb ∧
    remove_bound_triangles e s = Ret (tt, s1) ∧
    edges s2 = <[mirror E := set_end None (set_tri None Mr)]>
                 (<[e := set_end None (set_tri None E)]> (edges s1)) ∧
    (∀ p, points s2 !! p
          = points s !! p ≫= point_after_removal a b e (mirror E) p) ∧
    triangles s2 = triangles s1 ∧ removed_log s2 = removed_log s ∧
    p2tr_edge_remove e s = remove_notify e (mesh Pb) s2.
Proof.
  intros Hwf He Hend.
  destruct (p2tr_edge_remove_run s e E b Hwf He Hend)
    as (Mr & a & Pa & Pb & s1 & s2 & Hm & Hne & Hstart & Ha & Hb & Hrun1 & Hp1 & _ &
        He1 & Hm1 & _ & Hrun2 & _ & _ & Htri2 & Hlog2 & _ & Hrun).
  destruct (wf_installed s e E b Hwf He Hend)
    as (Mr' & a' & Pa' & Pb' & Hm' & _ & _ & Hstart' & Ha' & _ & _ & _ & _ & _ & Hloop).
  assert (Mr' = Mr) as -> by congruence.
  assert (a' = a) as -> by congruence.
  assert (Pa' = Pa) as -> by congruence.
  destruct (remove_detach_run s1 e (set_tri None E) (set_tri None Mr) a b Pa Pb)
    as (s2' & Hrun2' & Hedges2 & _ & _ & Hp2); try done; try congruence.
  assert (s2' = s2) as -> by congruence. cbn [mirror set_tri] in Hedges2, Hp2.
  exists Mr, a, Pa, Pb, s1, s2. split_and!; try done.
  intros p. by rewrite Hp2, Hp1.
Qed.

(** X4. [p2tr_edge_remove] releases no edge and touches no reference count:
    in a well-formed store the allocated half-edges are the same before and
    after, each one unchanged up to its end reference and its triangle
    binding, and only the removed pair loses its end references. *)
Theorem p2tr_edge_remove_keeps_edges s e E :
  wf s → edges s !! e = Some E →
  ∃ s', p2tr_edge_remove e s = Ret (tt, s') ∧
    dom (edges s') = dom (edges s) ∧
    (∀ k, set_end None <$> (set_tri None <$> edges s' !! k)
          = set_end None <$> (set_tri None <$> edges s !! k)) ∧
    (∀ k, k ≠ e → k ≠ mirror E →
          set_tri None <$> edges s' !! k = set_tri None <$> edges s !! k).
Proof.
  intros Hwf He.
  assert (∀ s' : Store,
            (∀ k, set_end None <$> (set_tri None <$> edges s' !! k)
                  = set_end None <$> (set_tri None <$> edges s !! k)) →
            dom (edges s') = dom (edges s)) as Hdom.
  { intros s' Hsame. apply set_eq. intros k. rewrite !elem_of_dom.
    specialize (Hsame k).
    destruct (edges s' !! k), (edges s !! k); simpl in Hsame;
      try done; split; intros [? ?]; done. }
  destruct (end_ E) as [b|] eqn:Hend.
  - destruct (p2tr_edge_remove_detail s e E b Hwf He Hend)
      as (Mr & a & Pa & Pb & s1 & s2 & Hm & Hne & _ & _ & _ & Hrun1 & Hedges2 & _ &
          _ & _ & Hrun).
    destruct (remove_bound_triangles_frame s e E s1 Hwf He Hrun1) as (_ & _ & Hf1).
    assert (edges s2 !! e = Some (set_end None (set_tri None E))) as He2.
    { rewrite Hedges2, lookup_insert_ne, lookup_insert_eq by done. done. }
    destruct (remove_notify_total s2 e _ (mesh Pb) He2) as [s' Hnotify].
    destruct (remove_notify_frame _ _ _ _ Hnotify) as (_ & He' & _).
    assert (∀ k, k ≠ e → k ≠ mirror E →
              set_tri None <$> edges s' !! k = set_tri None <$> edges s !! k)
      as Hother.
    { intros k Hke Hkm. by rewrite He', Hedges2, !lookup_insert_ne, Hf1. }
    assert (∀ k, set_end None <$> (set_tri None <$> edges s' !! k)
                 = set_end None <$> (set_tri None <$> edges s !! k)) as Hsame.
    { intros k.
      destruct (decide (k = e)) as [->|Hke];
        [|destruct (decide (k = mirror E)) as [->|Hkm]].
      - by rewrite He', Hedges2, lookup_insert_ne, lookup_insert_eq, He.
      - by rewrite He', Hedges2, lookup_insert_eq, Hm.
      - by rewrite Hother. }
    exists s'. split; [by rewrite Hrun|]. split; [by apply Hdom|]. done.
  - exists s. split; [by apply (p2tr_edge_remove_early s e E)|]. done.
Qed.

Lemma p2tr_edge_remove_keeps_edges_witness :
  ∃ s', p2tr_edge_remove 4%positive triangle_store = Ret (tt, s') ∧
    dom (edges s') = dom (edges triangle_store) ∧
    (∀ k, set_end None <$> (set_tri None <$> edges s' !! k)
          = set_end None <$> (set_tri None <$> edges triangle_store !! k)) ∧
    (∀ k, k ≠ 4%positive → k ≠ 3%positive →
          set_tri None <$> edges s' !! k
          = set_tri None <$> edges triangle_store !! k).
Proof.
  apply (p2tr_edge_remove_keeps_edges triangle_store 4%positive
           (half_edge (0 - 1) (1 - 1) (Some 2%positive) 3 0 None)).
  - by apply (bool_decide_unpack _); vm_compute.
  - reflexivity.
Defined.

(** X5. When the end point of an installed half-edge belongs to no mesh,
    [p2tr_edge_remove] tombstones both directions all the same and tells
    nobody: the notifications are as before. *)
Theorem p2tr_edge_remove_without_mesh s e E b :
  wf s → edges s !! e = Some E → end_ E = Some b →
  p2tr_edge_get_mesh e s = Ret (None, s) →
  ∃ s', p2tr_edge_remove e s = Ret (tt, s') ∧
    removed_log s' = removed_log s ∧
    p2tr_edge_is_removed e s' = Ret (true, s') ∧
    p2tr_edge_is_removed (mirror E) s' = Ret (true, s').
Proof.
  intros Hwf He Hend Hmesh.
  destruct (p2tr_edge_remove_run s e E b Hwf He Hend)
    as (Mr & a & Pa & Pb & s1 & s2 & _ & _ & _ & _ & Hb & _ & _ & _ &
        _ & _ & _ & _ & He2 & Hm2 & _ & Hlog2 & _ & Hrun).
  rewrite (p2tr_edge_get_mesh_run _ _ _ _ _ He Hend Hb) in Hmesh.
  injection Hmesh as Hmesh. rewrite Hmesh in Hrun.
  exists s2. split; [done|]. split; [done|].
  by rewrite (p2tr_edge_is_removed_run _ _ _ He2),
             (p2tr_edge_is_removed_run _ _ _ Hm2).
Qed.

Lemma p2tr_edge_remove_without_mesh_witness :
  ∃ s', p2tr_edge_remove 1%positive unowned_edge = Ret (tt, s') ∧
    removed_log s' = removed_log unowned_edge ∧
    p2tr_edge_is_removed 1%positive s' = Ret (true, s') ∧
    p2tr_edge_is_removed 2%positive s' = Ret (true, s').
Proof.
  apply (p2tr_edge_remove_without_mesh unowned_edge 1%positive
           (half_edge (0 - 0) (1 - 0) (Some 2%positive) 2 1 None) 2%positive).
  - by apply (bool_decide_unpack _); vm_compute.
  - reflexivity.
  - reflexivity.
  - reflexivity.
Defined.

(** X6. Once [p2tr_edge_remove] has run on a half-edge, running it again on
    that half-edge, or on its mirror, changes nothing: no further detaching,
    no further release of a point reference, no further notification. *)
Theorem p2tr_edge_remove_again s e E :
  wf s → edges s !! e = Some E →
  ∃ s', p2tr_edge_remove e s = Ret (tt, s') ∧
    p2tr_edge_remove e s' = Ret (tt, s') ∧
    p2tr_edge_remove (mirror E) s' = Ret (tt, s').
Proof.
  intros Hwf He. destruct (end_ E) as [b|] eqn:Hend.
  - destruct (p2tr_edge_remove_run s e E b Hwf He Hend)
      as (Mr & a & Pa & Pb & s1 & s2 & _ & _ & _ & _ & _ & _ & _ & _ &
          _ & _ & _ & _ & He2 & Hm2 & _ & _ & _ & Hrun).
    destruct (remove_notify_total s2 e _ (mesh Pb) He2) as [s' Hnotify].
    destruct (remove_notify_frame _ _ _ _ Hnotify) as (_ & He' & _).
    rewrite <- He' in He2, Hm2.
    exists s'. split; [by rewrite Hrun|].
    split; [by apply (p2tr_edge_remove_early _ _ _ He2)
           |by apply (p2tr_edge_remove_early _ _ _ Hm2)].
  - destruct (wf_mirror s e E Hwf He) as (_ & Mr & Hm & _ & Hends).
    exists s. split; [by apply (p2tr_edge_remove_early s e E)|].
    split; [by apply (p2tr_edge_remove_early s e E)|].
    apply (p2tr_edge_remove_early s (mirror E) Mr Hm). by apply Hends.
Qed.

Lemma p2tr_edge_remove_again_witness :
  ∃ s', p2tr_edge_remove 6%positive triangle_store = Ret (tt, s') ∧
    p2tr_edge_remove 6%positive s' = Ret (tt, s') ∧
    p2tr_edge_remove 5%positive s' = Ret (tt, s').
Proof.
  apply (p2tr_edge_remove_again triangle_store 6%positive
           (half_edge (1 - 0) (1 - 0) (Some 3%positive) 5 0 None)).
  - by apply (bool_decide_unpack _); vm_compute.
  - reflexivity.
Defined.

(** ** Creation followed by removal *)

Lemma point_after_removal_with_new_edge a b e m p P :
  e ∉ outgoing_edges P → m ∉ outgoing_edges P →
  (p = a ∨ p = b → pt_refcount P ≠ 0) →
  point_after_removal a b e m p (with_new_edge a b e m p P) = Some P.
Proof.
  intros He Hm Href. unfold point_after_removal.
  assert (without_edge a b e m p (with_new_edge a b e m p P) = P) as ->.
  { apply point_eq; cbn [c mesh outgoing_edges pt_refcount without_edge with_new_edge].
    - done.
    - clear Href. destruct (decide (p = a)), (decide (p = b)); set_solver.
    - destruct (decide (p = a)), (decide (p = b)); lia.
    - done. }
  rewrite decide_False; [done|]. intros [Hp Hzero]. by apply Href.
Qed.

(** An unbound pair has no triangle to take along. *)
Lemma remove_bound_triangles_unbound s e E Mr :
  edges s !! e = Some E → edges s !! mirror E = Some Mr →
  tri E = None → tri Mr = None →
  remove_bound_triangles e s = Ret (tt, s).
Proof.
  intros He Hm HtE HtM. unfold remove_bound_triangles, remove_bound_triangle.
  unfold bind, get_edge, ret. rewrite He, HtE, He, Hm, HtM. done.
Qed.

(** X7. Creating an edge between two points the caller holds a reference
    on, and removing it again, restores every point (incident set and
    reference count), every triangle and every half-edge that was there
    before; the new pair, the edge and its mirror, stays allocated, each
    with its end reference cleared and nothing else changed, and the mesh
    of the end point, if there is one, hears of both directions. *)
Theorem p2tr_edge_new_then_remove s a b k Pa Pb :
  wf s → points s !! a = Some Pa → points s !! b = Some Pb →
  pt_refcount Pa ≠ 0 → pt_refcount Pb ≠ 0 →
  ∃ e s1 s2 E Mr,
    p2tr_edge_new (Some a) (Some b) k s = Ret (e, s1) ∧
    edges s1 !! e = Some E ∧
    edges s1 !! mirror E = Some Mr ∧
    p2tr_edge_remove e s1 = Ret (tt, s2) ∧
    points s2 = points s ∧ triangles s2 = triangles s ∧
    (∀ i, is_Some (edges s !! i) → edges s2 !! i = edges s !! i) ∧
    edges s2 !! e = Some (set_end None E) ∧
    edges s2 !! mirror E = Some (set_end None Mr) ∧
    removed_log s2
    = removed_log s ++ match mesh Pb with
                       | Some ms => [(ms, e); (ms, mirror E)]
                       | None => []
                       end.
Proof.
  intros Hwf Ha Hb HrefA HrefB.
  destruct (p2tr_edge_new_run s a b k Pa Pb Ha Hb)
    as (s1 & Hnew & Hem & Hfe & Hfm & Hedges & Hpoints & Htri & Hlog).
  destruct (p2tr_edge_new_wf s a b k Pa Pb Hwf Ha Hb) as (e' & s1' & Hnew' & Hwf1).
  rewrite Hnew in Hnew'. injection Hnew' as <- <-.
  remember (fresh (dom (edges s))) as e eqn:Hedef.
  remember (fresh (dom (<[e := uninitialised_edge]> (edges s)))) as m eqn:Hmdef.
  clear Hedef Hmdef.
  match type of Hedges with
  | edges s1 = <[e := ?E0]> (<[m := ?M0]> _) =>
      remember E0 as E eqn:HE; remember M0 as Mr eqn:HMr
  end.
  assert (edges s1 !! e = Some E) as He1
    by (by rewrite Hedges, lookup_insert_eq).
  assert (edges s1 !! m = Some Mr) as Hm1
    by (by rewrite Hedges, lookup_insert_ne, lookup_insert_eq).
  assert (mirror E = m) as HmE by (by rewrite HE).
  assert (end_ E = Some b) as Hend by (by rewrite HE).
  destruct (p2tr_edge_remove_detail s1 e E b Hwf1 He1 Hend)
    as (Mr' & a' & Pa' & Pb' & s1c & s2 & Hm1' & _ & Hstart & _ & Hb' & Hrun1 &
        Hedges2 & Hp2 & Htri2 & Hlog2 & Hrun).
  rewrite HmE in *.
  assert (Mr' = Mr) as -> by congruence.
  assert (a' = a) as -> by (rewrite HMr in Hstart; simpl in Hstart; congruence).
  assert (remove_bound_triangles e s1 = Ret (tt, s1)) as Hid.
  { apply (remove_bound_triangles_unbound s1 e E Mr He1); rewrite ?HmE; try done.
    - by rewrite HE.
    - by rewrite HMr. }
  assert (s1c = s1) as -> by congruence.
  assert (mesh Pb' = mesh Pb) as Hmesh.
  { rewrite Hpoints, Hb in Hb'. by injection Hb' as <-. }
  assert (∀ p P, points s !! p = Some P →
            (e ∉ outgoing_edges P) ∧ (m ∉ outgoing_edges P)) as Hfresh.
  { intros p P HP. split; intros Hin;
      pose proof (wf_outgoing s p P _ Hwf HP Hin) as Hs;
      unfold start_of in Hs; [by rewrite Hfe in Hs|by rewrite Hfm in Hs]. }
  assert (points s2 = points s) as Hpts.
  { apply map_eq. intros p. rewrite Hp2, Hpoints.
    destruct (points s !! p) as [P|] eqn:HP; [|done]. simpl.
    destruct (Hfresh p P HP) as [HeP HmP].
    apply point_after_removal_with_new_edge; [done..|].
    intros [-> | ->]; congruence. }
  assert (edges s2 !! e = Some (set_end None E)) as He2.
  { rewrite Hedges2, lookup_insert_ne, lookup_insert_eq by done.
    by rewrite HE. }
  assert (edges s2 !! m = Some (set_end None Mr)) as Hm2.
  { rewrite Hedges2, lookup_insert_eq. by rewrite HMr. }
  destruct (remove_notify_total s2 e _ (mesh Pb') He2) as [s3 Hnotify].
  destruct (remove_notify_frame _ _ _ _ Hnotify) as (Hp3 & He3 & Ht3).
  exists e, s1, s3, E, Mr. split; [done|]. split; [done|].
  split; [by rewrite HmE|].
  split; [by rewrite Hrun|]. split; [congruence|]. split; [congruence|].
  split.
  { intros i [K HK]. rewrite He3, Hedges2, Hedges.
    rewrite !lookup_insert_ne by congruence. done. }
  split; [by rewrite He3|]. split; [by rewrite He3, HmE|].
  rewrite Hmesh in Hnotify. destruct (mesh Pb) as [ms|].
  - rewrite (remove_notify_run s2 e _ ms He2) in Hnotify.
    injection Hnotify as <-. simpl. by rewrite Hlog2, Hlog, HmE.
  - simpl in Hnotify. injection Hnotify as <-.
    by rewrite Hlog2, Hlog, app_nil_r.
Qed.

Lemma p2tr_edge_new_then_remove_witness :
  ∃ e s1 s2 E Mr,
    p2tr_edge_new (Some 3%positive) (Some 1%positive) false east_north
      = Ret (e, s1) ∧
    edges s1 !! e = Some E ∧
    edges s1 !! mirror E = Some Mr ∧
    p2tr_edge_remove e s1 = Ret (tt, s2) ∧
    points s2 = points east_north ∧ triangles s2 = triangles east_north ∧
    (∀ i, is_Some (edges east_north !! i) →
          edges s2 !! i = edges east_north !! i) ∧
    edges s2 !! e = Some (set_end None E) ∧
    edges s2 !! mirror E = Some (set_end None Mr) ∧
    removed_log s2
    = removed_log east_north ++ [(1%positive, e); (1%positive, mirror E)].
Proof.
  apply (p2tr_edge_new_then_remove east_north 3%positive 1%positive false
           (point_at 1 1 2 {[4%positive]}) (point_at 0 0 2 {[1%positive]})).
  - by apply (bool_decide_unpack _); vm_compute.
  - reflexivity.
  - reflexivity.
  - done.
  - done.
Defined.

(** [p2tr_edge_new] reads both points before it writes anything that
    lasts. *)
Lemma p2tr_edge_new_reads_points s a b k e s' :
  p2tr_edge_new a b k s = Ret (e, s') →
  is_Some (a ≫= (points s !!.)) ∧ is_Some (b ≫= (points s !!.)).
Proof.
  unfold p2tr_edge_new, g_slice_new, p2tr_edge_init, bind, get_point. simpl.
  destruct (b ≫= _) as [Pb|]; [|done].
  destruct (a ≫= _) as [Pa|]; [|done]. eauto.
Qed.

(** X8. [p2tr_edge_new] returns only for two allocated points: with NULL, or
    a released point, in either place it does not return. *)
Theorem p2tr_edge_new_needs_points s a b k e s' :
  p2tr_edge_new a b k s = Ret (e, s') →
  ∃ a' b', a = Some a' ∧ b = Some b' ∧
    is_Some (points s !! a') ∧ is_Some (points s !! b').
Proof.
  intros Hrun. destruct (p2tr_edge_new_reads_points _ _ _ _ _ _ Hrun) as [Ha Hb].
  destruct a as [a'|]; [|by destruct Ha].
  destruct b as [b'|]; [|by destruct Hb].
  by exists a', b'.
Qed.

Lemma p2tr_edge_new_needs_points_witness :
  ∃ a' b', Some 1%positive = Some a' ∧ Some 2%positive = Some b' ∧
    is_Some (points three_points !! a') ∧ is_Some (points three_points !! b').
Proof.
  apply (p2tr_edge_new_needs_points three_points (Some 1%positive)
           (Some 2%positive) false 1%positive east_edge).
  reflexivity.
Defined.

(** ** Reference counting *)

(** X9. Taking a reference with [p2tr_edge_ref] and giving it back with
    [p2tr_edge_unref] leaves the store exactly as it was, provided a
    reference is held on either direction of the pair. *)
Theorem p2tr_edge_ref_unref s e E Mr :
  edges s !! e = Some E → mirror E ≠ e → edges s !! mirror E = Some Mr →
  refcount E ≠ 0 ∨ refcount Mr ≠ 0 →
  (p2tr_edge_ref e;; p2tr_edge_unref e) s = Ret (tt, s).
Proof.
  intros He Hne Hm Hheld.
  assert (p2tr_edge_ref e s
          = Ret (e, with_edges <[e := set_refcount (refcount E + 1) E]> s)) as Href.
  { unfold p2tr_edge_ref.
    by rewrite (bind_run _ _ _ _ _ (get_edge_run _ _ _ He)). }
  rewrite (bind_run _ _ _ _ _ Href).
  rewrite (p2tr_edge_unref_keeps _ e (set_refcount (refcount E + 1) E) Mr).
  - f_equal. f_equal. destruct s as [ps es ts lg]. unfold with_edges. simpl.
    f_equal. simpl in He. rewrite insert_insert_eq. apply insert_id.
    rewrite He. f_equal. destruct E. unfold set_refcount. simpl. f_equal. lia.
  - simpl. apply lookup_insert_eq.
  - done.
  - simpl. by rewrite lookup_insert_ne.
  - simpl. lia.
Qed.

Lemma p2tr_edge_ref_unref_witness :
  (p2tr_edge_ref 3%positive;; p2tr_edge_unref 3%positive) east_north
  = Ret (tt, east_north).
Proof.
  apply (p2tr_edge_ref_unref east_north 3%positive
           (half_edge (1 - 0) (1 - 1) (Some 3%positive) 4 1 None)
           (half_edge (0 - 1) (1 - 1) (Some 2%positive) 3 0 None)).
  - reflexivity.
  - done.
  - reflexivity.
  - left. done.
Defined.

(** X10. While a reference is left on either direction of the pair, that is
    while the count of the edge is above 1 or the count of its mirror is not
    0, [p2tr_edge_unref] on an edge with a positive count only lowers that
    count by one: no half-edge is released, no other count is written, the
    points, the triangles and the notifications are as before, and neither
    triangle.c nor mesh.c is called. *)
Theorem p2tr_edge_unref_while_referenced s e E Mr :
  edges s !! e = Some E → mirror E ≠ e → edges s !! mirror E = Some Mr →
  0 < refcount E → refcount E ≠ 1 ∨ refcount Mr ≠ 0 →
  ∃ s', p2tr_edge_unref e s = Ret (tt, s') ∧
    edges s' = <[e := set_refcount (refcount E - 1) E]> (edges s) ∧
    points s' = points s ∧ triangles s' = triangles s ∧
    removed_log s' = removed_log s ∧ history s' = history s.
Proof.
  intros He Hne Hm Hpos Hheld.
  rewrite (p2tr_edge_unref_keeps s e E Mr He Hne Hm) by lia.
  by eexists.
Qed.

Lemma p2tr_edge_unref_while_referenced_witness :
  ∃ s', p2tr_edge_unref 1%positive shared_edge = Ret (tt, s') ∧
    edges s' = <[1%positive :=
                   set_refcount (2 - 1)
                     (half_edge (0 - 0) (1 - 0) (Some 2%positive) 2 2 None)]>
                 (edges shared_edge) ∧
    points s' = points shared_edge ∧ triangles s' = triangles shared_edge ∧
    removed_log s' = removed_log shared_edge ∧
    history s' = history shared_edge.
Proof.
  apply (p2tr_edge_unref_while_referenced shared_edge 1%positive
           (half_edge (0 - 0) (1 - 0) (Some 2%positive) 2 2 None)
           (half_edge (0 - 0) (0 - 1) (Some 1%positive) 1 0 None)).
  - reflexivity.
  - done.
  - reflexivity.
  - done.
  - left. done.
Defined.

(** ** Angles *)

(** X11. Whenever [p2tr_edge_angle_between] returns, the store is untouched
    and, for two angles normalised to (-PI, PI], the value is PI minus the
    first angle plus the second, less a full turn or not, and lies in
    (-PI, 2 PI]. *)
Theorem p2tr_edge_angle_between_bounds s e1 e2 E1 E2 w s' :
  edges s !! e1 = Some E1 → edges s !! e2 = Some E2 →
  normalised_angle (angle E1) → normalised_angle (angle E2) →
  p2tr_edge_angle_between e1 e2 s = Ret (w, s') →
  s' = s ∧ (- PI < w <= 2 * PI)%R ∧
  (w = PI - angle E1 + angle E2 ∨ w = PI - angle E1 + angle E2 - 2 * PI)%R.
Proof.
  intros He1 He2 H1 H2 Hrun. unfold normalised_angle in *.
  unfold p2tr_edge_angle_between in Hrun.
  rewrite (bind_run _ _ _ _ _ (get_edge_run _ _ _ He1)) in Hrun.
  destruct (edges s !! mirror E2) as [M2|] eqn:Hm.
  - rewrite (bind_run _ _ _ _ _ (P2TR_EDGE_START_run _ _ _ _ He2 Hm)) in Hrun.
    destruct (decide (end_ E1 ≠ end_ M2)); [done|].
    unfold bind at 1, ret at 1 in Hrun.
    rewrite (bind_run _ _ _ _ _ (get_edge_run _ _ _ He2)) in Hrun.
    unfold ret in Hrun. injection Hrun as <- <-.
    pose proof PI_RGT_0 as Hpi. split; [done|].
    destruct (Rgt_dec _ _); split; try lra; auto.
  - unfold P2TR_EDGE_START, bind, get_edge in Hrun.
    by rewrite He2, Hm in Hrun.
Qed.

Lemma p2tr_edge_angle_between_bounds_witness :
  east_north = east_north ∧
  (- PI < PI - atan2 (0 - 0) (1 - 0) + atan2 (1 - 0) (1 - 1) <= 2 * PI)%R ∧
  (PI - atan2 (0 - 0) (1 - 0) + atan2 (1 - 0) (1 - 1)
   = PI - atan2 (0 - 0) (1 - 0) + atan2 (1 - 0) (1 - 1) ∨
   PI - atan2 (0 - 0) (1 - 0) + atan2 (1 - 0) (1 - 1)
   = PI - atan2 (0 - 0) (1 - 0) + atan2 (1 - 0) (1 - 1) - 2 * PI)%R.
Proof.
  apply (p2tr_edge_angle_between_bounds east_north 1%positive 3%positive
           (half_edge (0 - 0) (1 - 0) (Some 2%positive) 2 1 None)
           (half_edge (1 - 0) (1 - 1) (Some 3%positive) 4 1 None)
           _ east_north).
  - reflexivity.
  - reflexivity.
  - apply atan2_range.
  - apply atan2_range.
  - rewrite (p2tr_edge_angle_between_run east_north 1%positive 3%positive
               (half_edge (0 - 0) (1 - 0) (Some 2%positive) 2 1 None)
               (half_edge (1 - 0) (1 - 1) (Some 3%positive) 4 1 None)
               (half_edge (0 - 1) (1 - 1) (Some 2%positive) 3 0 None));
      try reflexivity.
    cbn [angle half_edge]. rewrite atan2_east, atan2_north.
    pose proof PI_RGT_0 as Hpi. destruct (Rgt_dec _ _); [lra|done].
Defined.

(** X12. The angle between a newly created edge and its own mirror, for two
    points that differ in a coordinate: over the reals
    [p2tr_edge_angle_between] answers a whole number of turns, 0 or 2 PI.
    The raw value PI - A + B is then 0 or exactly 2 PI, the bound of the
    test. *)
Theorem p2tr_edge_angle_between_mirror s a b k Pa Pb :
  points s !! a = Some Pa → points s !! b = Some Pb →
  x (c Pa) ≠ x (c Pb) ∨ y (c Pa) ≠ y (c Pb) →
  ∃ e s1 E w,
    p2tr_edge_new (Some a) (Some b) k s = Ret (e, s1) ∧
    edges s1 !! e = Some E ∧
    p2tr_edge_angle_between e (mirror E) s1 = Ret (w, s1) ∧
    (w = 0%R ∨ w = (2 * PI)%R).
Proof.
  intros Ha Hb Hdiff.
  destruct (p2tr_edge_new_run s a b k Pa Pb Ha Hb)
    as (s1 & Hnew & Hem & _ & _ & Hedges & _).
  remember (fresh (dom (edges s))) as e eqn:Hedef.
  remember (fresh (dom (<[e := uninitialised_edge]> (edges s)))) as m eqn:Hmdef.
  clear Hedef Hmdef.
  match type of Hedges with
  | edges s1 = <[e := ?E0]> (<[m := ?M0]> _) => pose (E := E0); pose (Mr := M0)
  end.
  assert (edges s1 !! e = Some E) as He1
    by (by rewrite Hedges, lookup_insert_eq).
  assert (edges s1 !! m = Some Mr) as Hm1
    by (by rewrite Hedges, lookup_insert_ne, lookup_insert_eq).
  pose proof (p2tr_edge_angle_between_run s1 e m E Mr E He1 Hm1 He1 eq_refl) as Hrun.
  cbn [angle E Mr] in Hrun.
  set (dy := (y (c Pb) - y (c Pa))%R) in *.
  set (dx := (x (c Pb) - x (c Pa))%R) in *.
  replace (y (c Pa) - y (c Pb))%R with (- dy)%R in Hrun by (unfold dy; lra).
  replace (x (c Pa) - x (c Pb))%R with (- dx)%R in Hrun by (unfold dx; lra).
  assert (dx ≠ 0%R ∨ dy ≠ 0%R) as Hnz
    by (unfold dx, dy; destruct Hdiff; [left|right]; lra).
  pose proof (atan2_range dy dx) as HA.
  pose proof (atan2_range (- dy) (- dx)) as HA'.
  pose proof PI_RGT_0 as Hpi.
  eexists e, s1, E, _. split; [done|]. split; [done|].
  split; [exact Hrun|].
  destruct (atan2_opposite dy dx Hnz) as [Hopp|Hopp]; rewrite Hopp in *;
    destruct (Rgt_dec _ _); first [left; lra | right; lra].
Qed.

Lemma p2tr_edge_angle_between_mirror_witness :
  ∃ e s1 E w,
    p2tr_edge_new (Some 1%positive) (Some 2%positive) true three_points
      = Ret (e, s1) ∧
    edges s1 !! e = Some E ∧
    p2tr_edge_angle_between e (mirror E) s1 = Ret (w, s1) ∧
    (w = 0%R ∨ w = (2 * PI)%R).
Proof.
  apply (p2tr_edge_angle_between_mirror three_points 1%positive 2%positive true
           (point_at 0 0 1 ∅) (point_at 1 0 1 ∅)).
  - reflexivity.
  - reflexivity.
  - left. simpl. lra.
Defined.

(** X13. [p2tr_edge_angle_between] does not look whether its edges are
    installed: in a well-formed store any two removed half-edges pass the
    test on the shared point, NULL against NULL, and a value is returned
    from their stored angles. *)
Theorem p2tr_edge_angle_between_removed s e1 e2 E1 E2 :
  wf s → edges s !! e1 = Some E1 → edges s !! e2 = Some E2 →
  end_ E1 = None → end_ E2 = None →
  p2tr_edge_angle_between e1 e2 s =
    Ret (let w := (PI - angle E1 + angle E2)%R in
         if Rgt_dec w (2 * PI) then (w - 2 * PI)%R else w, s).
Proof.
  intros Hwf He1 He2 Hend1 Hend2.
  destruct (wf_mirror s e2 E2 Hwf He2) as (_ & M2 & Hm & _ & Hends).
  apply (p2tr_edge_angle_between_run s e1 e2 E1 E2 M2); try done.
  rewrite Hend1. symmetry. by apply Hends.
Qed.

Lemma p2tr_edge_angle_between_removed_witness :
  p2tr_edge_angle_between 1%positive 2%positive removed_pair =
    Ret (let w := (PI - atan2 (0 - 0) (1 - 0) + atan2 (0 - 0) (0 - 1))%R in
         if Rgt_dec w (2 * PI) then (w - 2 * PI)%R else w, removed_pair).
Proof.
  apply (p2tr_edge_angle_between_removed removed_pair 1%positive 2%positive
           (half_edge (0 - 0) (1 - 0) None 2 1 None)
           (half_edge (0 - 0) (0 - 1) None 1 0 None)).
  - by apply (bool_decide_unpack _); vm_compute.
  - reflexivity.
  - reflexivity.
  - reflexivity.
  - reflexivity.
Defined.

(** ** Lengths and the diametral circle *)

Lemma p2tr_math_length_sq2_nonneg (u v : P2trVector2) :
  (0 <= p2tr_math_length_sq2 u v)%R.
Proof.
  unfold p2tr_math_length_sq2.
  pose proof (Rle_0_sqr (x u - x v)) as Hx.
  pose proof (Rle_0_sqr (y u - y v)) as Hy. unfold Rsqr in *. lra.
Qed.

Lemma p2tr_math_length_sq2_sym (u v : P2trVector2) :
  p2tr_math_length_sq2 u v = p2tr_math_length_sq2 v u.
Proof. unfold p2tr_math_length_sq2. ring. Qed.

Lemma p2tr_math_length_sq2_null (u v : P2trVector2) :
  p2tr_math_length_sq2 u v = 0%R ↔ u = v.
Proof.
  unfold p2tr_math_length_sq2. split.
  - intros Hz.
    pose proof (Rle_0_sqr (x u - x v)) as Hx.
    pose proof (Rle_0_sqr (y u - y v)) as Hy. unfold Rsqr in *.
    assert ((x u - x v) * (x u - x v) = 0)%R as Hx0 by lra.
    assert ((y u - y v) * (y u - y v) = 0)%R as Hy0 by lra.
    apply Rsqr_0_uniq in Hx0, Hy0.
    destruct u, v. simpl in *. f_equal; lra.
  - intros ->. ring.
Qed.

Lemma p2tr_edge_get_length_run s e E Mr a b Pa Pb :
  edges s !! e = Some E → end_ E = Some b →
  edges s !! mirror E = Some Mr → end_ Mr = Some a →
  points s !! a = Some Pa → points s !! b = Some Pb →
  p2tr_edge_get_length e s
    = Ret (sqrt (p2tr_math_length_sq2 (c Pb) (c Pa)), s) ∧
  p2tr_edge_get_length_squared e s
    = Ret (p2tr_math_length_sq2 (c Pb) (c Pa), s).
Proof.
  intros He Hend Hm Hstart Ha Hb.
  unfold p2tr_edge_get_length, p2tr_edge_get_length_squared.
  rewrite !(bind_run _ _ _ _ _ (get_edge_run _ _ _ He)), Hend.
  rewrite !(bind_run _ _ _ _ _ (get_point_run _ _ _ Hb)).
  rewrite !(bind_run _ _ _ _ _ (P2TR_EDGE_START_run _ _ _ _ He Hm)), Hstart.
  by rewrite !(bind_run _ _ _ _ _ (get_point_run _ _ _ Ha)).
Qed.

(** X14. For an installed half-edge of a well-formed store,
    [p2tr_edge_get_length] and [p2tr_edge_get_length_squared] return the
    same values for the edge and for its mirror; the squared length is the
    square of the length; the length is never negative, and it is zero
    exactly when the two end points have the same coordinates. The squared
    distance of two positions is the Euclidean one. *)
Theorem p2tr_edge_get_length_squared_agrees s e E b :
  wf s → edges s !! e = Some E → end_ E = Some b →
  ∃ a Pa Pb len,
    P2TR_EDGE_START e s = Ret (Some a, s) ∧
    points s !! a = Some Pa ∧ points s !! b = Some Pb ∧
    p2tr_edge_get_length e s = Ret (len, s) ∧
    p2tr_edge_get_length (mirror E) s = Ret (len, s) ∧
    p2tr_edge_get_length_squared e s = Ret ((len * len)%R, s) ∧
    p2tr_edge_get_length_squared (mirror E) s = Ret ((len * len)%R, s) ∧
    (0 <= len)%R ∧ (len = 0%R ↔ c Pa = c Pb).
Proof.
  intros Hwf He Hend.
  destruct (wf_installed s e E b Hwf He Hend)
    as (Mr & a & Pa & Pb & Hm & _ & Hback & Hstart & Ha & Hb & _).
  assert (edges s !! mirror Mr = Some E) as Hm' by (by rewrite Hback).
  destruct (p2tr_edge_get_length_run s e E Mr a b Pa Pb) as [Hlen Hsq];
    [done..|].
  destruct (p2tr_edge_get_length_run s (mirror E) Mr E b a Pb Pa) as [Hlen' Hsq'];
    [done..|].
  pose proof (p2tr_math_length_sq2_nonneg (c Pb) (c Pa)) as Hnn.
  exists a, Pa, Pb, (sqrt (p2tr_math_length_sq2 (c Pb) (c Pa))).
  split; [by rewrite (P2TR_EDGE_START_run _ _ _ _ He Hm), Hstart|].
  split; [done|]. split; [done|]. split; [done|].
  split; [by rewrite Hlen', (p2tr_math_length_sq2_sym (c Pa))|].
  rewrite sqrt_sqrt by done. split; [done|].
  split; [by rewrite Hsq', (p2tr_math_length_sq2_sym (c Pa))|].
  split; [apply sqrt_pos|]. split.
  - intros Hz. apply sqrt_eq_0 in Hz; [|done].
    symmetry. by apply p2tr_math_length_sq2_null.
  - intros Heq. rewrite Heq.
    replace (p2tr_math_length_sq2 (c Pb) (c Pb)) with 0%R; [apply sqrt_0|].
    symmetry. by apply p2tr_math_length_sq2_null.
Qed.

Lemma p2tr_edge_get_length_squared_agrees_witness :
  ∃ a Pa Pb len,
    P2TR_EDGE_START 1%positive diameter_store = Ret (Some a, diameter_store) ∧
    points diameter_store !! a = Some Pa ∧
    points diameter_store !! 2%positive = Some Pb ∧
    p2tr_edge_get_length 1%positive diameter_store = Ret (len, diameter_store) ∧
    p2tr_edge_get_length 2%positive diameter_store = Ret (len, diameter_store) ∧
    p2tr_edge_get_length_squared 1%positive diameter_store
      = Ret ((len * len)%R, diameter_store) ∧
    p2tr_edge_get_length_squared 2%positive diameter_store
      = Ret ((len * len)%R, diameter_store) ∧
    (0 <= len)%R ∧ (len = 0%R ↔ c Pa = c Pb).
Proof.
  apply (p2tr_edge_get_length_squared_agrees diameter_store 1%positive
           (half_edge (0 - 0) (2 - 0) (Some 2%positive) 2 1 None) 2%positive).
  - by apply (bool_decide_unpack _); vm_compute.
  - reflexivity.
  - reflexivity.
Defined.

Lemma p2tr_edge_get_diametral_circle_run s e E Mr a b Pa Pb :
  edges s !! e = Some E → end_ E = Some b →
  edges s !! mirror E = Some Mr → end_ Mr = Some a →
  points s !! a = Some Pa → points s !! b = Some Pb →
  p2tr_edge_get_diametral_circle e s
  = Ret ({| center := p2tr_vector2_center (c Pb) (c Pa);
            radius := p2tr_vector2_norm
                        (p2tr_vector2_sub (c Pb)
                           (p2tr_vector2_center (c Pb) (c Pa))) |}, s).
Proof.
  intros He Hend Hm Hstart Ha Hb. unfold p2tr_edge_get_diametral_circle.
  rewrite (bind_run _ _ _ _ _ (get_edge_run _ _ _ He)), Hend.
  rewrite (bind_run _ _ _ _ _ (get_point_run _ _ _ Hb)).
  rewrite (bind_run _ _ _ _ _ (P2TR_EDGE_START_run _ _ _ _ He Hm)), Hstart.
  by rewrite (bind_run _ _ _ _ _ (get_point_run _ _ _ Ha)).
Qed.

Lemma p2tr_vector2_center_sym (u v : P2trVector2) :
  p2tr_vector2_center u v = p2tr_vector2_center v u.
Proof. unfold p2tr_vector2_center. f_equal; ring. Qed.

(** X15. For an installed half-edge of a well-formed store,
    [p2tr_edge_get_diametral_circle] returns the same circle for the edge
    and for its mirror, and the circle passes through both end points: each
    is at the distance of the radius from the centre. The vector helpers are
    the midpoint, the difference and the Euclidean norm. *)
Theorem p2tr_edge_get_diametral_circle_through_ends s e E b :
  wf s → edges s !! e = Some E → end_ E = Some b →
  ∃ a Pa Pb C,
    P2TR_EDGE_START e s = Ret (Some a, s) ∧
    points s !! a = Some Pa ∧ points s !! b = Some Pb ∧
    p2tr_edge_get_diametral_circle e s = Ret (C, s) ∧
    p2tr_edge_get_diametral_circle (mirror E) s = Ret (C, s) ∧
    p2tr_vector2_norm (p2tr_vector2_sub (c Pa) (center C)) = radius C ∧
    p2tr_vector2_norm (p2tr_vector2_sub (c Pb) (center C)) = radius C.
Proof.
  intros Hwf He Hend.
  destruct (wf_installed s e E b Hwf He Hend)
    as (Mr & a & Pa & Pb & Hm & _ & Hback & Hstart & Ha & Hb & _).
  assert (edges s !! mirror Mr = Some E) as Hm' by (by rewrite Hback).
  pose proof (p2tr_edge_get_diametral_circle_run s e E Mr a b Pa Pb
                He Hend Hm Hstart Ha Hb) as Hc.
  pose proof (p2tr_edge_get_diametral_circle_run s (mirror E) Mr E b a Pb Pa
                Hm Hstart Hm' Hend Hb Ha) as Hc'.
  rewrite (p2tr_vector2_center_sym (c Pa) (c Pb)) in Hc'.
  rewrite half_chord_norm in Hc.
  rewrite <- (p2tr_vector2_center_sym (c Pa) (c Pb)), half_chord_norm,
    (p2tr_math_length_sq2_sym (c Pa) (c Pb)),
    (p2tr_vector2_center_sym (c Pa) (c Pb)) in Hc'.
  eexists a, Pa, Pb, _.
  split; [by rewrite (P2TR_EDGE_START_run _ _ _ _ He Hm), Hstart|].
  split; [done|]. split; [done|]. split; [exact Hc|]. split; [exact Hc'|].
  cbn [center radius]. split.
  - by rewrite <- (p2tr_vector2_center_sym (c Pa) (c Pb)), half_chord_norm,
      (p2tr_math_length_sq2_sym (c Pa) (c Pb)).
  - by rewrite half_chord_norm.
Qed.

Lemma p2tr_edge_get_diametral_circle_through_ends_witness :
  ∃ a Pa Pb C,
    P2TR_EDGE_START 1%positive diameter_store = Ret (Some a, diameter_store) ∧
    points diameter_store !! a = Some Pa ∧
    points diameter_store !! 2%positive = Some Pb ∧
    p2tr_edge_get_diametral_circle 1%positive diameter_store
      = Ret (C, diameter_store) ∧
    p2tr_edge_get_diametral_circle 2%positive diameter_store
      = Ret (C, diameter_store) ∧
    p2tr_vector2_norm (p2tr_vector2_sub (c Pa) (center C)) = radius C ∧
    p2tr_vector2_norm (p2tr_vector2_sub (c Pb) (center C)) = radius C.
Proof.
  apply (p2tr_edge_get_diametral_circle_through_ends diameter_store 1%positive
           (half_edge (0 - 0) (2 - 0) (Some 2%positive) 2 1 None) 2%positive).
  - by apply (bool_decide_unpack _); vm_compute.
  - reflexivity.
  - reflexivity.
Defined.

(** X16. After [p2tr_edge_remove], on either direction of the pair:
    [p2tr_edge_get_mesh] answers NULL, while [p2tr_edge_get_length],
    [p2tr_edge_get_length_squared] and [p2tr_edge_get_diametral_circle],
    which have no test of their own, go through the cleared end reference
    and are undefined. *)
Theorem p2tr_edge_remove_then_measure s e E b :
  wf s → edges s !! e = Some E → end_ E = Some b →
  ∃ s', p2tr_edge_remove e s = Ret (tt, s') ∧
    ∀ d, d = e ∨ d = mirror E →
      p2tr_edge_get_mesh d s' = Ret (None, s') ∧
      p2tr_edge_get_length d s' = Undefined ∧
      p2tr_edge_get_length_squared d s' = Undefined ∧
      p2tr_edge_get_diametral_circle d s' = Undefined.
Proof.
  intros Hwf He Hend.
  destruct (p2tr_edge_remove_run s e E b Hwf He Hend)
    as (Mr & a & Pa & Pb & s1 & s2 & _ & _ & _ & _ & _ & _ & _ & _ &
        _ & _ & _ & _ & He2 & Hm2 & _ & _ & _ & Hrun).
  destruct (remove_notify_total s2 e _ (mesh Pb) He2) as [s' Hnotify].
  destruct (remove_notify_frame _ _ _ _ Hnotify) as (_ & He' & _).
  rewrite <- He' in He2, Hm2.
  exists s'. split; [by rewrite Hrun|].
  assert (∀ d D, edges s' !! d = Some D → end_ D = None →
            p2tr_edge_get_mesh d s' = Ret (None, s') ∧
            p2tr_edge_get_length d s' = Undefined ∧
            p2tr_edge_get_length_squared d s' = Undefined ∧
            p2tr_edge_get_diametral_circle d s' = Undefined) as Hgone.
  { intros d D Hd HD.
    unfold p2tr_edge_get_mesh, p2tr_edge_get_length,
      p2tr_edge_get_length_squared, p2tr_edge_get_diametral_circle.
    rewrite !(bind_run _ _ _ _ _ (get_edge_run _ _ _ Hd)), HD.
    split; [done|]. by rewrite !bind_undefined. }
  intros d [-> | ->]; [by apply (Hgone _ _ He2)|by apply (Hgone _ _ Hm2)].
Qed.

Lemma p2tr_edge_remove_then_measure_witness :
  ∃ s', p2tr_edge_remove 1%positive diameter_store = Ret (tt, s') ∧
    ∀ d, d = 1%positive ∨ d = 2%positive →
      p2tr_edge_get_mesh d s' = Ret (None, s') ∧
      p2tr_edge_get_length d s' = Undefined ∧
      p2tr_edge_get_length_squared d s' = Undefined ∧
      p2tr_edge_get_diametral_circle d s' = Undefined.
Proof.
  apply (p2tr_edge_remove_then_measure diameter_store 1%positive
           (half_edge (0 - 0) (2 - 0) (Some 2%positive) 2 1 None) 2%positive).
  - by apply (bool_decide_unpack _); vm_compute.
  - reflexivity.
  - reflexivity.
Defined.

(** * Further properties of bin/main.c *)

(** ** The reading loop *)

(** Fuel beyond the length of the input changes nothing. *)
Lemma read_points_loop_fuel fuel1 fuel2 frame i r :
  (length (Main.rest (Main.f r)) < fuel1)%nat →
  (length (Main.rest (Main.f r)) < fuel2)%nat →
  Main.read_points_loop fuel1 frame i r = Main.read_points_loop fuel2 frame i r.
Proof.
  revert fuel2 i r.
  induction fuel1 as [|fuel1 IH]; intros fuel2 i r H1 H2; [lia|].
  destruct fuel2 as [|fuel2]; [lia|]. simpl.
  destruct (Main.at_eof (Main.f r)); [done|].
  destruct (Main.read_points_iteration (frame i) r) as [r'|r'|msg] eqn:Hit;
    [|done..].
  apply read_points_iteration_consumes in Hit. apply IH; lia.
Qed.

(** X17. [read_points_file] comes to an end on every input: each iteration
    that goes round again has taken something off the stream, so as many
    iterations as the input has tokens, and one more, always suffice, and
    allowing any number more changes nothing. *)
Theorem read_points_file_terminates input want_points want_colors frame :
  ∃ out,
    Main.read_points_file input want_points want_colors frame = Some out ∧
    ∀ more : nat,
      Main.read_points_loop (S (length input) + more) frame 0
        {| Main.f := {| Main.rest := input; Main.at_eof := false |};
           Main.points := if want_points then Some [] else None;
           Main.colors := if want_colors then Some [] else None;
           Main.countPts := 0; Main.countCls := 0 |} = Some out.
Proof.
  destruct (read_points_file_total input want_points want_colors frame)
    as [out Hout].
  exists out. split; [done|]. intros more. rewrite <- Hout.
  unfold Main.read_points_file. apply read_points_loop_fuel; simpl; lia.
Qed.

Lemma read_points_iteration_counted beyond r r' :
  Main.read_points_iteration beyond r = Main.Continue r' ∨
  Main.read_points_iteration beyond r = Main.Break r' →
  Main.counted r →
  Main.counted r' ∧
  (is_Some (Main.points r') ↔ is_Some (Main.points r)) ∧
  (is_Some (Main.colors r') ↔ is_Some (Main.colors r)).
Proof.
  unfold Main.read_points_iteration, Main.counted.
  destruct (Main.fscanf Main.is_at 2 (Main.f r)) as [[n1 vs1] f1].
  destruct (_ && _); [by intros [?|?]|].
  destruct (Main.fscanf Main.is_hash 3 f1) as [[n2 vs2] f2].
  destruct (_ && _ && _); [by intros [?|?]|].
  intros Hit [Hp Hc].
  assert (r' = {| Main.f := f2;
                  Main.points :=
                    if 0 <? n1
                    then (λ a, a ++ [(Main.stored vs1 0 Main.zero,
                                      Main.stored vs1 1 Main.zero)])
                           <$> Main.points r
                    else Main.points r;
                  Main.colors :=
                    if 0 <? n2
                    then (λ a, Main.g_array_append_val_Point2f a
                                 (Main.stored vs1 0 Main.zero,
                                  Main.stored vs1 1 Main.zero) beyond)
                           <$> Main.colors r
                    else Main.colors r;
                  Main.countPts :=
                    if (0 <? n1) && bool_decide (is_Some (Main.points r))
                    then Main.countPts r + 1 else Main.countPts r;
                  Main.countCls :=
                    if (0 <? n2) && bool_decide (is_Some (Main.colors r))
                    then Main.countCls r + 1 else Main.countCls r |}) as ->.
  { destruct (negb (0 <? n2) && negb (0 <? n1));
      destruct Hit as [Hit|Hit]; by inversion Hit. }
  clear Hit. cbn [Main.points Main.colors Main.countPts Main.countCls].
  destruct (Main.points r) as [ps|], (Main.colors r) as [cs|];
    destruct (0 <? n1), (0 <? n2); simpl in *;
    unfold Main.g_array_append_val_Point2f;
    rewrite ?length_app; simpl; split_and!; try done; try lia.
Qed.

Lemma read_points_loop_counted fuel frame i r r' :
  Main.read_points_loop fuel frame i r = Some (inr r') →
  Main.counted r →
  Main.counted r' ∧
  (is_Some (Main.points r') ↔ is_Some (Main.points r)) ∧
  (is_Some (Main.colors r') ↔ is_Some (Main.colors r)).
Proof.
  revert i r. induction fuel as [|fuel IH]; intros i r; [done|]. simpl.
  destruct (Main.at_eof (Main.f r)); [by intros [= <-]|].
  destruct (Main.read_points_iteration (frame i) r) as [r1|r1|msg] eqn:Hit;
    [| |done].
  - intros Hloop Hr.
    destruct (read_points_iteration_counted _ r r1 (or_introl Hit) Hr)
      as (Hr1 & Hp1 & Hc1).
    destruct (IH _ _ Hloop Hr1) as (Hr' & Hp' & Hc').
    split; [done|]. by rewrite Hp', Hc'.
  - intros [= <-] Hr.
    by apply (read_points_iteration_counted _ r r1 (or_intror Hit)).
Qed.

(** X18. When [read_points_file] returns, its two counters are the sizes of
    the arrays it filled: [countPts] is the number of points and [countCls]
    the number of elements of the colours array, each 0 when that array was
    not asked for; and an array is there exactly when it was asked for. *)
Theorem read_points_file_counted input want_points want_colors frame r :
  Main.read_points_file input want_points want_colors frame = Some (inr r) →
  Main.counted r ∧
  (is_Some (Main.points r) ↔ want_points = true) ∧
  (is_Some (Main.colors r) ↔ want_colors = true).
Proof.
  unfold Main.read_points_file. intros Hloop.
  apply read_points_loop_counted in Hloop.
  - destruct Hloop as (Hr & Hp & Hc). split; [done|].
    rewrite Hp, Hc. simpl.
    destruct want_points, want_colors; split; split;
      (done || by intros [? ?] || eauto).
  - unfold Main.counted. simpl. by destruct want_points, want_colors.
Qed.

Lemma read_points_file_counted_witness :
  Main.counted
    {| Main.f := {| Main.rest := []; Main.at_eof := true |};
       Main.points := Some [(Main.f1_5, Main.f2_0)];
       Main.colors := Some [(Main.f1_5, Main.f2_0, Main.zero);
                            (Main.zero, Main.zero, Main.zero)];
       Main.countPts := 1; Main.countCls := 2 |} ∧
  (is_Some (Some [(Main.f1_5, Main.f2_0)]) ↔ true = true) ∧
  (is_Some (Some [(Main.f1_5, Main.f2_0, Main.zero);
                  (Main.zero, Main.zero, Main.zero)]) ↔ true = true).
Proof.
  apply (read_points_file_counted Main.sample_input true true (λ _, Main.zero)).
  reflexivity.
Defined.

(** ** Files of point lines and colour lines *)

Lemma starts_line_entries es tail :
  Main.starts_line tail = true →
  Main.starts_line (flat_map Main.tokens_of_entry es ++ tail) = true.
Proof. intros Htail. by destruct es as [|[[px py] co] es]. Qed.

(** One iteration on an entry: the point is appended to the points array;
    a colour line, gray or RGB, makes the colours array grow by the point
    buffer. *)
Lemma read_points_iteration_entry beyond r px py co ts :
  Main.rest (Main.f r) = Main.tokens_of_entry (px, py, co) ++ ts →
  Main.starts_line ts = true →
  Main.read_points_iteration beyond r
  = Main.Continue
      {| Main.f := {| Main.rest := ts;
                      Main.at_eof := match ts with
                                     | [] => true
                                     | _ => Main.at_eof (Main.f r)
                                     end |};
         Main.points := (λ a, a ++ [(px, py)]) <$> Main.points r;
         Main.colors := match co with
                        | Some _ => (λ a, a ++ [(px, py, beyond)]) <$> Main.colors r
                        | None => Main.colors r
                        end;
         Main.countPts := match Main.points r with
                          | Some _ => Main.countPts r + 1
                          | None => Main.countPts r
                          end;
         Main.countCls := match co, Main.colors r with
                          | Some _, Some _ => Main.countCls r + 1
                          | _, _ => Main.countCls r
                          end |}.
Proof.
  destruct r as [[ts0 eof0] ps cs cp cc]. simpl. intros -> Hts.
  unfold Main.read_points_iteration, Main.fscanf. simpl.
  destruct co as [[g|cr cg cb]|]; destruct ts as [|[| |v|] ts]; try done;
    destruct ps, cs; reflexivity.
Qed.

Lemma after_entries_nil frame i tail r :
  Main.rest (Main.f r) = tail → Main.after_entries frame i [] tail r = r.
Proof.
  destruct r as [[ts0 eof0] ps cs cp cc]. simpl. intros <-.
  unfold Main.after_entries. simpl.
  destruct ps, cs; simpl; rewrite ?app_nil_r, ?Z.add_0_r; reflexivity.
Qed.

(** Reading a sequence of entries takes one iteration per entry and leaves
    the reader in front of what follows them. *)
Lemma read_points_loop_entries frame tail es :
  Main.starts_line tail = true →
  ∀ i r,
    Main.rest (Main.f r) = flat_map Main.tokens_of_entry es ++ tail →
    (es ≠ [] → Main.at_eof (Main.f r) = false) →
    Main.read_points_loop (S (length (Main.rest (Main.f r)))) frame i r
    = Main.read_points_loop (S (length tail)) frame (i + length es)
        (Main.after_entries frame i es tail r).
Proof.
  intros Htail. induction es as [|[[px py] co] es IH]; intros i r Hrest Heof.
  - simpl in Hrest. rewrite (after_entries_nil _ _ _ _ Hrest), Hrest.
    by rewrite Nat.add_0_r.
  - assert (Main.rest (Main.f r)
            = Main.tokens_of_entry (px, py, co)
                ++ (flat_map Main.tokens_of_entry es ++ tail)) as Hrest'
      by (by rewrite Hrest; simpl; rewrite <- !app_assoc).
    pose proof (read_points_iteration_entry (frame i) r px py co _ Hrest'
                  (starts_line_entries es tail Htail)) as Hit.
    match type of Hit with
    | _ = Main.Continue ?r1 => set (r1' := r1) in *
    end.
    assert (Main.read_points_loop (S (length (Main.rest (Main.f r)))) frame i r
            = Main.read_points_loop (length (Main.rest (Main.f r))) frame (S i) r1')
      as -> by (by cbn [Main.read_points_loop]; rewrite (Heof ltac:(done)), Hit).
    assert (Main.rest (Main.f r1') = flat_map Main.tokens_of_entry es ++ tail)
      as Hrest1 by done.
    rewrite (read_points_loop_fuel _ (S (length (Main.rest (Main.f r1'))))).
    + rewrite (IH (S i) r1' Hrest1).
      * f_equal; [simpl; symmetry; apply Nat.add_succ_r|].
        unfold Main.after_entries, r1'. simpl.
        f_equal.
        -- f_equal. destruct es as [|[[px' py'] co'] es]; [|by destruct tail].
           simpl. by destruct tail.
        -- destruct (Main.points r); [|done]. simpl.
           by rewrite <- app_assoc.
        -- destruct co, (Main.colors r); simpl; try done.
           by rewrite <- app_assoc.
        -- destruct (Main.points r); [|done]. simpl. lia.
        -- destruct co, (Main.colors r); simpl; try done. lia.
      * intros Hes. unfold r1'. simpl.
        destruct es as [|[[px' py'] co'] es]; [done|]. simpl. by apply Heof.
    + rewrite Hrest1, Hrest'.
      rewrite (length_app (Main.tokens_of_entry (px, py, co))).
      destruct co as [[g|cr cg cb]|]; simpl; lia.
    + lia.
Qed.

(** X19. A file of well-formed entries ([@ x y], each optionally followed by
    a colour line [# g] or [# r g b]), ending there or at something that is
    neither a mark nor a number, is read completely: the points array gets
    the coordinates of the entries in their order, and the colours array one
    element per coloured entry, made of the coordinates of that entry's
    point followed by the word found behind the point buffer in that
    iteration. *)
Theorem read_points_file_entries es tail want_points want_colors frame :
  match tail with [] | Main.Other :: _ => True | _ => False end →
  Main.read_points_file (flat_map Main.tokens_of_entry es ++ tail)
    want_points want_colors frame
  = Some (inr
      {| Main.f := {| Main.rest := tail;
                      Main.at_eof := match tail with [] => true | _ => false end |};
         Main.points := if want_points then Some (Main.coordinates es) else None;
         Main.colors :=
           if want_colors then Some (Main.colours_read frame 0 es) else None;
         Main.countPts := if want_points then Z.of_nat (length es) else 0;
         Main.countCls :=
           if want_colors
           then Z.of_nat (length (Main.colours_read frame 0 es)) else 0 |}).
Proof.
  intros Htail. unfold Main.read_points_file.
  assert (Main.starts_line tail = true) as Hline
    by (by destruct tail as [|[| | |] tail]).
  match goal with
  | |- Main.read_points_loop _ _ _ ?r0 = _ =>
      etrans;
        [exact (read_points_loop_entries frame tail es Hline 0 r0 eq_refl
                  (λ _, eq_refl))|]
  end.
  destruct tail as [|[| | |] tail]; try done.
  - destruct es as [|en es]; destruct want_points, want_colors; reflexivity.
  - destruct es as [|en es]; destruct want_points, want_colors; reflexivity.
Qed.

Lemma read_points_file_entries_witness :
  Main.read_points_file
    (flat_map Main.tokens_of_entry Main.sample_entries ++ [])
    true true (λ _, Main.zero)
  = Some (inr
      {| Main.f := {| Main.rest := []; Main.at_eof := true |};
         Main.points := Some (Main.coordinates Main.sample_entries);
         Main.colors :=
           Some (Main.colours_read (λ _, Main.zero) 0 Main.sample_entries);
         Main.countPts := Z.of_nat (length Main.sample_entries);
         Main.countCls :=
           Z.of_nat (length (Main.colours_read (λ _, Main.zero) 0
                               Main.sample_entries)) |}).
Proof.
  apply (read_points_file_entries Main.sample_entries [] true true
           (λ _, Main.zero)).
  done.
Defined.

(** X20. A point line with a single number stops the whole read with the
    error on the ['@'] declaration, whatever well-formed entries come
    before it and whatever was asked for. *)
Theorem read_points_file_short_point es v ts want_points want_colors frame :
  match ts with Main.Num _ :: _ => False | _ => True end →
  Main.read_points_file
    (flat_map Main.tokens_of_entry es ++ Main.At :: Main.Num v :: ts)
    want_points want_colors frame
  = Some (inl "Error! %d is an unexpected number of floats after point '@' declaration!"%string).
Proof.
  intros Hts. unfold Main.read_points_file.
  match goal with
  | |- Main.read_points_loop _ _ _ ?r0 = _ =>
      etrans;
        [exact (read_points_loop_entries frame (Main.At :: Main.Num v :: ts) es
                  eq_refl 0 r0 eq_refl (λ _, eq_refl))|]
  end.
  destruct es as [|en es]; destruct ts as [|[| | |] ts]; try done;
    destruct want_points, want_colors; reflexivity.
Qed.

Lemma read_points_file_short_point_witness :
  Main.read_points_file
    (flat_map Main.tokens_of_entry Main.sample_entries
       ++ Main.At :: Main.Num Main.f0_5 :: [Main.Hash; Main.Num Main.f0_25])
    true true (λ _, Main.zero)
  = Some (inl "Error! %d is an unexpected number of floats after point '@' declaration!"%string).
Proof.
  apply (read_points_file_short_point Main.sample_entries Main.f0_5
           [Main.Hash; Main.Num Main.f0_25] true true (λ _, Main.zero)).
  done.
Defined.

(** X21. A colour line with two numbers after a point line stops the whole
    read with the error on the ['#'] declaration, whatever well-formed
    entries come before. *)
Theorem read_points_file_short_colour es px py u v ts want_points want_colors
    frame :
  match ts with Main.Num _ :: _ => False | _ => True end →
  Main.read_points_file
    (flat_map Main.tokens_of_entry es
       ++ Main.At :: Main.Num px :: Main.Num py
            :: Main.Hash :: Main.Num u :: Main.Num v :: ts)
    want_points want_colors frame
  = Some (inl "Error! %d is an unexpected number of floats after color '#' declaration!"%string).
Proof.
  intros Hts. unfold Main.read_points_file.
  match goal with
  | |- Main.read_points_loop _ _ _ ?r0 = _ =>
      etrans;
        [exact (read_points_loop_entries frame
                  (Main.At :: Main.Num px :: Main.Num py
                     :: Main.Hash :: Main.Num u :: Main.Num v :: ts) es
                  eq_refl 0 r0 eq_refl (λ _, eq_refl))|]
  end.
  destruct es as [|en es]; destruct ts as [|[| | |] ts]; try done;
    destruct want_points, want_colors; reflexivity.
Qed.

Lemma read_points_file_short_colour_witness :
  Main.read_points_file
    (flat_map Main.tokens_of_entry Main.sample_entries
       ++ Main.At :: Main.Num Main.f0_5 :: Main.Num Main.f1_5
            :: Main.Hash :: Main.Num Main.f0_25 :: Main.Num Main.f0_75 :: [])
    true true (λ _, Main.zero)
  = Some (inl "Error! %d is an unexpected number of floats after color '#' declaration!"%string).
Proof.
  apply (read_points_file_short_colour Main.sample_entries Main.f0_5 Main.f1_5
           Main.f0_25 Main.f0_75 [] true true (λ _, Main.zero)).
  done.
Defined.

(** ** [test_point_to_color] *)

Lemma guchar_of_bits n i :
  Z.testbit (Main.guchar_of n) i = (i <? 8) && Z.testbit n i.
Proof.
  unfold Main.guchar_of. change 256 with (2 ^ 8).
  by rewrite Z.testbit_mod_pow2.
Qed.

Lemma byte_index i : 0 ≤ i → (i <? 8) = true →
  i = 0 ∨ i = 1 ∨ i = 2 ∨ i = 3 ∨ i = 4 ∨ i = 5 ∨ i = 6 ∨ i = 7.
Proof. intros Hi Hlt. apply Z.ltb_lt in Hlt. lia. Qed.

(** The byte kept of a masked address shifted by at most two places sees
    the ten low bits of the address only. *)
Lemma masked_byte_low_bits p q mask k :
  0 ≤ k ≤ 2 →
  (∀ j, 0 ≤ j < 10 → Z.testbit p j = Z.testbit q j) →
  Main.guchar_of (Z.shiftr (Z.land (p mod 2 ^ 64) mask) k)
  = Main.guchar_of (Z.shiftr (Z.land (q mod 2 ^ 64) mask) k).
Proof.
  intros Hk Hlow. apply Z.bits_inj'. intros i Hi.
  rewrite !guchar_of_bits. destruct (i <? 8) eqn:Hlt; [|done]. simpl.
  apply Z.ltb_lt in Hlt.
  rewrite !Z.shiftr_spec, !Z.land_spec by done.
  rewrite !Z.mod_pow2_bits_low by lia. by rewrite Hlow by lia.
Qed.

Lemma low_bits_mod p j : 0 ≤ j < 10 → Z.testbit p j = Z.testbit (p mod 1024) j.
Proof.
  intros Hj. change 1024 with (2 ^ 10). by rewrite Z.mod_pow2_bits_low by lia.
Qed.

Lemma third_byte_null v :
  Main.guchar_of (Z.shiftr (Z.land v 0xff0000) 4) = 0.
Proof.
  apply Z.bits_inj'. intros i Hi. rewrite guchar_of_bits, Z.bits_0.
  destruct (i <? 8) eqn:Hlt; [|done]. simpl.
  rewrite Z.shiftr_spec, Z.land_spec by done.
  destruct (byte_index i Hi Hlt) as [->|[->|[->|[->|[->|[->|[->| ->]]]]]]];
    apply andb_false_r.
Qed.

Lemma test_point_to_color_mod (point : Z) :
  Main.test_point_to_color point = Main.test_point_to_color (point mod 1024).
Proof.
  unfold Main.test_point_to_color. cbv zeta. rewrite !third_byte_null.
  assert (Main.guchar_of (Z.land (point mod 2 ^ 64) 0xff)
          = Main.guchar_of (Z.land ((point mod 1024) mod 2 ^ 64) 0xff)) as ->
    by (apply (masked_byte_low_bits point (point mod 1024) 0xff 0);
        [lia|apply low_bits_mod]).
  rewrite (masked_byte_low_bits point (point mod 1024) 0xff00 2);
    [|lia|apply low_bits_mod].
  done.
Qed.

(** X22. The colour [test_point_to_color] gives to a point depends on the
    ten low bits of its address only, and its third channel always equals
    its second: the byte [b3], taken from bits 16 to 23 shifted by four
    places only, is always 0, and [b2], shifted by two, keeps bits 8 and 9
    only. *)
Theorem test_point_to_color_low_bits (point : Z) :
  Main.test_point_to_color point = Main.test_point_to_color (point mod 1024) ∧
  snd (Main.test_point_to_color point)
  = snd (fst (Main.test_point_to_color point)).
Proof.
  split; [apply test_point_to_color_mod|].
  unfold Main.test_point_to_color. cbv zeta. rewrite !third_byte_null.
  by rewrite !Z.lxor_0_r.
Qed.

(** Checked on each of the 1024 values of the ten low bits. *)
Lemma test_point_to_color_unit_low :
  forallb (λ n, let '(r, g, b) := Main.test_point_to_color (Z.of_nat n) in
                Main.unit_interval r && Main.unit_interval g
                && Main.unit_interval b)
          (seq 0 1024) = true.
Proof. vm_compute. reflexivity. Qed.

(** X23. Every channel [test_point_to_color] writes is a number between 0
    and 1, ends included, for every address. *)
Theorem test_point_to_color_unit (point : Z) :
  Main.unit_interval (fst (fst (Main.test_point_to_color point))) = true ∧
  Main.unit_interval (snd (fst (Main.test_point_to_color point))) = true ∧
  Main.unit_interval (snd (Main.test_point_to_color point)) = true.
Proof.
  rewrite (test_point_to_color_mod point).
  pose proof test_point_to_color_unit_low as Hall.
  rewrite forallb_forall in Hall.
  specialize (Hall (Z.to_nat (point mod 1024))).
  rewrite Z2Nat.id in Hall by (apply Z.mod_pos_bound; lia).
  destruct (Main.test_point_to_color (point mod 1024)) as [[r g] b].
  simpl.
  assert (In (Z.to_nat (point mod 1024)) (seq 0 1024)) as Hin.
  { apply in_seq. pose proof (Z.mod_pos_bound point 1024). lia. }
  specialize (Hall Hin). apply andb_true_iff in Hall as [Hrg Hb].
  by apply andb_true_iff in Hrg as [Hr Hg].
Qed.
